(** * nbhashmap: a sequential model of the non blocking hash map

    A shallow embedding of [nbhashmap.c] (Onne Gorter's non blocking hash
    map) for runs in which one thread at a time executes a public operation.
    Memory is an explicit store: the [HashMap] struct, a heap of
    [header] tables addressed by pointer, and the log of the calls of the
    caller's [free_func].  Every C function is a function of the state monad
    [M]; a failed [assert], a [fatal] or a wild access ends a run in
    [Abort], a loop that would wait for another thread for ever ends it in
    [Spin]. *)

From Stdlib Require Import ZArith QArith Lia Bool.
From stdpp Require Import base list numbers.

Local Open Scope Z_scope.

(** ** Pointers *)

(** [void *]: the null pointer, the three marker strings of the source
    (distinct static addresses) and every other address. *)
Inductive ptr : Set :=
| null
| SIZED
| IGNORE
| DELETED
| Addr (a : Z).

#[global] Instance ptr_eq_dec : EqDecision ptr.
Proof. solve_decision. Defined.

Definition ptr_eqb (a b : ptr) : bool := bool_decide (a = b).

(** [header *]: null, the promise marker [(header * )1], or a table of the
    heap. *)
Inductive hptr : Set :=
| hnull
| kvs_promise
| Tbl (a : nat).

#[global] Instance hptr_eq_dec : EqDecision hptr.
Proof. solve_decision. Defined.

Definition hptr_eqb (a b : hptr) : bool := bool_decide (a = b).

(** ** Structs *)

Record entry : Set := mk_entry {
  _key : ptr;
  _val : ptr;
  _hash : Z            (* unsigned int *)
}.

(** The field [prev], the list of the retired tables, is left out: a
    retired table is only ever freed, and in a run of one thread nothing
    reads it again. *)
Record header : Set := mk_header {
  _btodo : Z;          (* AO_t *)
  len : Z;             (* unsigned long *)
  _bdone : Z;          (* AO_t *)
  kvs : list entry
}.

Record HashMap : Set := mk_map {
  _size : Z;           (* AO_t: unsigned long, wraps at 2^64 *)
  changes : Z;         (* unsigned int, wraps at 2^32 *)
  _kvs : hptr;
  _nkvs : hptr
}.

(** The store: the map struct, the tables by address, and the keys handed
    to [free_func], latest first. *)
Record mem : Type := mk_mem {
  hmap : HashMap;
  heap : list header;
  freed : list ptr
}.

Definition INITIAL_SIZE : Z := 4.
Definition REPROBE_LIMIT : Z := 17.
Definition BLOCK_SIZE : Z := 1024 * 8.

Definition u32 (z : Z) : Z := z mod 2 ^ 32.
Definition u64 (z : Z) : Z := z mod 2 ^ 64.
(** An unsigned long read as a [long]; an unsigned int read as an [int]. *)
Definition to_long (z : Z) : Z := if u64 z <? 2 ^ 63 then u64 z else u64 z - 2 ^ 64.
Definition to_int (z : Z) : Z := if u32 z <? 2 ^ 31 then u32 z else u32 z - 2 ^ 32.

(** ** The monad of runs *)

Inductive outcome (A : Type) : Type :=
| Ok (a : A) (s : mem)
| Abort
| Spin.
Arguments Ok {A} a s.
Arguments Abort {A}.
Arguments Spin {A}.

Definition M (A : Type) : Type := mem -> outcome A.

Definition ret {A} (a : A) : M A := fun s => Ok a s.
Definition bind {A B} (m : M A) (k : A -> M B) : M B :=
  fun s => match m s with
           | Ok a s' => k a s'
           | Abort => Abort
           | Spin => Spin
           end.
Definition abort {A} : M A := fun _ => Abort.
Definition spin {A} : M A := fun _ => Spin.

Declare Scope run_scope.
Delimit Scope run_scope with run.
Notation "'let*' x ':=' m 'in' k" := (bind m (fun x => k))
  (at level 10, x name, m at level 100, k at level 200) : run_scope.
Notation "m '>>' k" := (bind m (fun _ => k))
  (at level 100, k at level 200, right associativity) : run_scope.
Local Open Scope run_scope.

Definition c_assert (b : bool) : M unit := fun s => if b then Ok tt s else Abort.
Definition when (b : bool) (m : M unit) : M unit := if b then m else ret tt.
Definition fatal {A} : M A := abort.

(** *** Reading and writing the store *)

Definition get_map : M HashMap := fun s => Ok (hmap s) s.
Definition put_map (m : HashMap) : M unit :=
  fun s => Ok tt (mk_mem m (heap s) (freed s)).

Definition set_size (z : Z) (m : HashMap) := mk_map z (changes m) (_kvs m) (_nkvs m).
Definition set_changes (z : Z) (m : HashMap) := mk_map (_size m) z (_kvs m) (_nkvs m).
Definition set_kvs (p : hptr) (m : HashMap) := mk_map (_size m) (changes m) p (_nkvs m).
Definition set_nkvs (p : hptr) (m : HashMap) := mk_map (_size m) (changes m) (_kvs m) p.

Definition upd_map (f : HashMap -> HashMap) : M unit :=
  let* m := get_map in put_map (f m).

(** Dereferencing a table pointer; null, the promise marker and a dangling
    address fault. *)
Definition rd_header (p : hptr) : M header :=
  fun s => match p with
           | Tbl a => match heap s !! a with Some h => Ok h s | None => Abort end
           | _ => Abort
           end.

Definition wr_header (p : hptr) (h : header) : M unit :=
  fun s => match p with
           | Tbl a => match heap s !! a with
                      | Some _ => Ok tt (mk_mem (hmap s) (<[a := h]> (heap s)) (freed s))
                      | None => Abort
                      end
           | _ => Abort
           end.

Definition set_btodo (z : Z) (h : header) := mk_header z (len h) (_bdone h) (kvs h).
Definition set_bdone (z : Z) (h : header) := mk_header (_btodo h) (len h) z (kvs h).
Definition set_slots (l : list entry) (h : header) := mk_header (_btodo h) (len h) (_bdone h) l.

(** [entry *]: a table and a slot index in it. *)
Definition eptr : Set := hptr * Z.

Definition rd_entry (e : eptr) : M entry :=
  let* h := rd_header (fst e) in
  match kvs h !! Z.to_nat (snd e) with
  | Some x => if 0 <=? snd e then ret x else abort
  | None => abort
  end.

Definition wr_entry (e : eptr) (x : entry) : M unit :=
  let* h := rd_header (fst e) in
  match kvs h !! Z.to_nat (snd e) with
  | Some _ =>
      if 0 <=? snd e
      then wr_header (fst e) (set_slots (<[Z.to_nat (snd e) := x]> (kvs h)) h)
      else abort
  | None => abort
  end.

Definition set_key (k : ptr) (x : entry) := mk_entry k (_val x) (_hash x).
Definition set_val (v : ptr) (x : entry) := mk_entry (_key x) v (_hash x).
Definition set_hash (h : Z) (x : entry) := mk_entry (_key x) (_val x) h.

Definition zero_entry : entry := mk_entry null null 0.

(** [malloc]: a fresh table at the next free address. *)
Definition alloc_header (h : header) : M hptr :=
  fun s => Ok (Tbl (length (heap s))) (mk_mem (hmap s) (heap s ++ [h]) (freed s)).

(** ** Single precision

    The values of finite binary32 numbers as rationals, with the rounding
    of IEEE 754 (to nearest, ties to even, 24 significant bits).  The
    resize heuristic only meets quotients of 32-bit integers: neither
    subnormal numbers nor overflow occur, and they are not modelled.
    Every operation rounds to binary32, as in the code gcc produces for
    x86-64. *)
Module F32.

Definition round_pos (n d : Z) : Q :=
  let k := Z.log2 n - Z.log2 d in
  let fl := if (if 0 <=? k then d * 2 ^ k <=? n else d <=? n * 2 ^ (- k))
            then k else k - 1 in
  let e := fl - 23 in
  let n' := if 0 <=? e then n else n * 2 ^ (- e) in
  let d' := if 0 <=? e then d * 2 ^ e else d in
  let q := n' / d' in
  let r := n' mod d' in
  let m := if 2 * r <? d' then q
           else if d' <? 2 * r then q + 1
           else if Z.even q then q else q + 1 in
  if 0 <=? e then inject_Z (m * 2 ^ e) else Qmake m (Z.to_pos (2 ^ (- e))).

Definition round (x : Q) : Q :=
  match Qnum x with
  | Z0 => 0%Q
  | Zpos _ => round_pos (Qnum x) (QDen x)
  | Zneg _ => Qopp (round_pos (- Qnum x) (QDen x))
  end.

(** [(float)z], [a / b] and [a < b] on floats, and the literal [0.3f]. *)
Definition of_Z (z : Z) : Q := round (inject_Z z).
Definition div (a b : Q) : Q := round (a / b)%Q.
Definition ltb (a b : Q) : bool := Qnum a * QDen b <? Qnum b * QDen a.
Definition c0_3 : Q := round (3 # 10).

End F32.

(** One call of [hashmap_putif]: its key, its value and its oldval. *)
Record call : Set := mk_call {
  c_key : ptr;
  c_val : ptr;
  c_old : ptr
}.

Section Model.

(** The three capabilities stored in the map by [hashmap_new].  The
    destructor is modelled by the log [freed]. *)
Variable equals_func : ptr -> ptr -> bool.
(** An [unsigned int] in the source; nothing below needs the bound. *)
Variable hash_func : ptr -> Z.
(** What [malloc] leaves in slot [i] of a fresh table before it is zeroed. *)
Variable uninit : nat -> entry.

Definition free_func (k : ptr) : M unit :=
  fun s => Ok tt (mk_mem (hmap s) (heap s) (k :: freed s)).

(** ** Threading primitives

    [cas(addr, nval, oval)] for the four kinds of word the source swaps.
    The barriers and [yield] do nothing in a sequential run. *)

Definition cas_key (e : eptr) (nval oval : ptr) : M bool :=
  let* x := rd_entry e in
  if ptr_eqb (_key x) oval then wr_entry e (set_key nval x) >> ret true else ret false.

Definition cas_val (e : eptr) (nval oval : ptr) : M bool :=
  let* x := rd_entry e in
  if ptr_eqb (_val x) oval then wr_entry e (set_val nval x) >> ret true else ret false.

Definition cas_map_nkvs (nval oval : hptr) : M bool :=
  let* m := get_map in
  if hptr_eqb (_nkvs m) oval then put_map (set_nkvs nval m) >> ret true else ret false.

Definition cas_map_kvs (nval oval : hptr) : M bool :=
  let* m := get_map in
  if hptr_eqb (_kvs m) oval then put_map (set_kvs nval m) >> ret true else ret false.

(** ** Tables *)

Definition header_new (n : Z) : M hptr :=
  alloc_header (mk_header 0 n 0 (uninit <$> seq 0 (Z.to_nat n))).

Definition _load (kvs : hptr) (idx : Z) : M eptr :=
  c_assert (0 <=? idx) >>
  let* h := rd_header kvs in
  c_assert (idx <? len h) >>
  ret (kvs, idx).

Definition getkvs : M hptr := let* m := get_map in ret (_kvs m).

Definition getkey (e : eptr) : M ptr := let* x := rd_entry e in ret (_key x).
Definition getval (e : eptr) : M ptr := let* x := rd_entry e in ret (_val x).

(** The "wait hash" loop: alone, a thread that reads hash 0 reads it for
    ever. *)
Definition gethash (e : eptr) : M Z :=
  let* x := rd_entry e in
  if _hash x =? 0 then spin else ret (_hash x).

Definition bzero (start n : nat) (l : list entry) : list entry :=
  take start l ++ replicate n zero_entry ++ drop (start + n) l.

Definition hashmap_new : mem :=
  mk_mem (mk_map 0 0 (Tbl 0) hnull)
         [mk_header 0 INITIAL_SIZE 0
            (bzero 0 (Z.to_nat INITIAL_SIZE) (uninit <$> seq 0 (Z.to_nat INITIAL_SIZE)))]
         [].

(** [free_kvs]: the keys of the current table, from the last slot down. *)
Fixpoint free_keys (kvs : hptr) (n : nat) : M unit :=
  match n with
  | O => ret tt
  | S i =>
      let* e := _load kvs (Z.of_nat i) in
      let* k := getkey e in
      c_assert (negb (ptr_eqb k SIZED)) >>
      when (negb (ptr_eqb k null)) (free_func k) >>
      free_keys kvs i
  end.

Definition free_kvs (kvs : hptr) : M unit :=
  let* h := rd_header kvs in
  free_keys kvs (Z.to_nat (to_int (len h - 1) + 1)).

Definition hashmap_free : M unit :=
  let* kvs := getkvs in free_kvs kvs.

Definition hashmap_size : M Z :=
  let* m := get_map in
  let res := to_long (_size m) in
  if res <? 0 then ret 0 else ret res.

Definition _size_update (n : Z) : M unit :=
  upd_map (fun m => set_size (u64 (_size m + n)) m).

(** *** Block-wise zeroing of the new table *)

Definition fetch_and_add_btodo (kvs : hptr) : M Z :=
  let* h := rd_header kvs in
  wr_header kvs (set_btodo (u64 (_btodo h + 1)) h) >> ret (_btodo h).

Definition fetch_and_add_bdone (kvs : hptr) : M Z :=
  let* h := rd_header kvs in
  wr_header kvs (set_bdone (u64 (_bdone h + 1)) h) >> ret (_bdone h).

(** Waiting for the other helpers: alone, the counter never moves. *)
Definition wait_bdone (kvs : hptr) (todo : Z) : M unit :=
  let* h := rd_header kvs in
  if _bdone h <? todo then spin else ret tt.

Definition blocks_todo (len : Z) : Z := u32 (1 + (len - 1) / BLOCK_SIZE).

Definition _zero_block (nkvs : hptr) : M Z :=
  c_assert (negb (hptr_eqb nkvs hnull)) >>
  let* h := rd_header nkvs in
  c_assert (negb (len h =? 0)) >>
  let len := len h in
  let todo := blocks_todo len in
  c_assert (0 <? todo) >>
  c_assert (implb (len <=? BLOCK_SIZE) (todo =? 1)) >>
  let* block := fetch_and_add_btodo nkvs in
  if todo <=? block then wait_bdone nkvs todo >> ret 0
  else
    let blen := if len <? block * BLOCK_SIZE + BLOCK_SIZE
                then u32 (len - block * BLOCK_SIZE) else BLOCK_SIZE in
    let* h := rd_header nkvs in
    wr_header nkvs
      (set_slots (bzero (Z.to_nat (block * BLOCK_SIZE)) (Z.to_nat blen) (kvs h)) h) >>
    let* bdone := fetch_and_add_bdone nkvs in
    if todo <=? bdone then ret 0 else ret 1.

(** ** Probing *)

(** [hash & (len - 1)] and [(idx + 1) & (len - 1)], computed in unsigned int
    and stored in an [int]. *)
Definition home (hash len : Z) : Z := to_int (Z.land hash (u32 (len - 1))).
Definition next_idx (idx len : Z) : Z := to_int (Z.land (u32 (idx + 1)) (u32 (len - 1))).

(** ** The putif engine *)

(** How the probe loop of [_putif] ends: the function returns, or the loop
    breaks with the slot to update and [mustfreekey]. *)
Inductive probe : Set :=
| Return (r : ptr)
| Break (e : eptr) (mustfreekey : bool).

Section Putif.

(** The [_resize] that line 481 calls.  [_resize] reaches [_putif] again
    through [_copy_block], always with [resizing = 1], where that call is
    never made. *)
Variable _resize : hptr -> M ptr.

Fixpoint putif_probe (fuel : nat) (resizing : bool) (kvs : hptr) (key : ptr)
    (hash : Z) (val oldval : ptr) (len idx reprobe_try : Z) : M probe :=
  match fuel with
  | O => spin
  | S fuel =>
      let* e := _load kvs idx in
      let* k := getkey e in
      (* what the body does from [assert(k)] on *)
      let rest (k : ptr) : M probe :=
        c_assert (negb (ptr_eqb k null)) >>
        if ptr_eqb k SIZED then ret (Return SIZED) else
        let* h := gethash e in
        if (h =? hash) && equals_func k key then ret (Break e true) else
        if negb resizing && (REPROBE_LIMIT <=? reprobe_try + 1)
        then (let* r := _resize kvs in ret (Return r))
        else putif_probe fuel resizing kvs key hash val oldval len
               (next_idx idx len)
               (if resizing then reprobe_try else reprobe_try + 1) in
      if ptr_eqb k null then
        (* an unclaimed slot *)
        let claim : M probe :=
          let* won := cas_key e key null in
          if won then
            (let* x := rd_entry e in wr_entry e (set_hash hash x)) >>
            ret (Break e false)
          else
            let* k := getkey e in rest k in
        if ptr_eqb val null && (ptr_eqb oldval IGNORE || ptr_eqb oldval null) then
          if resizing then ret (Return DELETED) else
          let* still := cas_key e null null in
          if still then free_func key >> ret (Return null) else claim
        else claim
      else rest k
  end.

Fixpoint putif_update (fuel : nat) (resizing : bool) (e : eptr) (key val oldval : ptr)
    (mustfreekey : bool) (v : ptr) : M ptr :=
  match fuel with
  | O => spin
  | S fuel =>
      if negb (ptr_eqb oldval IGNORE) && negb (ptr_eqb v oldval) then
        if resizing then fatal else ret v
      else
        let* won := cas_val e val v in
        if won then
          when (negb resizing && ptr_eqb v null && negb (ptr_eqb val null))
               (_size_update 1) >>
          when (negb resizing && negb (ptr_eqb v null) && ptr_eqb val null)
               (_size_update (-1)) >>
          when (negb resizing) (upd_map (fun m => set_changes (u32 (changes m + 1)) m)) >>
          when mustfreekey (free_func key) >>
          ret v
        else
          let* v := getval e in
          if ptr_eqb v SIZED then ret SIZED
          else putif_update fuel resizing e key val oldval mustfreekey v
  end.

(** The second half of [_putif], from line 487 on. *)
Definition putif_value (fuel : nat) (resizing : bool) (kvs : hptr) (key val oldval : ptr)
    (p : probe) : M ptr :=
  match p with
  | Return r => ret r
  | Break e mustfreekey =>
      let* v := getval e in
      if ptr_eqb v SIZED then ret SIZED else
      let* m := get_map in
      if negb resizing && negb (ptr_eqb v null)
         && ((negb (hptr_eqb (_nkvs m) hnull) && negb (hptr_eqb (_nkvs m) kvs))
             || negb (hptr_eqb (_kvs m) kvs))
      then ret SIZED
      else putif_update fuel resizing e key val oldval mustfreekey v
  end.

Definition _putif (fuel : nat) (resizing : bool) (kvs : hptr) (key : ptr) (hash : Z)
    (val oldval : ptr) : M ptr :=
  let* h := rd_header kvs in
  let len := u32 (len h) in
  let idx := home hash len in
  c_assert (negb (ptr_eqb key null)) >>
  c_assert (negb (hash =? 0)) >>
  let* p := putif_probe fuel resizing kvs key hash val oldval len idx 0 in
  putif_value fuel resizing kvs key val oldval p.

End Putif.

(** *** Block-wise copy of the old table *)

(** One slot of [_copy_block]: the [while (1)] of lines 294-319. *)
Fixpoint copy_slot (fuel fuel' : nat) (okvs nkvs : hptr) (e : eptr) : M unit :=
  match fuel' with
  | O => spin
  | S fuel' =>
      let* k := getkey e in
      if negb (ptr_eqb k null) then
        let* old := getval e in
        let* won := cas_val e SIZED old in
        if won then
          let* h := gethash e in
          let* r := _putif (fun _ => abort) fuel true nkvs k h old null in
          when (ptr_eqb r DELETED)
            (let* marked := cas_key e SIZED k in
             if marked then free_func k else fatal)
        else copy_slot fuel fuel' okvs nkvs e
      else
        let* won := cas_key e SIZED null in
        if won then ret tt else copy_slot fuel fuel' okvs nkvs e
  end.

(** The [for] of line 292: [n] slots from [i] on. *)
Fixpoint copy_slots (fuel : nat) (okvs nkvs : hptr) (i : Z) (n : nat) : M unit :=
  match n with
  | O => ret tt
  | S n =>
      let* e := _load okvs i in
      copy_slot fuel fuel okvs nkvs e >>
      copy_slots fuel okvs nkvs (i + 1) n
  end.

Definition _copy_block (fuel : nat) (okvs nkvs : hptr) : M Z :=
  c_assert (negb (hptr_eqb okvs hnull)) >>
  c_assert (negb (hptr_eqb nkvs hnull)) >>
  c_assert (negb (hptr_eqb nkvs kvs_promise)) >>
  let* h := rd_header okvs in
  let len := len h in
  let todo := blocks_todo len in
  c_assert (0 <? todo) >>
  c_assert (implb (len <=? BLOCK_SIZE) (todo =? 1)) >>
  let* block := fetch_and_add_btodo okvs in
  if todo <=? block then wait_bdone okvs todo >> ret 0
  else
    let blen := if len <? block * BLOCK_SIZE + BLOCK_SIZE
                then len - block * BLOCK_SIZE else BLOCK_SIZE in
    let blen := block * BLOCK_SIZE + blen in
    let i := to_int (block * BLOCK_SIZE) in
    copy_slots fuel okvs nkvs i (Z.to_nat (blen - i)) >>
    let* bdone := fetch_and_add_bdone okvs in
    if todo <=? bdone then ret 0 else ret 1.

(** ** The resize coordinator *)

(** [while (_zero_block(nkvs));] and [while (_copy_block(...));]. *)
Fixpoint zero_all (fuel : nat) (nkvs : hptr) : M unit :=
  match fuel with
  | O => spin
  | S fuel' =>
      let* more := _zero_block nkvs in
      if more =? 0 then ret tt else zero_all fuel' nkvs
  end.

Fixpoint copy_all (fuel fuel' : nat) (okvs nkvs : hptr) : M unit :=
  match fuel' with
  | O => spin
  | S fuel' =>
      let* more := _copy_block fuel okvs nkvs in
      if more =? 0 then ret tt else copy_all fuel fuel' okvs nkvs
  end.

(** Lines 369-376: the length of the next table. *)
Definition next_len (changes size len : Z) : Z :=
  if (len / 4 <? changes)
     && F32.ltb (F32.div (F32.of_Z size) (F32.of_Z len)) F32.c0_3
  then len
  else u32 (len * 2).

Definition _resize (fuel : nat) (okvs : hptr) : M ptr :=
  let* m := get_map in
  if negb (hptr_eqb (_nkvs m) hnull) then ret SIZED else
  if negb (hptr_eqb (_kvs m) okvs) then ret SIZED else
  let* won := cas_map_nkvs kvs_promise hnull in
  if won then
    let* m := get_map in
    if negb (hptr_eqb (_kvs m) okvs) then
      let* undone := cas_map_nkvs hnull kvs_promise in
      if undone then ret SIZED else fatal
    else
      (* we won the race to produce new map *)
      let* sz := hashmap_size in
      let size := to_int sz in
      let* h := rd_header okvs in
      let olen := u32 (len h) in
      let* m := get_map in
      let* nkvs := header_new (next_len (changes m) size olen) in
      c_assert (negb (hptr_eqb nkvs hnull)) >>
      let* nh := rd_header nkvs in
      c_assert (negb (len nh =? 0)) >>
      let* h := rd_header okvs in
      wr_header okvs (set_bdone 0 (set_btodo 0 h)) >>
      upd_map (set_nkvs nkvs) >>
      zero_all fuel nkvs >>
      copy_all fuel fuel okvs nkvs >>
      (* push_old_kvs, free_old_kvs: the retired tables are not modelled *)
      let* promoted := cas_map_kvs nkvs okvs in
      if negb promoted then fatal else
      let* cleared := cas_map_nkvs hnull nkvs in
      if negb cleared then fatal else
      upd_map (set_changes 0) >>
      ret SIZED
  else ret SIZED.

(** [while (map->_kvs == okvs && f());] for the two helper loops. *)
Fixpoint help_blocks (fuel : nat) (okvs : hptr) (f : M Z) : M unit :=
  match fuel with
  | O => spin
  | S fuel' =>
      let* m := get_map in
      if hptr_eqb (_kvs m) okvs then
        let* more := f in
        if more =? 0 then ret tt else help_blocks fuel' okvs f
      else ret tt
  end.

(** The wait for a published table of lines 335-342: [None] when
    [_help_resize] returns from inside the loop. *)
Fixpoint help_wait (fuel fuel' : nat) (okvs nkvs : hptr) : M (option hptr) :=
  match fuel' with
  | O => spin
  | S fuel' =>
      if hptr_eqb nkvs hnull || hptr_eqb nkvs kvs_promise then
        let* m := get_map in
        if negb (hptr_eqb (_kvs m) okvs) then ret None else
        if hptr_eqb nkvs hnull then _resize fuel okvs >> ret None else
        let* m := get_map in
        help_wait fuel fuel' okvs (_nkvs m)
      else ret (Some nkvs)
  end.

(** [while (map->_kvs == okvs) yield();] *)
Definition wait_promoted (okvs : hptr) : M unit :=
  let* m := get_map in
  if hptr_eqb (_kvs m) okvs then spin else ret tt.

Definition _help_resize (fuel : nat) (okvs : hptr) : M unit :=
  let* m := get_map in
  if negb (hptr_eqb (_kvs m) okvs) then ret tt else
  let* w := help_wait fuel fuel okvs (_nkvs m) in
  match w with
  | None => ret tt
  | Some nkvs =>
      help_blocks fuel okvs (_zero_block nkvs) >>
      help_blocks fuel okvs (_copy_block fuel okvs nkvs) >>
      wait_promoted okvs
  end.

(** ** The lookup engine *)

Fixpoint get_probe (fuel : nat) (kvs : hptr) (key : ptr) (hash : Z)
    (len idx reprobe_try : Z) : M ptr :=
  match fuel with
  | O => spin
  | S fuel =>
      let* e := _load kvs idx in
      let* k := getkey e in
      if ptr_eqb k null then ret null else
      if ptr_eqb k SIZED then ret SIZED else
      let* h := gethash e in
      if (h =? hash) && equals_func k key then getval e else
      if len <=? reprobe_try + 1 then ret null else
      get_probe fuel kvs key hash len (next_idx idx len) (reprobe_try + 1)
  end.

Definition _get (fuel : nat) (kvs : hptr) (key : ptr) (hash : Z) : M ptr :=
  let* h := rd_header kvs in
  let len := u32 (len h) in
  get_probe fuel kvs key hash len (home hash len) 0.

(** ** The public operations *)

Definition hash_of (key : ptr) : Z :=
  let hash := hash_func key in
  if hash =? 0 then 1 else hash.

(** [while (res == SIZED) { ... }] of both wrappers. *)
Fixpoint retry (fuel fuel' : nat) (engine : hptr -> M ptr) (kvs : hptr) (res : ptr) : M ptr :=
  if ptr_eqb res SIZED then
    match fuel' with
    | O => spin
    | S fuel' =>
        _help_resize fuel kvs >>
        let* kvs := getkvs in
        let* res := engine kvs in
        retry fuel fuel' engine kvs res
    end
  else ret res.

Definition hashmap_get (fuel : nat) (key : ptr) : M ptr :=
  let hash := hash_of key in
  let* kvs := getkvs in
  let* res := _get fuel kvs key hash in
  retry fuel fuel (fun kvs => _get fuel kvs key hash) kvs res.

Definition hashmap_putif (fuel : nat) (key val oldval : ptr) : M ptr :=
  let hash := hash_of key in
  let engine kvs := _putif (_resize fuel) fuel false kvs key hash val oldval in
  let* kvs := getkvs in
  let* res := engine kvs in
  retry fuel fuel engine kvs res.

(** * Properties *)

(** ** Machine arithmetic *)

Lemma u32_small z : 0 <= z < 2 ^ 32 -> u32 z = z.
Proof. intros. unfold u32. apply Z.mod_small. lia. Qed.

Lemma u64_small z : 0 <= z < 2 ^ 64 -> u64 z = z.
Proof. intros. unfold u64. apply Z.mod_small. lia. Qed.

Lemma to_int_small z : 0 <= z < 2 ^ 31 -> to_int z = z.
Proof.
  intros. unfold to_int. rewrite u32_small by lia.
  destruct (Z.ltb_spec z (2 ^ 31)); lia.
Qed.

Lemma to_long_small z : 0 <= z < 2 ^ 63 -> to_long z = z.
Proof.
  intros. unfold to_long. rewrite u64_small by lia.
  destruct (Z.ltb_spec z (2 ^ 63)); lia.
Qed.

(** A table length: a power of two that an [int] index can address. *)
Definition pow2_len (L : Z) : Prop := exists n, 0 <= n <= 31 /\ L = 2 ^ n.

Lemma pow2_len_range L : pow2_len L -> 1 <= L <= 2 ^ 31.
Proof.
  intros (n & Hn & ->). split.
  - change 1 with (2 ^ 0). apply Z.pow_le_mono_r; lia.
  - apply Z.pow_le_mono_r; lia.
Qed.

Lemma land_mask a L : pow2_len L -> Z.land a (L - 1) = a mod L.
Proof.
  intros (n & Hn & ->).
  replace (2 ^ n - 1) with (Z.ones n) by (rewrite Z.ones_equiv; lia).
  apply Z.land_ones. lia.
Qed.

Lemma home_mod hash L : pow2_len L -> home hash L = hash mod L.
Proof.
  intros HL. pose proof (pow2_len_range L HL). unfold home.
  rewrite u32_small by lia. rewrite land_mask by done.
  apply to_int_small. pose proof (Z.mod_pos_bound hash L). lia.
Qed.

Lemma next_idx_mod idx L :
  pow2_len L -> 0 <= idx < L -> next_idx idx L = (idx + 1) mod L.
Proof.
  intros HL Hi. pose proof (pow2_len_range L HL). unfold next_idx.
  rewrite !u32_small by lia. rewrite land_mask by done.
  apply to_int_small. pose proof (Z.mod_pos_bound (idx + 1) L). lia.
Qed.

(** The slot a probe started at [hash] looks at after [t] reprobes. *)
Definition probe_idx (hash L : Z) (t : nat) : Z :=
  Nat.iter t (fun i => next_idx i L) (home hash L).

Lemma probe_idx_mod hash L t :
  pow2_len L -> probe_idx hash L t = (hash + Z.of_nat t) mod L.
Proof.
  intros HL. pose proof (pow2_len_range L HL). unfold probe_idx.
  induction t as [|t IH]; simpl.
  - rewrite home_mod by done. f_equal. lia.
  - rewrite IH. rewrite next_idx_mod by (try done; apply Z.mod_pos_bound; lia).
    rewrite Zplus_mod_idemp_l. f_equal. lia.
Qed.

Lemma probe_idx_range hash L t : pow2_len L -> 0 <= probe_idx hash L t < L.
Proof.
  intros HL. pose proof (pow2_len_range L HL).
  rewrite probe_idx_mod by done. apply Z.mod_pos_bound. lia.
Qed.

Lemma probe_idx_S hash L t :
  probe_idx hash L (S t) = next_idx (probe_idx hash L t) L.
Proof. reflexivity. Qed.

(** ** Running the primitives *)

Definition upd_heap (a : nat) (h : header) (s : mem) : mem :=
  mk_mem (hmap s) (<[a := h]> (heap s)) (freed s).

Definition upd_slots (a : nat) (h : header) (l : list entry) (s : mem) : mem :=
  upd_heap a (set_slots l h) s.

Lemma bind_ok {A B} (m : M A) (k : A -> M B) s a s' :
  m s = Ok a s' -> bind m k s = k a s'.
Proof. unfold bind. now intros ->. Qed.

Lemma bind_eq {A B} (m : M A) (k : A -> M B) s o :
  m s = o ->
  bind m k s = match o with Ok a s' => k a s' | Abort => Abort | Spin => Spin end.
Proof. unfold bind. now intros ->. Qed.

Lemma bind_ret {A B} (a : A) (k : A -> M B) s : bind (ret a) k s = k a s.
Proof. reflexivity. Qed.

Lemma bind_assoc {A B C} (m : M A) (k : A -> M B) (k' : B -> M C) s :
  bind (bind m k) k' s = bind m (fun a => bind (k a) k') s.
Proof. unfold bind. destruct (m s); reflexivity. Qed.

Lemma heap_upd_eq s a h h' :
  heap s !! a = Some h -> heap (upd_heap a h' s) !! a = Some h'.
Proof. intros H. simpl. apply list_lookup_insert_eq. eapply lookup_lt_Some, H. Qed.

Lemma heap_upd_ne s a b h' : a <> b -> heap (upd_heap a h' s) !! b = heap s !! b.
Proof. intros H. simpl. now apply list_lookup_insert_ne. Qed.

Lemma upd_heap_same s a h : heap s !! a = Some h -> upd_heap a h s = s.
Proof.
  intros H. destruct s as [m hp fr]. unfold upd_heap. simpl in *.
  now rewrite list_insert_id.
Qed.

Lemma upd_heap_twice s a h h' : upd_heap a h' (upd_heap a h s) = upd_heap a h' s.
Proof. unfold upd_heap. simpl. now rewrite list_insert_insert_eq. Qed.

Lemma set_slots_same h : set_slots (kvs h) h = h.
Proof. now destruct h. Qed.

Lemma rd_header_eq s a h : heap s !! a = Some h -> rd_header (Tbl a) s = Ok h s.
Proof. unfold rd_header. now intros ->. Qed.

Lemma wr_header_eq s a h h' :
  heap s !! a = Some h -> wr_header (Tbl a) h' s = Ok tt (upd_heap a h' s).
Proof. unfold wr_header. now intros ->. Qed.

Lemma load_eq s a h i :
  heap s !! a = Some h -> 0 <= i < len h -> _load (Tbl a) i s = Ok (Tbl a, i) s.
Proof.
  intros H Hi. unfold _load, c_assert, bind.
  destruct (Z.leb_spec 0 i); [|lia]. rewrite (rd_header_eq _ _ _ H).
  destruct (Z.ltb_spec i (len h)); [|lia]. reflexivity.
Qed.

Lemma rd_entry_eq s a h i x :
  heap s !! a = Some h -> 0 <= i -> kvs h !! Z.to_nat i = Some x ->
  rd_entry (Tbl a, i) s = Ok x s.
Proof.
  intros H Hi Hx. unfold rd_entry, bind. simpl. rewrite H, Hx.
  destruct (Z.leb_spec 0 i); [|lia]. reflexivity.
Qed.

Lemma wr_entry_eq s a h i x x' :
  heap s !! a = Some h -> 0 <= i -> kvs h !! Z.to_nat i = Some x ->
  wr_entry (Tbl a, i) x' s = Ok tt (upd_slots a h (<[Z.to_nat i := x']> (kvs h)) s).
Proof.
  intros H Hi Hx. unfold wr_entry, bind. simpl. rewrite H, Hx.
  destruct (Z.leb_spec 0 i); [|lia]. unfold wr_header. now rewrite H.
Qed.

Lemma getkey_eq s a h i x :
  heap s !! a = Some h -> 0 <= i -> kvs h !! Z.to_nat i = Some x ->
  getkey (Tbl a, i) s = Ok (_key x) s.
Proof. intros. unfold getkey. erewrite bind_ok by (eapply rd_entry_eq; eauto). done. Qed.

Lemma getval_eq s a h i x :
  heap s !! a = Some h -> 0 <= i -> kvs h !! Z.to_nat i = Some x ->
  getval (Tbl a, i) s = Ok (_val x) s.
Proof. intros. unfold getval. erewrite bind_ok by (eapply rd_entry_eq; eauto). done. Qed.

Lemma gethash_eq s a h i x :
  heap s !! a = Some h -> 0 <= i -> kvs h !! Z.to_nat i = Some x -> _hash x <> 0 ->
  gethash (Tbl a, i) s = Ok (_hash x) s.
Proof.
  intros. unfold gethash. erewrite bind_ok by (eapply rd_entry_eq; eauto).
  destruct (Z.eqb_spec (_hash x) 0); done.
Qed.

Lemma ptr_eqb_eq a b : ptr_eqb a b = true <-> a = b.
Proof. unfold ptr_eqb. apply bool_decide_eq_true. Qed.

Lemma ptr_eqb_refl a : ptr_eqb a a = true.
Proof. now apply ptr_eqb_eq. Qed.

Lemma ptr_eqb_ne a b : a <> b -> ptr_eqb a b = false.
Proof. unfold ptr_eqb. apply bool_decide_eq_false. Qed.

Lemma hptr_eqb_refl a : hptr_eqb a a = true.
Proof. unfold hptr_eqb. now apply bool_decide_eq_true. Qed.

Lemma hptr_eqb_ne a b : a <> b -> hptr_eqb a b = false.
Proof. unfold hptr_eqb. apply bool_decide_eq_false. Qed.

Lemma cas_key_won s a h i x nval :
  heap s !! a = Some h -> 0 <= i -> kvs h !! Z.to_nat i = Some x ->
  cas_key (Tbl a, i) nval (_key x) s
  = Ok true (upd_slots a h (<[Z.to_nat i := set_key nval x]> (kvs h)) s).
Proof.
  intros. unfold cas_key. erewrite bind_ok by (eapply rd_entry_eq; eauto).
  rewrite ptr_eqb_refl. erewrite bind_ok by (eapply wr_entry_eq; eauto). done.
Qed.

Lemma cas_val_won s a h i x nval :
  heap s !! a = Some h -> 0 <= i -> kvs h !! Z.to_nat i = Some x ->
  cas_val (Tbl a, i) nval (_val x) s
  = Ok true (upd_slots a h (<[Z.to_nat i := set_val nval x]> (kvs h)) s).
Proof.
  intros. unfold cas_val. erewrite bind_ok by (eapply rd_entry_eq; eauto).
  rewrite ptr_eqb_refl. erewrite bind_ok by (eapply wr_entry_eq; eauto). done.
Qed.

(** ** Walking a probe chain *)

(** How a slot looks to a probe for [key] with [hash]. *)
Definition matches (key : ptr) (hash : Z) (x : entry) : bool :=
  (_hash x =? hash) && equals_func (_key x) key.

Definition claimed (x : entry) : bool :=
  negb (ptr_eqb (_key x) null) && negb (ptr_eqb (_key x) SIZED) && negb (_hash x =? 0).

Definition is_miss (key : ptr) (hash : Z) (x : entry) : bool :=
  claimed x && negb (matches key hash x).

Definition is_hit (key : ptr) (hash : Z) (x : entry) : bool :=
  claimed x && matches key hash x.

Definition is_free (x : entry) : bool := ptr_eqb (_key x) null.

(** The slot the probe meets after [t] reprobes. *)
Definition probed (h : header) (hash : Z) (t : nat) : option entry :=
  kvs h !! Z.to_nat (probe_idx hash (len h) t).

(** The first [d] slots of the chain are claimed by other keys. *)
Definition misses (h : header) (key : ptr) (hash : Z) (d : nat) : bool :=
  forallb (fun t => match probed h hash t with
                    | Some x => is_miss key hash x
                    | None => false
                    end) (seq 0 d).

Lemma misses_spec h key hash d :
  misses h key hash d = true <->
  forall t, (t < d)%nat -> exists x, probed h hash t = Some x /\ is_miss key hash x = true.
Proof.
  unfold misses. rewrite forallb_forall. split.
  - intros H t Ht. specialize (H t). rewrite in_seq in H.
    destruct (probed h hash t) as [x|]; [|discriminate H; lia].
    exists x. split; [done|]. apply H. lia.
  - intros H t Ht. apply in_seq in Ht. destruct (H t) as (x & -> & Hx); [lia|done].
Qed.

Lemma misses_le h key hash d d' :
  (d' <= d)%nat -> misses h key hash d = true -> misses h key hash d' = true.
Proof. rewrite !misses_spec. intros Hle H t Ht. apply H. lia. Qed.

Lemma is_miss_inv key hash x :
  is_miss key hash x = true ->
  _key x <> null /\ _key x <> SIZED /\ _hash x <> 0 /\ matches key hash x = false.
Proof.
  unfold is_miss, claimed. rewrite !andb_true_iff, !negb_true_iff.
  intros [[[H1 H2] H3] H4]. repeat split; try done.
  - intros E. rewrite E in H1. now rewrite ptr_eqb_refl in H1.
  - intros E. rewrite E in H2. now rewrite ptr_eqb_refl in H2.
  - intros E. rewrite E in H3. done.
Qed.

Lemma is_hit_inv key hash x :
  is_hit key hash x = true ->
  _key x <> null /\ _key x <> SIZED /\ _hash x <> 0 /\ matches key hash x = true.
Proof.
  unfold is_hit, claimed. rewrite !andb_true_iff, !negb_true_iff.
  intros [[[H1 H2] H3] H4]. repeat split; try done.
  - intros E. rewrite E in H1. now rewrite ptr_eqb_refl in H1.
  - intros E. rewrite E in H2. now rewrite ptr_eqb_refl in H2.
  - intros E. rewrite E in H3. done.
Qed.

Section Walk.

Variable _resize' : hptr -> M ptr.
Variables (s : mem) (a : nat) (h : header).
Hypothesis Hh : heap s !! a = Some h.
Hypothesis HL : pow2_len (len h).

Lemma putif_probe_miss fuel rz key hash val oldval idx try x :
  0 <= idx < len h -> kvs h !! Z.to_nat idx = Some x -> is_miss key hash x = true ->
  (rz = false -> try + 1 < REPROBE_LIMIT) ->
  putif_probe _resize' (S fuel) rz (Tbl a) key hash val oldval (len h) idx try s
  = putif_probe _resize' fuel rz (Tbl a) key hash val oldval (len h)
      (next_idx idx (len h)) (if rz then try else try + 1) s.
Proof.
  intros Hi Hx Hm Hlim. apply is_miss_inv in Hm as (Hk & Hs & Hz & Hmt).
  cbn [putif_probe].
  erewrite bind_ok by (eapply load_eq; eauto).
  erewrite bind_ok by (eapply getkey_eq; eauto; lia).
  rewrite (ptr_eqb_ne _ _ Hk). unfold c_assert at 1. cbn [negb]. rewrite bind_ret.
  rewrite (ptr_eqb_ne _ _ Hs).
  erewrite bind_ok by (eapply gethash_eq; eauto; lia).
  fold (matches key hash x). rewrite Hmt.
  destruct rz; cbn [negb andb]; [done|].
  destruct (Z.leb_spec REPROBE_LIMIT (try + 1)); [|done].
  specialize (Hlim eq_refl). lia.
Qed.

Lemma putif_probe_walk rz key hash val oldval d :
  forall fuel t0 try,
  (forall t, (t < d)%nat -> exists x,
      probed h hash (t0 + t) = Some x /\ is_miss key hash x = true) ->
  (rz = false -> try + Z.of_nat d < REPROBE_LIMIT) ->
  putif_probe _resize' (d + fuel) rz (Tbl a) key hash val oldval (len h)
    (probe_idx hash (len h) t0) try s
  = putif_probe _resize' fuel rz (Tbl a) key hash val oldval (len h)
      (probe_idx hash (len h) (t0 + d)) (if rz then try else try + Z.of_nat d) s.
Proof.
  induction d as [|d IH]; intros fuel t0 try Hm Hlim.
  - rewrite Nat.add_0_r. destruct rz; [done|]. now rewrite Z.add_0_r.
  - destruct (Hm 0%nat) as (x & Hx & Hmx); [lia|]. rewrite Nat.add_0_r in Hx.
    change (S d + fuel)%nat with (S (d + fuel)).
    erewrite putif_probe_miss; eauto using probe_idx_range.
    + rewrite <- probe_idx_S. rewrite IH.
      * replace (S t0 + d)%nat with (t0 + S d)%nat by lia.
        destruct rz; [done|]. f_equal. lia.
      * intros t Ht. replace (S t0 + t)%nat with (t0 + S t)%nat by lia. apply Hm. lia.
      * intros ->. specialize (Hlim eq_refl). lia.
    + intros ->. specialize (Hlim eq_refl). lia.
Qed.

(** *** Where a probe stops *)

Definition delete_request (val oldval : ptr) : bool :=
  ptr_eqb val null && (ptr_eqb oldval IGNORE || ptr_eqb oldval null).

Definition log_free (k : ptr) (s : mem) : mem :=
  mk_mem (hmap s) (heap s) (k :: freed s).

Lemma set_key_null_id x : _key x = null -> set_key null x = x.
Proof. destruct x. simpl. now intros ->. Qed.

Lemma upd_slots_id l : l = kvs h -> upd_slots a h l s = s.
Proof.
  intros ->. unfold upd_slots. rewrite set_slots_same. now apply upd_heap_same.
Qed.

Lemma putif_probe_free_claim fuel rz key hash val oldval idx try x :
  0 <= idx < len h -> kvs h !! Z.to_nat idx = Some x -> _key x = null ->
  delete_request val oldval = false ->
  putif_probe _resize' (S fuel) rz (Tbl a) key hash val oldval (len h) idx try s
  = Ok (Break (Tbl a, idx) false)
       (upd_slots a h (<[Z.to_nat idx := mk_entry key (_val x) hash]> (kvs h)) s).
Proof.
  intros Hi Hx Hk Hd. cbn [putif_probe].
  erewrite bind_ok by (eapply load_eq; eauto).
  erewrite bind_ok by (eapply getkey_eq; eauto; lia).
  rewrite Hk, ptr_eqb_refl. fold (delete_request val oldval). rewrite Hd.
  rewrite <- Hk at 1.
  erewrite bind_ok by (eapply cas_key_won; eauto; lia).
  assert (Hlt : (Z.to_nat idx < length (kvs h))%nat) by (eapply lookup_lt_Some; eauto).
  cbv iota. rewrite bind_assoc.
  erewrite bind_ok.
  2:{ eapply rd_entry_eq; [eapply heap_upd_eq; eauto|lia|].
      simpl. now apply list_lookup_insert_eq. }
  erewrite bind_ok.
  2:{ eapply wr_entry_eq; [eapply heap_upd_eq; eauto|lia|].
      simpl. now apply list_lookup_insert_eq. }
  unfold upd_slots, set_slots. simpl. rewrite upd_heap_twice.
  now rewrite list_insert_insert_eq.
Qed.

Lemma putif_probe_free_delete fuel key hash val oldval idx try x :
  0 <= idx < len h -> kvs h !! Z.to_nat idx = Some x -> _key x = null ->
  delete_request val oldval = true ->
  putif_probe _resize' (S fuel) false (Tbl a) key hash val oldval (len h) idx try s
  = Ok (Return null) (log_free key s).
Proof.
  intros Hi Hx Hk Hd. cbn [putif_probe].
  erewrite bind_ok by (eapply load_eq; eauto).
  erewrite bind_ok by (eapply getkey_eq; eauto; lia).
  rewrite Hk, ptr_eqb_refl. fold (delete_request val oldval). rewrite Hd.
  erewrite bind_ok by (rewrite <- Hk at 2; eapply cas_key_won; eauto; lia).
  rewrite set_key_null_id by done. rewrite list_insert_id by done.
  rewrite upd_slots_id by done. reflexivity.
Qed.

Lemma putif_probe_free_deleted fuel key hash val oldval idx try x :
  0 <= idx < len h -> kvs h !! Z.to_nat idx = Some x -> _key x = null ->
  delete_request val oldval = true ->
  putif_probe _resize' (S fuel) true (Tbl a) key hash val oldval (len h) idx try s
  = Ok (Return DELETED) s.
Proof.
  intros Hi Hx Hk Hd. cbn [putif_probe].
  erewrite bind_ok by (eapply load_eq; eauto).
  erewrite bind_ok by (eapply getkey_eq; eauto; lia).
  rewrite Hk, ptr_eqb_refl. fold (delete_request val oldval). now rewrite Hd.
Qed.

Lemma putif_probe_sized fuel rz key hash val oldval idx try x :
  0 <= idx < len h -> kvs h !! Z.to_nat idx = Some x -> _key x = SIZED ->
  putif_probe _resize' (S fuel) rz (Tbl a) key hash val oldval (len h) idx try s
  = Ok (Return SIZED) s.
Proof.
  intros Hi Hx Hk. cbn [putif_probe].
  erewrite bind_ok by (eapply load_eq; eauto).
  erewrite bind_ok by (eapply getkey_eq; eauto; lia).
  rewrite Hk. reflexivity.
Qed.

Lemma putif_probe_hit fuel rz key hash val oldval idx try x :
  0 <= idx < len h -> kvs h !! Z.to_nat idx = Some x -> is_hit key hash x = true ->
  putif_probe _resize' (S fuel) rz (Tbl a) key hash val oldval (len h) idx try s
  = Ok (Break (Tbl a, idx) true) s.
Proof.
  intros Hi Hx Hm. apply is_hit_inv in Hm as (Hk & Hs & Hz & Hmt).
  cbn [putif_probe].
  erewrite bind_ok by (eapply load_eq; eauto).
  erewrite bind_ok by (eapply getkey_eq; eauto; lia).
  rewrite (ptr_eqb_ne _ _ Hk). unfold c_assert at 1. cbn [negb]. rewrite bind_ret.
  rewrite (ptr_eqb_ne _ _ Hs).
  erewrite bind_ok by (eapply gethash_eq; eauto; lia).
  fold (matches key hash x). now rewrite Hmt.
Qed.

Lemma putif_probe_limit fuel key hash val oldval idx try x :
  0 <= idx < len h -> kvs h !! Z.to_nat idx = Some x -> is_miss key hash x = true ->
  REPROBE_LIMIT <= try + 1 ->
  putif_probe _resize' (S fuel) false (Tbl a) key hash val oldval (len h) idx try s
  = (let* r := _resize' (Tbl a) in ret (Return r)) s.
Proof.
  intros Hi Hx Hm Hlim. apply is_miss_inv in Hm as (Hk & Hs & Hz & Hmt).
  cbn [putif_probe].
  erewrite bind_ok by (eapply load_eq; eauto).
  erewrite bind_ok by (eapply getkey_eq; eauto; lia).
  rewrite (ptr_eqb_ne _ _ Hk). unfold c_assert at 1. cbn [negb]. rewrite bind_ret.
  rewrite (ptr_eqb_ne _ _ Hs).
  erewrite bind_ok by (eapply gethash_eq; eauto; lia).
  fold (matches key hash x). rewrite Hmt. cbn [negb andb].
  destruct (Z.leb_spec REPROBE_LIMIT (try + 1)); [done|lia].
Qed.

End Walk.

(** *** Updating the value of the slot found *)

(** The size and change counters after a value CAS from [v] to [val]. *)
Definition account (rz : bool) (v val : ptr) (m : HashMap) : HashMap :=
  let m1 := if negb rz && ptr_eqb v null && negb (ptr_eqb val null)
            then set_size (u64 (_size m + 1)) m else m in
  let m2 := if negb rz && negb (ptr_eqb v null) && ptr_eqb val null
            then set_size (u64 (_size m1 + -1)) m1 else m1 in
  if negb rz then set_changes (u32 (changes m2 + 1)) m2 else m2.

Definition with_map (m : HashMap) (s : mem) : mem := mk_mem m (heap s) (freed s).

(** The store after [_putif] won the value CAS on slot [idx], which held
    [x], of the table [h] at [a]. *)
Definition after_cas (rz mustfree : bool) (a : nat) (h : header) (idx : Z) (x : entry)
    (key val : ptr) (s : mem) : mem :=
  let s1 := upd_slots a h (<[Z.to_nat idx := set_val val x]> (kvs h)) s in
  let s2 := with_map (account rz (_val x) val (hmap s)) s1 in
  if mustfree then log_free key s2 else s2.

(** Nothing tells a writer on [kvs] that a resize is under way. *)
Definition no_resize_seen (kvs : hptr) (m : HashMap) : Prop :=
  (_nkvs m = hnull \/ _nkvs m = kvs) /\ _kvs m = kvs.

Lemma no_resize_seen_check kvs m :
  no_resize_seen kvs m ->
  (negb (hptr_eqb (_nkvs m) hnull) && negb (hptr_eqb (_nkvs m) kvs))
  || negb (hptr_eqb (_kvs m) kvs) = false.
Proof.
  intros [[-> | ->] ->]; rewrite !hptr_eqb_refl; simpl; [done|].
  now rewrite andb_false_r.
Qed.

Lemma putif_update_won fuel rz mf s a h idx x key val oldval :
  heap s !! a = Some h -> 0 <= idx -> kvs h !! Z.to_nat idx = Some x ->
  oldval = IGNORE \/ _val x = oldval ->
  putif_update (S fuel) rz (Tbl a, idx) key val oldval mf (_val x) s
  = Ok (_val x) (after_cas rz mf a h idx x key val s).
Proof.
  intros Hh Hi Hx Hold. cbn [putif_update].
  assert (negb (ptr_eqb oldval IGNORE) && negb (ptr_eqb (_val x) oldval) = false) as ->.
  { destruct Hold as [-> | ->]; rewrite ptr_eqb_refl; simpl; [done|].
    now rewrite andb_false_r. }
  erewrite bind_ok by (eapply cas_val_won; eauto).
  cbv iota. unfold after_cas, account, when, _size_update, upd_map, get_map, put_map,
    free_func, with_map, log_free, bind, ret.
  destruct rz, mf, (ptr_eqb (_val x) null), (ptr_eqb val null); reflexivity.
Qed.

Lemma putif_update_lost fuel mf s e key val oldval v :
  oldval <> IGNORE -> v <> oldval ->
  putif_update (S fuel) false e key val oldval mf v s = Ok v s.
Proof.
  intros H1 H2. cbn [putif_update].
  now rewrite (ptr_eqb_ne _ _ H1), (ptr_eqb_ne _ _ H2).
Qed.

Lemma putif_value_won fuel rz mf s a h idx x key val oldval :
  heap s !! a = Some h -> 0 <= idx -> kvs h !! Z.to_nat idx = Some x ->
  _val x <> SIZED ->
  rz = true \/ _val x = null \/ no_resize_seen (Tbl a) (hmap s) ->
  oldval = IGNORE \/ _val x = oldval ->
  putif_value (S fuel) rz (Tbl a) key val oldval (Break (Tbl a, idx) mf) s
  = Ok (_val x) (after_cas rz mf a h idx x key val s).
Proof.
  intros Hh Hi Hx Hs Hst Hold. unfold putif_value.
  erewrite bind_ok by (eapply getval_eq; eauto).
  rewrite (ptr_eqb_ne _ _ Hs). unfold get_map at 1. unfold bind at 1.
  assert (negb rz && negb (ptr_eqb (_val x) null)
          && ((negb (hptr_eqb (_nkvs (hmap s)) hnull)
               && negb (hptr_eqb (_nkvs (hmap s)) (Tbl a)))
              || negb (hptr_eqb (_kvs (hmap s)) (Tbl a))) = false) as ->.
  { destruct Hst as [-> | [-> | Hn]]; [done| |].
    - rewrite ptr_eqb_refl. simpl. now rewrite andb_false_r.
    - rewrite (no_resize_seen_check _ _ Hn). now rewrite andb_false_r. }
  now apply putif_update_won.
Qed.

Lemma putif_value_lost fuel mf s a h idx x key val oldval :
  heap s !! a = Some h -> 0 <= idx -> kvs h !! Z.to_nat idx = Some x ->
  _val x <> SIZED ->
  _val x = null \/ no_resize_seen (Tbl a) (hmap s) ->
  oldval <> IGNORE -> _val x <> oldval ->
  putif_value (S fuel) false (Tbl a) key val oldval (Break (Tbl a, idx) mf) s
  = Ok (_val x) s.
Proof.
  intros Hh Hi Hx Hs Hst H1 H2. unfold putif_value.
  erewrite bind_ok by (eapply getval_eq; eauto).
  rewrite (ptr_eqb_ne _ _ Hs). unfold get_map at 1. unfold bind at 1.
  assert (negb false && negb (ptr_eqb (_val x) null)
          && ((negb (hptr_eqb (_nkvs (hmap s)) hnull)
               && negb (hptr_eqb (_nkvs (hmap s)) (Tbl a)))
              || negb (hptr_eqb (_kvs (hmap s)) (Tbl a))) = false) as ->.
  { destruct Hst as [-> | Hn].
    - now rewrite ptr_eqb_refl.
    - rewrite (no_resize_seen_check _ _ Hn). now rewrite andb_false_r. }
  now apply putif_update_lost.
Qed.

(** *** [_putif] along a chain *)

Section Engine.

Variable _resize' : hptr -> M ptr.
Variables (s : mem) (a : nat) (h : header).
Hypothesis Hh : heap s !! a = Some h.
Hypothesis HL : pow2_len (len h).

Lemma putif_start fuel rz key hash val oldval :
  key <> null -> hash <> 0 ->
  _putif _resize' fuel rz (Tbl a) key hash val oldval s
  = (let* p := putif_probe _resize' fuel rz (Tbl a) key hash val oldval (len h)
                 (probe_idx hash (len h) 0) 0 in
     putif_value fuel rz (Tbl a) key val oldval p) s.
Proof.
  intros Hk Hz. unfold _putif. pose proof (pow2_len_range _ HL).
  erewrite bind_ok by (eapply rd_header_eq; eauto).
  rewrite u32_small by lia. rewrite (ptr_eqb_ne _ _ Hk).
  destruct (Z.eqb_spec hash 0); [done|]. reflexivity.
Qed.

Lemma putif_walk_to fuel rz key hash val oldval d :
  misses h key hash d = true ->
  (rz = false -> Z.of_nat d < REPROBE_LIMIT) ->
  putif_probe _resize' (d + fuel) rz (Tbl a) key hash val oldval (len h)
    (probe_idx hash (len h) 0) 0 s
  = putif_probe _resize' fuel rz (Tbl a) key hash val oldval (len h)
      (probe_idx hash (len h) d) (if rz then 0 else Z.of_nat d) s.
Proof.
  intros Hm Hlim. rewrite misses_spec in Hm.
  erewrite (putif_probe_walk _resize' s a h Hh HL rz key hash val oldval d fuel 0 0); eauto.
Qed.

Lemma putif_at_free fuel rz key hash val oldval d x :
  key <> null -> hash <> 0 ->
  misses h key hash d = true -> probed h hash d = Some x -> _key x = null ->
  (rz = false -> Z.of_nat d < REPROBE_LIMIT) -> (d < fuel)%nat ->
  _putif _resize' fuel rz (Tbl a) key hash val oldval s
  = if delete_request val oldval
    then if rz then Ok DELETED s else Ok null (log_free key s)
    else putif_value fuel rz (Tbl a) key val oldval
           (Break (Tbl a, probe_idx hash (len h) d) false)
           (upd_slots a h
              (<[Z.to_nat (probe_idx hash (len h) d) := mk_entry key (_val x) hash]> (kvs h))
              s).
Proof.
  intros Hk Hz Hm Hx Hf Hlim Hfuel. rewrite putif_start by done.
  replace fuel with (d + S (fuel - d - 1))%nat at 1 by lia.
  unfold bind at 1. rewrite putif_walk_to by done.
  pose proof (probe_idx_range hash (len h) d HL).
  destruct (delete_request val oldval) eqn:Hd.
  - destruct rz.
    + erewrite putif_probe_free_deleted; eauto.
    + erewrite putif_probe_free_delete; eauto.
  - erewrite putif_probe_free_claim; eauto.
Qed.

Lemma putif_at_hit fuel rz key hash val oldval d x :
  key <> null -> hash <> 0 ->
  misses h key hash d = true -> probed h hash d = Some x -> is_hit key hash x = true ->
  (rz = false -> Z.of_nat d < REPROBE_LIMIT) -> (d < fuel)%nat ->
  _putif _resize' fuel rz (Tbl a) key hash val oldval s
  = putif_value fuel rz (Tbl a) key val oldval
      (Break (Tbl a, probe_idx hash (len h) d) true) s.
Proof.
  intros Hk Hz Hm Hx Hf Hlim Hfuel. rewrite putif_start by done.
  replace fuel with (d + S (fuel - d - 1))%nat at 1 by lia.
  unfold bind at 1. rewrite putif_walk_to by done.
  pose proof (probe_idx_range hash (len h) d HL).
  erewrite putif_probe_hit; eauto.
Qed.

Lemma putif_at_sized fuel rz key hash val oldval d x :
  key <> null -> hash <> 0 ->
  misses h key hash d = true -> probed h hash d = Some x -> _key x = SIZED ->
  (rz = false -> Z.of_nat d < REPROBE_LIMIT) -> (d < fuel)%nat ->
  _putif _resize' fuel rz (Tbl a) key hash val oldval s = Ok SIZED s.
Proof.
  intros Hk Hz Hm Hx Hf Hlim Hfuel. rewrite putif_start by done.
  replace fuel with (d + S (fuel - d - 1))%nat at 1 by lia.
  unfold bind at 1. rewrite putif_walk_to by done.
  pose proof (probe_idx_range hash (len h) d HL).
  erewrite putif_probe_sized; eauto.
Qed.

Lemma putif_at_limit fuel key hash val oldval :
  key <> null -> hash <> 0 ->
  misses h key hash (Z.to_nat REPROBE_LIMIT) = true ->
  (Z.to_nat REPROBE_LIMIT <= fuel)%nat ->
  _putif _resize' fuel false (Tbl a) key hash val oldval s = _resize' (Tbl a) s.
Proof.
  intros Hk Hz Hm Hfuel. rewrite putif_start by done.
  change (Z.to_nat REPROBE_LIMIT) with 17%nat in *.
  replace fuel with (16 + S (fuel - 17))%nat at 1 by lia.
  unfold bind at 1.
  rewrite putif_walk_to; [|eapply misses_le; [|exact Hm]; lia|unfold REPROBE_LIMIT; lia].
  pose proof (probe_idx_range hash (len h) 16 HL).
  rewrite misses_spec in Hm. destruct (Hm 16%nat) as (x & Hx & Hmx); [lia|].
  erewrite putif_probe_limit; eauto; [|unfold REPROBE_LIMIT; lia].
  unfold bind. destruct (_resize' (Tbl a) s); reflexivity.
Qed.

(** *** [_get] along a chain *)

Lemma get_probe_miss fuel key hash idx try x :
  0 <= idx < len h -> kvs h !! Z.to_nat idx = Some x -> is_miss key hash x = true ->
  get_probe (S fuel) (Tbl a) key hash (len h) idx try s
  = if len h <=? try + 1 then Ok null s
    else get_probe fuel (Tbl a) key hash (len h) (next_idx idx (len h)) (try + 1) s.
Proof.
  intros Hi Hx Hm. apply is_miss_inv in Hm as (Hk & Hs & Hz & Hmt).
  cbn [get_probe].
  erewrite bind_ok by (eapply load_eq; eauto).
  erewrite bind_ok by (eapply getkey_eq; eauto; lia).
  rewrite (ptr_eqb_ne _ _ Hk), (ptr_eqb_ne _ _ Hs).
  erewrite bind_ok by (eapply gethash_eq; eauto; lia).
  fold (matches key hash x). rewrite Hmt.
  destruct (len h <=? try + 1); reflexivity.
Qed.

Lemma get_probe_walk key hash d :
  forall fuel t0 try,
  (forall t, (t < d)%nat -> exists x,
      probed h hash (t0 + t) = Some x /\ is_miss key hash x = true) ->
  try + Z.of_nat d < len h ->
  get_probe (d + fuel) (Tbl a) key hash (len h) (probe_idx hash (len h) t0) try s
  = get_probe fuel (Tbl a) key hash (len h) (probe_idx hash (len h) (t0 + d))
      (try + Z.of_nat d) s.
Proof.
  induction d as [|d IH]; intros fuel t0 try Hm Hlim.
  - now rewrite Nat.add_0_r, Z.add_0_r.
  - destruct (Hm 0%nat) as (x & Hx & Hmx); [lia|]. rewrite Nat.add_0_r in Hx.
    change (S d + fuel)%nat with (S (d + fuel)).
    erewrite get_probe_miss; eauto using probe_idx_range.
    destruct (Z.leb_spec (len h) (try + 1)); [lia|].
    rewrite <- probe_idx_S. rewrite IH.
    + replace (S t0 + d)%nat with (t0 + S d)%nat by lia. f_equal. lia.
    + intros t Ht. replace (S t0 + t)%nat with (t0 + S t)%nat by lia. apply Hm. lia.
    + lia.
Qed.

Lemma stop_within key hash d x :
  misses h key hash d = true -> probed h hash d = Some x -> is_miss key hash x = false ->
  Z.of_nat d < len h.
Proof.
  intros Hm Hx Hk. pose proof (pow2_len_range _ HL).
  destruct (Z.lt_ge_cases (Z.of_nat d) (len h)) as [|Hge]; [done|]. exfalso.
  rewrite misses_spec in Hm.
  destruct (Hm (d - Z.to_nat (len h))%nat) as (y & Hy & Hmy); [lia|].
  unfold probed in *. rewrite probe_idx_mod in Hx, Hy by done.
  replace ((hash + Z.of_nat (d - Z.to_nat (len h))) mod len h)
    with ((hash + Z.of_nat d) mod len h) in Hy.
  - rewrite Hx in Hy. injection Hy as <-. congruence.
  - replace (hash + Z.of_nat d)
      with (hash + Z.of_nat (d - Z.to_nat (len h)) + 1 * len h) by lia.
    now rewrite Z_mod_plus_full.
Qed.

Lemma free_not_miss key hash x : _key x = null -> is_miss key hash x = false.
Proof. intros Hk. unfold is_miss, claimed. now rewrite Hk. Qed.

Lemma sized_not_miss key hash x : _key x = SIZED -> is_miss key hash x = false.
Proof. intros Hk. unfold is_miss, claimed. now rewrite Hk. Qed.

Lemma hit_not_miss key hash x : is_hit key hash x = true -> is_miss key hash x = false.
Proof.
  unfold is_hit, is_miss. rewrite andb_true_iff. intros [-> ->]. reflexivity.
Qed.

Lemma get_start fuel key hash :
  _get fuel (Tbl a) key hash s
  = get_probe fuel (Tbl a) key hash (len h) (probe_idx hash (len h) 0) 0 s.
Proof.
  unfold _get. pose proof (pow2_len_range _ HL).
  erewrite bind_ok by (eapply rd_header_eq; eauto).
  now rewrite u32_small by lia.
Qed.

Lemma get_walk_to fuel key hash d :
  misses h key hash d = true -> Z.of_nat d < len h ->
  _get (d + fuel) (Tbl a) key hash s
  = get_probe fuel (Tbl a) key hash (len h) (probe_idx hash (len h) d) (Z.of_nat d) s.
Proof.
  intros Hm Hd. rewrite get_start. rewrite misses_spec in Hm.
  rewrite (get_probe_walk key hash d fuel 0 0); auto.
Qed.

Lemma get_at_free fuel key hash d x :
  misses h key hash d = true -> probed h hash d = Some x -> _key x = null ->
  (d < fuel)%nat ->
  _get fuel (Tbl a) key hash s = Ok null s.
Proof.
  intros Hm Hx Hk Hfuel.
  pose proof (probe_idx_range hash (len h) d HL) as Hr.
  assert (Z.of_nat d < len h) by (eapply stop_within; eauto using free_not_miss).
  replace fuel with (d + S (fuel - d - 1))%nat by lia.
  rewrite get_walk_to by done. cbn [get_probe].
  erewrite bind_ok by (eapply load_eq; eauto).
  erewrite bind_ok by (eapply getkey_eq; eauto; lia).
  now rewrite Hk.
Qed.

Lemma get_at_sized fuel key hash d x :
  misses h key hash d = true -> probed h hash d = Some x -> _key x = SIZED ->
  (d < fuel)%nat ->
  _get fuel (Tbl a) key hash s = Ok SIZED s.
Proof.
  intros Hm Hx Hk Hfuel.
  pose proof (probe_idx_range hash (len h) d HL) as Hr.
  assert (Z.of_nat d < len h) by (eapply stop_within; eauto using sized_not_miss).
  replace fuel with (d + S (fuel - d - 1))%nat by lia.
  rewrite get_walk_to by done. cbn [get_probe].
  erewrite bind_ok by (eapply load_eq; eauto).
  erewrite bind_ok by (eapply getkey_eq; eauto; lia).
  now rewrite Hk.
Qed.

Lemma get_at_hit fuel key hash d x :
  misses h key hash d = true -> probed h hash d = Some x -> is_hit key hash x = true ->
  (d < fuel)%nat ->
  _get fuel (Tbl a) key hash s = Ok (_val x) s.
Proof.
  intros Hm Hx Hk Hfuel.
  pose proof (probe_idx_range hash (len h) d HL) as Hr.
  assert (Z.of_nat d < len h) by (eapply stop_within; eauto using hit_not_miss).
  apply is_hit_inv in Hk as (Hk & Hs & Hz & Hmt).
  replace fuel with (d + S (fuel - d - 1))%nat by lia.
  rewrite get_walk_to by done. cbn [get_probe].
  erewrite bind_ok by (eapply load_eq; eauto).
  erewrite bind_ok by (eapply getkey_eq; eauto; lia).
  rewrite (ptr_eqb_ne _ _ Hk), (ptr_eqb_ne _ _ Hs).
  erewrite bind_ok by (eapply gethash_eq; eauto; lia).
  fold (matches key hash x). rewrite Hmt.
  eapply getval_eq; eauto; lia.
Qed.

Lemma get_full_circle fuel key hash :
  misses h key hash (Z.to_nat (len h)) = true ->
  _get fuel (Tbl a) key hash s
  = if (Z.to_nat (len h) <=? fuel)%nat then Ok null s else Spin.
Proof.
  intros Hm. pose proof (pow2_len_range _ HL).
  destruct (Nat.leb_spec (Z.to_nat (len h)) fuel) as [Hf|Hf].
  - replace fuel with ((Z.to_nat (len h) - 1) + S (fuel - Z.to_nat (len h)))%nat by lia.
    rewrite get_walk_to; [|eapply misses_le; [|exact Hm]; lia|lia].
    rewrite misses_spec in Hm.
    destruct (Hm (Z.to_nat (len h) - 1)%nat) as (x & Hx & Hmx); [lia|].
    erewrite get_probe_miss; eauto using probe_idx_range.
    destruct (Z.leb_spec (len h) (Z.of_nat (Z.to_nat (len h) - 1) + 1)); [done|lia].
  - replace fuel with (fuel + 0)%nat by lia.
    rewrite get_walk_to; [done|eapply misses_le; [|exact Hm]; lia|lia].
Qed.

End Engine.

(** ** Well-formed tables *)

(** What the map asks of the caller's [equals] and [hash]. *)
Hypothesis equals_refl : forall k, equals_func k k = true.
Hypothesis equals_sym : forall k k', equals_func k k' = true -> equals_func k' k = true.
Hypothesis equals_trans : forall k k' k'',
  equals_func k k' = true -> equals_func k' k'' = true -> equals_func k k'' = true.
Hypothesis equals_hash : forall k k', equals_func k k' = true -> hash_func k = hash_func k'.

(** Slot [x] is the slot of key [k]. *)
Definition holds (k : ptr) (x : entry) : bool :=
  negb (ptr_eqb (_key x) null) && equals_func (_key x) k.

Definition is_live (x : entry) : bool :=
  negb (ptr_eqb (_key x) null) && negb (ptr_eqb (_val x) null).

Fixpoint count_if (p : entry -> bool) (l : list entry) : Z :=
  match l with
  | [] => 0
  | x :: l => (if p x then 1 else 0) + count_if p l
  end.

(** The value a table maps [k] to: that of the slot of [k], else null. *)
Definition lookup (h : header) (k : ptr) : ptr :=
  match list_find (fun x => holds k x = true) (kvs h) with
  | Some (_, x) => _val x
  | None => null
  end.

Definition wf_entry (x : entry) : Prop :=
  (_key x = null -> x = zero_entry) /\
  (_key x <> null -> _key x <> SIZED /\ _val x <> SIZED /\ _hash x = hash_of (_key x)).

(** A table between two operations: slots well formed, one slot per key,
    and no free slot between the home of a key and its slot. *)
Record tbl_ok (h : header) : Prop := {
  ok_len : pow2_len (len h);
  ok_length : length (kvs h) = Z.to_nat (len h);
  ok_wf : forall i x, kvs h !! i = Some x -> wf_entry x;
  ok_uniq : forall i j x y,
    kvs h !! i = Some x -> kvs h !! j = Some y ->
    _key x <> null -> _key y <> null ->
    equals_func (_key x) (_key y) = true -> i = j;
  ok_chain : forall i x,
    kvs h !! i = Some x -> _key x <> null ->
    exists d, Z.of_nat d < len h /\
      probe_idx (hash_of (_key x)) (len h) d = Z.of_nat i /\
      forall t, (t < d)%nat -> exists y,
        probed h (hash_of (_key x)) t = Some y /\ _key y <> null
}.

(** The map between two public operations: no resize in flight, the
    current table well formed, and [_size] the number of live slots. *)
Definition quiet (s : mem) (a : nat) (h : header) : Prop :=
  _kvs (hmap s) = Tbl a /\ _nkvs (hmap s) = hnull /\
  heap s !! a = Some h /\ tbl_ok h /\ 4 <= len h /\
  _size (hmap s) = count_if is_live (kvs h).

Definition inv (s : mem) : Prop := exists a h, quiet s a h.

Lemma hash_of_nonzero k : hash_of k <> 0.
Proof. unfold hash_of. destruct (Z.eqb_spec (hash_func k) 0); lia. Qed.

Lemma hash_of_equals k k' : equals_func k k' = true -> hash_of k = hash_of k'.
Proof. intros H. unfold hash_of. now rewrite (equals_hash _ _ H). Qed.

Lemma holds_inv k x : holds k x = true -> _key x <> null /\ equals_func (_key x) k = true.
Proof.
  unfold holds. rewrite andb_true_iff, negb_true_iff. intros [H1 H2]. split; [|done].
  intros E. rewrite E in H1. now rewrite ptr_eqb_refl in H1.
Qed.

Lemma holds_intro k x : _key x <> null -> equals_func (_key x) k = true -> holds k x = true.
Proof. intros H1 H2. unfold holds. now rewrite (ptr_eqb_ne _ _ H1), H2. Qed.

Lemma wf_claimed x : wf_entry x -> _key x <> null -> claimed x = true.
Proof.
  intros [_ Hw] Hk. destruct (Hw Hk) as (Hs & _ & Hh).
  unfold claimed. rewrite (ptr_eqb_ne _ _ Hk), (ptr_eqb_ne _ _ Hs), Hh.
  destruct (Z.eqb_spec (hash_of (_key x)) 0) as [E|]; [|done].
  now apply hash_of_nonzero in E.
Qed.

Lemma wf_matches k x :
  wf_entry x -> _key x <> null ->
  matches k (hash_of k) x = equals_func (_key x) k.
Proof.
  intros [_ Hw] Hk. destruct (Hw Hk) as (_ & _ & Hh). unfold matches. rewrite Hh.
  destruct (equals_func (_key x) k) eqn:E.
  - rewrite (hash_of_equals _ _ E), Z.eqb_refl. reflexivity.
  - apply andb_false_r.
Qed.

Lemma wf_hit k x : wf_entry x -> holds k x = true -> is_hit k (hash_of k) x = true.
Proof.
  intros Hw Hx. apply holds_inv in Hx as [Hk He]. unfold is_hit.
  now rewrite wf_claimed, wf_matches, He.
Qed.

Lemma wf_miss k x :
  wf_entry x -> _key x <> null -> holds k x = false -> is_miss k (hash_of k) x = true.
Proof.
  intros Hw Hk Hx. unfold is_miss. rewrite wf_claimed, wf_matches by done.
  unfold holds in Hx. rewrite (ptr_eqb_ne _ _ Hk) in Hx. simpl in Hx. now rewrite Hx.
Qed.

Lemma probe_idx_inj hash L t t' :
  pow2_len L -> Z.of_nat t < L -> Z.of_nat t' < L ->
  probe_idx hash L t = probe_idx hash L t' -> t = t'.
Proof.
  intros HL Ht Ht'. rewrite !probe_idx_mod by done. intros E.
  pose proof (pow2_len_range _ HL).
  assert (Hd : forall u v, 0 <= u <= v -> v < L ->
               (hash + u) mod L = (hash + v) mod L -> u = v).
  { intros u v Hu Hv Euv.
    assert ((v - u) mod L = 0) as Hz.
    { replace (v - u) with ((hash + v) - (hash + u)) by lia.
      rewrite Zminus_mod, Euv, Z.sub_diag. apply Z.mod_0_l. lia. }
    rewrite Z.mod_small in Hz by lia. lia. }
  destruct (Z.le_ge_cases (Z.of_nat t) (Z.of_nat t')).
  - apply Nat2Z.inj, Hd; [lia|lia|done].
  - symmetry. apply Nat2Z.inj, Hd; [lia|lia|done].
Qed.

Lemma probed_some h hash t :
  pow2_len (len h) -> length (kvs h) = Z.to_nat (len h) ->
  exists x, probed h hash t = Some x.
Proof.
  intros HL Hlen. pose proof (probe_idx_range hash (len h) t HL).
  unfold probed. apply lookup_lt_is_Some. lia.
Qed.

Lemma slot_is_probed h hash i (x : entry) :
  pow2_len (len h) -> kvs h !! i = Some x -> length (kvs h) = Z.to_nat (len h) ->
  exists d, Z.of_nat d < len h /\ probe_idx hash (len h) d = Z.of_nat i.
Proof.
  intros HL Hx Hlen. pose proof (pow2_len_range _ HL).
  apply lookup_lt_Some in Hx.
  exists (Z.to_nat ((Z.of_nat i - hash) mod len h)).
  pose proof (Z.mod_pos_bound (Z.of_nat i - hash) (len h)).
  split; [lia|]. rewrite probe_idx_mod by done. rewrite Z2Nat.id by lia.
  rewrite Zplus_mod_idemp_r. replace (hash + (Z.of_nat i - hash)) with (Z.of_nat i) by lia.
  apply Z.mod_small. lia.
Qed.

Section Tables.

Variable h : header.
Hypothesis Hok : tbl_ok h.

(** The slot of [k], when it has one, ends a chain of misses. *)
Lemma chain_to_slot k i x :
  kvs h !! i = Some x -> holds k x = true ->
  exists d, Z.of_nat d < len h /\ probe_idx (hash_of k) (len h) d = Z.of_nat i /\
    probed h (hash_of k) d = Some x /\
    misses h k (hash_of k) d = true /\ is_hit k (hash_of k) x = true.
Proof.
  intros Hx Hk. pose proof (holds_inv _ _ Hk) as [Hn He].
  destruct (ok_chain h Hok i x Hx Hn) as (d & Hd & Hi & Hc).
  rewrite (hash_of_equals _ _ He) in Hi, Hc.
  exists d. repeat split; try done.
  - unfold probed. now rewrite Hi, Nat2Z.id.
  - apply misses_spec. intros t Ht. destruct (Hc t Ht) as (y & Hy & Hyn).
    exists y. split; [done|]. apply wf_miss; [eapply ok_wf; eauto|done|].
    destruct (holds k y) eqn:Hky; [|done]. exfalso.
    apply holds_inv in Hky as [_ Hey].
    assert (equals_func (_key y) (_key x) = true) as Hyx by eauto.
    unfold probed in Hy.
    pose proof (ok_uniq h Hok _ _ _ _ Hy Hx Hyn Hn Hyx) as Hij.
    assert (probe_idx (hash_of k) (len h) t = probe_idx (hash_of k) (len h) d).
    { pose proof (probe_idx_range (hash_of k) (len h) t (ok_len h Hok)). lia. }
    apply probe_idx_inj in H; [lia|apply Hok|lia|lia].
  - apply wf_hit; [eapply ok_wf; eauto|done].
Qed.

(** Without a slot of [k], a chain meets misses until a free slot. *)
Lemma chain_to_free k n :
  (forall i x, kvs h !! i = Some x -> holds k x = false) ->
  misses h k (hash_of k) n = true \/
  exists d x, (d < n)%nat /\ misses h k (hash_of k) d = true /\
    probed h (hash_of k) d = Some x /\ _key x = null.
Proof.
  intros Habs. induction n as [|n IH].
  - left. reflexivity.
  - destruct IH as [Hm | (d & x & Hd & Hm & Hx & Hk)].
    + destruct (probed_some h (hash_of k) n (ok_len h Hok) (ok_length h Hok)) as [x Hx].
      destruct (decide (_key x = null)) as [Hk|Hk].
      * right. exists n, x. repeat split; try done. lia.
      * left. apply misses_spec. intros t Ht.
        destruct (decide (t = n)) as [->|Hne].
        -- exists x. split; [done|]. apply wf_miss; [eapply ok_wf; eauto|done|].
           eapply Habs. apply Hx.
        -- rewrite misses_spec in Hm. apply Hm. lia.
    + right. exists d, x. repeat split; try done. lia.
Qed.

Lemma holds_dec k :
  (exists i x, kvs h !! i = Some x /\ holds k x = true) \/
  (forall i x, kvs h !! i = Some x -> holds k x = false).
Proof.
  destruct (list_find (fun x => holds k x = true) (kvs h)) as [[i x]|] eqn:E.
  - apply list_find_Some in E as (Hx & Hk & _). left. eauto.
  - right. intros i x Hx. rewrite list_find_None in E.
    apply not_true_is_false. eapply Forall_lookup_1 in E; eauto.
Qed.

Lemma lookup_holds k i x :
  kvs h !! i = Some x -> holds k x = true -> lookup h k = _val x.
Proof.
  intros Hx Hk. unfold lookup.
  destruct (list_find (fun x => holds k x = true) (kvs h)) as [[j y]|] eqn:E.
  - apply list_find_Some in E as (Hy & Hky & _).
    apply holds_inv in Hk as [Hn He]. apply holds_inv in Hky as [Hyn Hye].
    assert (j = i) as -> by (eapply (ok_uniq h Hok); eauto).
    congruence.
  - rewrite list_find_None in E. exfalso.
    eapply Forall_lookup_1 in E; eauto.
Qed.

Lemma lookup_absent k :
  (forall i x, kvs h !! i = Some x -> holds k x = false) -> lookup h k = null.
Proof.
  intros Habs. unfold lookup.
  destruct (list_find (fun x => holds k x = true) (kvs h)) as [[j y]|] eqn:E; [|done].
  apply list_find_Some in E as (Hy & Hky & _). rewrite (Habs _ _ Hy) in Hky. done.
Qed.

Lemma lookup_not_sized k : lookup h k <> SIZED.
Proof.
  destruct (holds_dec k) as [(i & x & Hx & Hk)|Habs].
  - rewrite (lookup_holds k i x Hx Hk). apply holds_inv in Hk as [Hn _].
    destruct (ok_wf h Hok i x Hx) as [_ Hw]. now destruct (Hw Hn) as (_ & ? & _).
  - now rewrite lookup_absent.
Qed.

(** [_get] computes [lookup]. *)
Lemma get_lookup s a fuel k :
  heap s !! a = Some h -> (Z.to_nat (len h) <= fuel)%nat ->
  _get fuel (Tbl a) k (hash_of k) s = Ok (lookup h k) s.
Proof.
  intros Hh Hf. pose proof (ok_len h Hok) as HL.
  destruct (holds_dec k) as [(i & x & Hx & Hk)|Habs].
  - destruct (chain_to_slot k i x Hx Hk) as (d & Hd & _ & Hp & Hm & Hhit).
    rewrite (lookup_holds k i x Hx Hk).
    eapply get_at_hit; eauto. lia.
  - rewrite lookup_absent by done.
    destruct (chain_to_free k (Z.to_nat (len h)) Habs) as [Hm|(d & x & Hd & Hm & Hx & Hk)].
    + rewrite (get_full_circle s a h Hh HL fuel k (hash_of k) Hm).
      destruct (Nat.leb_spec (Z.to_nat (len h)) fuel); [done|lia].
    + eapply get_at_free; eauto. lia.
Qed.

End Tables.

(** *** Writing one slot *)

Definition put_slot (h : header) (i : nat) (y : entry) : header :=
  set_slots (<[i := y]> (kvs h)) h.

Lemma count_if_insert p (l : list entry) i x y :
  l !! i = Some x ->
  count_if p (<[i := y]> l)
  = count_if p l - (if p x then 1 else 0) + (if p y then 1 else 0).
Proof.
  revert i. induction l as [|z l IH]; intros [|i] Hx; try done; simpl in *.
  - injection Hx as ->. lia.
  - change (list_insert i y l) with (<[i := y]> l).
    rewrite (IH i Hx). lia.
Qed.

Lemma count_if_bounds p (l : list entry) : 0 <= count_if p l <= Z.of_nat (length l).
Proof. induction l as [|x l IH]; simpl; [lia|]. destruct (p x); lia. Qed.

Lemma put_slot_lookup_eq h i x y :
  kvs h !! i = Some x -> kvs (put_slot h i y) !! i = Some y.
Proof. intros Hx. simpl. apply list_lookup_insert_eq. eapply lookup_lt_Some, Hx. Qed.

Lemma put_slot_lookup_ne h i j y : i <> j -> kvs (put_slot h i y) !! j = kvs h !! j.
Proof. intros Hne. simpl. now apply list_lookup_insert_ne. Qed.

Lemma put_slot_lookup h i j x y z :
  kvs h !! i = Some x -> kvs (put_slot h i y) !! j = Some z ->
  (j = i /\ z = y) \/ (j <> i /\ kvs h !! j = Some z).
Proof.
  intros Hx Hz. destruct (decide (j = i)) as [->|Hne].
  - rewrite (put_slot_lookup_eq h i x y Hx) in Hz. left. split; congruence.
  - rewrite put_slot_lookup_ne in Hz by done. now right.
Qed.

Lemma put_slot_probed h hash i t x y :
  kvs h !! i = Some x ->
  probed (put_slot h i y) hash t
  = if decide (Z.to_nat (probe_idx hash (len h) t) = i) then Some y else probed h hash t.
Proof.
  intros Hx. unfold probed. simpl len. destruct (decide _) as [->|Hne].
  - now apply (put_slot_lookup_eq h _ x y).
  - apply put_slot_lookup_ne. congruence.
Qed.

(** Changing the value of a claimed slot keeps the table well formed. *)
Lemma tbl_ok_set_val h i x v :
  tbl_ok h -> kvs h !! i = Some x -> _key x <> null -> v <> SIZED ->
  tbl_ok (put_slot h i (set_val v x)).
Proof.
  intros Hok Hx Hk Hv. split.
  - apply Hok.
  - simpl. rewrite length_insert. apply Hok.
  - intros j z Hz. destruct (put_slot_lookup _ _ _ _ _ _ Hx Hz) as [[-> ->]|[Hne Hz']].
    + destruct (ok_wf h Hok i x Hx) as [_ Hw]. destruct (Hw Hk) as (? & ? & ?).
      split; simpl; done.
    + eapply ok_wf; eauto.
  - intros j1 j2 z1 z2 Hz1 Hz2 Hn1 Hn2 He.
    destruct (put_slot_lookup _ _ _ _ _ _ Hx Hz1) as [[-> ->]|[Hne1 Hz1']];
    destruct (put_slot_lookup _ _ _ _ _ _ Hx Hz2) as [[-> ->]|[Hne2 Hz2']]; try done.
    + eapply (ok_uniq h Hok); eauto.
    + eapply (ok_uniq h Hok); eauto.
    + eapply (ok_uniq h Hok); eauto.
  - intros j z Hz Hn.
    assert (exists z', kvs h !! j = Some z' /\ _key z' = _key z) as (z' & Hz' & Hkz).
    { destruct (put_slot_lookup _ _ _ _ _ _ Hx Hz) as [[-> ->]|[Hne Hz']]; eauto. }
    rewrite <- Hkz in *.
    destruct (ok_chain h Hok j z' Hz' Hn) as (d & Hd & Hi & Hc).
    exists d. repeat split; try done.
    intros t Ht. destruct (Hc t Ht) as (y & Hy & Hyn).
    rewrite (put_slot_probed _ _ _ _ x) by done. destruct (decide _); eauto.
Qed.

(** Claiming the free slot at the end of a chain of misses, for a key
    that has no slot yet, keeps the table well formed. *)
Lemma tbl_ok_claim h key d x :
  tbl_ok h -> key <> null -> key <> SIZED ->
  (forall i y, kvs h !! i = Some y -> holds key y = false) ->
  misses h key (hash_of key) d = true ->
  probed h (hash_of key) d = Some x -> _key x = null ->
  tbl_ok (put_slot h (Z.to_nat (probe_idx (hash_of key) (len h) d))
            (mk_entry key null (hash_of key))).
Proof.
  intros Hok Hk Hs Habs Hm Hx Hf.
  set (i := Z.to_nat (probe_idx (hash_of key) (len h) d)).
  pose proof (ok_len h Hok) as HL.
  assert (Hd : Z.of_nat d < len h).
  { eapply stop_within; eauto using free_not_miss. }
  assert (Hxi : kvs h !! i = Some x) by exact Hx.
  split.
  - apply Hok.
  - simpl. rewrite length_insert. apply Hok.
  - intros j z Hz. destruct (put_slot_lookup _ _ _ _ _ _ Hxi Hz) as [[-> ->]|[Hne Hz']].
    + split; simpl; done.
    + eapply ok_wf; eauto.
  - intros j1 j2 z1 z2 Hz1 Hz2 Hn1 Hn2 He.
    destruct (put_slot_lookup _ _ _ _ _ _ Hxi Hz1) as [[-> ->]|[Hne1 Hz1']];
    destruct (put_slot_lookup _ _ _ _ _ _ Hxi Hz2) as [[-> ->]|[Hne2 Hz2']]; try done.
    + simpl in He. apply equals_sym in He.
      pose proof (Habs _ _ Hz2') as Hc. rewrite holds_intro in Hc by done. done.
    + simpl in He.
      pose proof (Habs _ _ Hz1') as Hc. rewrite holds_intro in Hc by done. done.
    + eapply (ok_uniq h Hok); eauto.
  - intros j z Hz Hn.
    destruct (put_slot_lookup _ _ _ _ _ _ Hxi Hz) as [[-> ->]|[Hne Hz']].
    + exists d. simpl _key. repeat split; try done.
      * subst i. pose proof (probe_idx_range (hash_of key) (len h) d HL). simpl len. lia.
      * intros t Ht. rewrite (put_slot_probed _ _ _ _ x) by done.
        destruct (decide _); [eauto|].
        rewrite misses_spec in Hm. destruct (Hm t Ht) as (y & Hy & Hmy).
        exists y. split; [done|]. now apply is_miss_inv in Hmy.
    + destruct (ok_chain h Hok j z Hz' Hn) as (d' & Hd' & Hi & Hc).
      exists d'. repeat split; try done.
      intros t Ht. destruct (Hc t Ht) as (y & Hy & Hyn).
      rewrite (put_slot_probed _ _ _ _ x) by done. destruct (decide _); eauto.
Qed.

Lemma lookup_put_slot h i x y k :
  tbl_ok h -> tbl_ok (put_slot h i y) -> kvs h !! i = Some x ->
  lookup (put_slot h i y) k
  = if holds k y then _val y else if holds k x then null else lookup h k.
Proof.
  intros Hok Hok' Hx.
  pose proof (put_slot_lookup_eq h i x y Hx) as Hy.
  destruct (holds k y) eqn:Hky.
  - eapply lookup_holds; eauto.
  - destruct (holds_dec h k) as [(j & z & Hz & Hkz)|Habs].
    + destruct (decide (j = i)) as [->|Hne].
      * assert (z = x) as -> by congruence. rewrite Hkz.
        apply lookup_absent. intros j' z' Hz'.
        destruct (put_slot_lookup _ _ _ _ _ _ Hx Hz') as [[-> ->]|[Hne Hz'']]; [done|].
        destruct (holds k z') eqn:E; [|done]. exfalso.
        apply holds_inv in Hkz as [? ?]. apply holds_inv in E as [? ?].
        apply Hne. eapply (ok_uniq h Hok); eauto.
      * assert (holds k x = false) as ->.
        { destruct (holds k x) eqn:E; [|done]. exfalso.
          apply holds_inv in Hkz as [? ?]. apply holds_inv in E as [? ?].
          apply Hne. eapply (ok_uniq h Hok); eauto. }
        rewrite (lookup_holds h Hok k j z Hz Hkz).
        apply (lookup_holds (put_slot h i y) Hok' k j z); [|done].
        rewrite put_slot_lookup_ne by congruence. done.
    + rewrite (Habs _ _ Hx). rewrite (lookup_absent h k Habs).
      apply lookup_absent. intros j' z' Hz'.
      destruct (put_slot_lookup _ _ _ _ _ _ Hx Hz') as [[-> ->]|[Hne Hz'']]; eauto.
Qed.

(** *** One call of [_putif] on a quiet map *)

Definition cas_ok (oldval r : ptr) : bool := ptr_eqb oldval IGNORE || ptr_eqb r oldval.

Lemma cas_ok_true oldval r : cas_ok oldval r = true <-> oldval = IGNORE \/ r = oldval.
Proof. unfold cas_ok. rewrite orb_true_iff, !ptr_eqb_eq. tauto. Qed.

Lemma cas_ok_false oldval r : cas_ok oldval r = false <-> oldval <> IGNORE /\ r <> oldval.
Proof.
  rewrite <- not_true_iff_false, cas_ok_true. split; [|tauto].
  intros H. split; intros E; apply H; tauto.
Qed.

Lemma holds_equals k k' x : holds k x = true -> holds k' x = equals_func k k'.
Proof.
  intros Hk. apply holds_inv in Hk as [Hn He]. unfold holds.
  rewrite (ptr_eqb_ne _ _ Hn). simpl.
  destruct (equals_func k k') eqn:E.
  - eauto.
  - destruct (equals_func (_key x) k') eqn:E'; [|done].
    rewrite <- E. symmetry. eauto.
Qed.

Lemma lookup_equals h k k' : tbl_ok h -> equals_func k k' = true -> lookup h k' = lookup h k.
Proof.
  intros Hok He. destruct (holds_dec h k) as [(i & x & Hx & Hk)|Habs].
  - rewrite (lookup_holds h Hok k i x Hx Hk). eapply lookup_holds; eauto.
    now rewrite (holds_equals k k' x Hk).
  - rewrite (lookup_absent h k Habs). apply lookup_absent. intros i x Hx.
    destruct (holds k' x) eqn:E; [|done].
    rewrite <- (Habs i x Hx). symmetry. rewrite (holds_equals k' k x E). eauto.
Qed.

Lemma is_live_set_val x v :
  _key x <> null -> is_live (set_val v x) = negb (ptr_eqb v null).
Proof. intros Hk. unfold is_live. simpl. now rewrite (ptr_eqb_ne _ _ Hk). Qed.

Lemma is_live_val x : _key x <> null -> is_live x = negb (ptr_eqb (_val x) null).
Proof. intros Hk. unfold is_live. now rewrite (ptr_eqb_ne _ _ Hk). Qed.

Lemma quiet_after_cas s a h mf idx x key val :
  quiet s a h -> 0 <= idx -> kvs h !! Z.to_nat idx = Some x -> _key x <> null ->
  val <> SIZED ->
  quiet (after_cas false mf a h idx x key val s) a (put_slot h (Z.to_nat idx) (set_val val x)).
Proof.
  intros (Hk & Hn & Hh & Hok & H4 & Hsz) Hi Hx Hkx Hv.
  assert (Hsz' : _size (account false (_val x) val (hmap s))
                 = count_if is_live (<[Z.to_nat idx := set_val val x]> (kvs h))).
  { rewrite (count_if_insert _ _ _ x) by done.
    rewrite is_live_set_val, is_live_val by done.
    pose proof (count_if_bounds is_live (kvs h)) as Hb.
    pose proof (count_if_insert is_live (kvs h) _ x (set_val val x) Hx) as Hc.
    pose proof (count_if_bounds is_live (<[Z.to_nat idx := set_val val x]> (kvs h))) as Hb'.
    rewrite length_insert in Hb'. rewrite Hc in Hb'.
    rewrite is_live_set_val, is_live_val in Hb' by done.
    pose proof (ok_length h Hok). pose proof (pow2_len_range _ (ok_len h Hok)).
    unfold account. rewrite Hsz.
    destruct (ptr_eqb (_val x) null), (ptr_eqb val null); simpl in *;
      rewrite ?u64_small; lia. }
  assert (Hm : _kvs (account false (_val x) val (hmap s)) = _kvs (hmap s)
               /\ _nkvs (account false (_val x) val (hmap s)) = _nkvs (hmap s)).
  { unfold account. destruct (ptr_eqb (_val x) null), (ptr_eqb val null); done. }
  destruct Hm as [Hm1 Hm2].
  assert (Hp : hmap (after_cas false mf a h idx x key val s)
               = account false (_val x) val (hmap s)
               /\ heap (after_cas false mf a h idx x key val s)
                 = <[a := put_slot h (Z.to_nat idx) (set_val val x)]> (heap s)).
  { unfold after_cas. destruct mf; done. }
  destruct Hp as [Hp1 Hp2]. unfold quiet. rewrite Hp1, Hp2, Hm1, Hm2.
  split; [done|]. split; [done|]. split.
  { apply list_lookup_insert_eq. eapply lookup_lt_Some; eauto. }
  split; [now apply tbl_ok_set_val|]. split; [done|]. exact Hsz'.
Qed.

Lemma quiet_claim s a h key d x :
  quiet s a h -> key <> null -> key <> SIZED ->
  (forall i y, kvs h !! i = Some y -> holds key y = false) ->
  misses h key (hash_of key) d = true ->
  probed h (hash_of key) d = Some x -> _key x = null ->
  let i := Z.to_nat (probe_idx (hash_of key) (len h) d) in
  quiet (upd_slots a h (<[i := mk_entry key null (hash_of key)]> (kvs h)) s) a
        (put_slot h i (mk_entry key null (hash_of key))).
Proof.
  intros (Hk & Hn & Hh & Hok & H4 & Hsz) Hkn Hks Habs Hm Hx Hf i.
  unfold quiet. simpl.
  split; [done|]. split; [done|]. split.
  { apply list_lookup_insert_eq. eapply lookup_lt_Some; eauto. }
  split; [now apply tbl_ok_claim with (x := x)|]. split; [done|].
  rewrite (count_if_insert _ _ _ x) by exact Hx.
  assert (is_live x = false) as -> by (unfold is_live; now rewrite Hf).
  assert (is_live (mk_entry key null (hash_of key)) = false) as ->.
  { unfold is_live. simpl. apply andb_false_r. }
  lia.
Qed.

(** What one call that does not resize leaves behind: the map is quiet
    again on a table of the same length, which maps the key to the new
    value when the constraint held and is otherwise as before. *)
(** What a value CAS from [r] to [val] adds to the number of live keys. *)
Definition size_delta (val oldval r : ptr) : Z :=
  if cas_ok oldval r
  then (if ptr_eqb val null then 0 else 1) - (if ptr_eqb r null then 0 else 1)
  else 0.

Definition round_post (a : nat) (h : header) (k val oldval : ptr)
    (s' : mem) (h' : header) : Prop :=
  quiet s' a h' /\ len h' = len h /\
  (forall k', lookup h' k'
              = if equals_func k k' && cas_ok oldval (lookup h k) then val else lookup h k') /\
  count_if is_live (kvs h')
  = count_if is_live (kvs h) + size_delta val oldval (lookup h k).

Lemma wf_free_zero h i x : tbl_ok h -> kvs h !! i = Some x -> _key x = null -> x = zero_entry.
Proof. intros Hok Hx Hk. destruct (ok_wf h Hok i x Hx) as [Hz _]. auto. Qed.

Lemma put_round _resize' s a h fuel k val oldval :
  quiet s a h -> k <> null -> k <> SIZED -> val <> SIZED -> (18 <= fuel)%nat ->
  (misses h k (hash_of k) (Z.to_nat REPROBE_LIMIT) = true /\
   _putif _resize' fuel false (Tbl a) k (hash_of k) val oldval s = _resize' (Tbl a) s)
  \/ exists s' h',
       _putif _resize' fuel false (Tbl a) k (hash_of k) val oldval s = Ok (lookup h k) s'
       /\ round_post a h k val oldval s' h'.
Proof.
  intros Hq Hkn Hks Hv Hfuel. unfold round_post.
  pose proof Hq as (Hk & Hn & Hh & Hok & H4 & Hsz).
  pose proof (ok_len h Hok) as HL. pose proof (hash_of_nonzero k) as Hz.
  assert (Hnr : no_resize_seen (Tbl a) (hmap s)) by (split; auto).
  destruct (holds_dec h k) as [(i & x & Hx & Hkx)|Habs].
  - (* the key has a slot *)
    destruct (chain_to_slot h Hok k i x Hx Hkx) as (d & Hd & Hi & Hp & Hm & Hhit).
    rewrite (lookup_holds h Hok k i x Hx Hkx).
    pose proof (holds_inv _ _ Hkx) as [Hxn Hxe].
    destruct (ok_wf h Hok i x Hx) as [_ Hw]. destruct (Hw Hxn) as (_ & Hxs & _).
    destruct (Nat.lt_ge_cases d 17) as [Hlt|Hge].
    + right.
      rewrite (putif_at_hit _resize' s a h Hh HL fuel false k (hash_of k) val oldval d x);
        try done; [|unfold REPROBE_LIMIT; lia|lia].
      assert (Hxi : kvs h !! Z.to_nat (probe_idx (hash_of k) (len h) d) = Some x).
      { now rewrite Hi, Nat2Z.id. }
      destruct fuel as [|fuel]; [lia|].
      destruct (cas_ok oldval (_val x)) eqn:Hc.
      * apply cas_ok_true in Hc.
        exists (after_cas false true a h (probe_idx (hash_of k) (len h) d) x k val s),
               (put_slot h (Z.to_nat (probe_idx (hash_of k) (len h) d)) (set_val val x)).
        split; [apply putif_value_won; auto; lia|].
        split; [apply quiet_after_cas; auto; lia|]. split; [done|]. split.
        { intros k'. rewrite (lookup_put_slot h _ x) by (auto using tbl_ok_set_val).
          change (holds k' (set_val val x)) with (holds k' x).
          rewrite (holds_equals k k' x Hkx). rewrite andb_true_r.
          now destruct (equals_func k k'). }
        cbn [put_slot set_slots kvs]. rewrite (count_if_insert _ _ _ x) by done.
        rewrite is_live_set_val, is_live_val by done. unfold size_delta.
        rewrite (proj2 (cas_ok_true _ _) Hc).
        destruct (ptr_eqb (_val x) null), (ptr_eqb val null); simpl; lia.
      * apply cas_ok_false in Hc as [Hc1 Hc2].
        exists s, h. split; [eapply putif_value_lost; eauto; lia|].
        split; [done|]. split; [done|]. split; [intros k'; now rewrite andb_false_r|].
        unfold size_delta. rewrite (proj2 (cas_ok_false _ _) (conj Hc1 Hc2)). lia.
    + left. assert (Hm17 : misses h k (hash_of k) 17 = true).
      { eapply misses_le; [|exact Hm]. lia. }
      split; [exact Hm17|]. apply (putif_at_limit _resize' s a h Hh HL); auto.
      change (Z.to_nat REPROBE_LIMIT) with 17%nat. lia.
  - (* the key has no slot *)
    rewrite (lookup_absent h k Habs).
    destruct (chain_to_free h Hok k 17 Habs) as [Hm|(d & x & Hd & Hm & Hx & Hf)].
    + left. split; [exact Hm|]. apply (putif_at_limit _resize' s a h Hh HL); auto.
      change (Z.to_nat REPROBE_LIMIT) with 17%nat. lia.
    + right.
      rewrite (putif_at_free _resize' s a h Hh HL fuel false k (hash_of k) val oldval d x);
        try done; [|unfold REPROBE_LIMIT; lia|lia].
      assert (x = zero_entry) as -> by (eapply wf_free_zero; eauto).
      simpl _val.
      set (idx := probe_idx (hash_of k) (len h) d) in *.
      set (x1 := mk_entry k null (hash_of k)).
      set (h1 := put_slot h (Z.to_nat idx) x1).
      set (s1 := upd_slots a h (<[Z.to_nat idx := x1]> (kvs h)) s).
      assert (Hq1 : quiet s1 a h1) by (eapply quiet_claim; eauto).
      pose proof Hq1 as (Hk1 & Hn1 & Hh1 & Hok1 & _).
      assert (Hx1 : kvs h1 !! Z.to_nat idx = Some x1).
      { eapply put_slot_lookup_eq. exact Hx. }
      assert (Hidx : 0 <= idx) by (pose proof (probe_idx_range (hash_of k) (len h) d HL); lia).
      assert (Hl1 : forall k', lookup h1 k' = lookup h k').
      { intros k'. unfold h1. rewrite (lookup_put_slot h _ zero_entry) by auto.
        change (holds k' zero_entry) with false.
        destruct (holds k' x1) eqn:E; [|done]. simpl.
        apply holds_inv in E as [_ E]. simpl in E.
        rewrite (lookup_equals h k k' Hok E). now rewrite lookup_absent. }
      destruct (delete_request val oldval) eqn:Hdr.
      * exists (log_free k s), h. split; [done|]. split; [done|]. split; [done|].
        unfold delete_request in Hdr. apply andb_true_iff in Hdr as [Hv0 _].
        apply ptr_eqb_eq in Hv0 as ->. split.
        { intros k'.
          destruct (equals_func k k' && cas_ok oldval null) eqn:E; [|done].
          apply andb_true_iff in E as [E _].
          rewrite (lookup_equals h k k' Hok E). now rewrite lookup_absent. }
        unfold size_delta. rewrite ptr_eqb_refl. destruct (cas_ok oldval null); lia.
      * destruct fuel as [|fuel]; [lia|].
        destruct (cas_ok oldval null) eqn:Hc.
        -- apply cas_ok_true in Hc.
           exists (after_cas false false a h1 idx x1 k val s1),
                  (put_slot h1 (Z.to_nat idx) (set_val val x1)).
           split; [apply (putif_value_won fuel false false s1 a h1 idx x1); auto|].
           split; [apply quiet_after_cas; auto; done|]. split; [done|]. split.
           { intros k'.
             rewrite (lookup_put_slot h1 _ x1) by (auto using tbl_ok_set_val; done).
             change (holds k' (set_val val x1)) with (holds k' x1).
             rewrite Hl1. rewrite andb_true_r.
             unfold holds. simpl. rewrite (ptr_eqb_ne _ _ Hkn). simpl.
             now destruct (equals_func k k'). }
           cbn [put_slot set_slots kvs h1].
           rewrite (count_if_insert _ _ _ x1) by exact Hx1.
           rewrite (count_if_insert _ _ _ zero_entry) by exact Hx.
           unfold size_delta. rewrite (proj2 (cas_ok_true _ _) Hc).
           rewrite is_live_set_val by done. rewrite ptr_eqb_refl.
           change (is_live zero_entry) with false.
           assert (is_live x1 = false) as -> by (unfold is_live; apply andb_false_r).
           destruct (ptr_eqb val null); simpl; lia.
        -- apply cas_ok_false in Hc as [Hc1 Hc2].
           exists s1, h1.
           split; [apply (putif_value_lost fuel false s1 a h1 idx x1); auto|].
           split; [done|]. split; [done|].
           split; [intros k'; rewrite andb_false_r; apply Hl1|].
           cbn [put_slot set_slots kvs h1].
           rewrite (count_if_insert _ _ _ zero_entry) by exact Hx.
           unfold size_delta. rewrite (proj2 (cas_ok_false _ _) (conj Hc1 Hc2)).
           change (is_live zero_entry) with false.
           assert (is_live x1 = false) as -> by (unfold is_live; apply andb_false_r).
           lia.
Qed.

(** ** Resizing *)

(** *** Zeroing the new table *)

(** A fresh table whose first [p] slots are zeroed. *)
Definition zeroed (p : nat) (junk : list entry) : list entry :=
  replicate p zero_entry ++ drop p junk.

Lemma bzero_zeroed p n junk :
  (p + n <= length junk)%nat ->
  bzero p n (zeroed p junk) = zeroed (p + n) junk.
Proof.
  intros Hle. unfold bzero, zeroed.
  rewrite take_app_length' by (now rewrite length_replicate).
  rewrite <- (Nat.add_0_r p) at 2.
  replace (p + 0 + n)%nat with (length (replicate p zero_entry) + n)%nat
    by (rewrite length_replicate; lia).
  rewrite drop_app_add. rewrite drop_drop.
  rewrite replicate_add. now rewrite <- app_assoc.
Qed.

Lemma zeroed_all junk : zeroed (length junk) junk = replicate (length junk) zero_entry.
Proof. unfold zeroed. rewrite drop_all. apply app_nil_r. Qed.

Lemma blocks_todo_small L : 1 <= L < 2 ^ 32 -> blocks_todo L = 1 + (L - 1) / BLOCK_SIZE.
Proof.
  intros HL. unfold blocks_todo. apply u32_small. unfold BLOCK_SIZE.
  assert (0 <= (L - 1) / (1024 * 8) <= L - 1); [|lia].
  split; [apply Z.div_pos; lia|]. apply Z.div_le_upper_bound; lia.
Qed.

Lemma blocks_todo_lt L j :
  1 <= L < 2 ^ 32 -> 0 <= j -> (j < blocks_todo L <-> j * BLOCK_SIZE < L).
Proof.
  intros HL Hj. rewrite blocks_todo_small by done. unfold BLOCK_SIZE.
  pose proof (Z.div_mod (L - 1) (1024 * 8) ltac:(lia)).
  pose proof (Z.mod_pos_bound (L - 1) (1024 * 8) ltac:(lia)).
  split; intros; nia.
Qed.

Lemma faa_btodo_eq s b h :
  heap s !! b = Some h ->
  fetch_and_add_btodo (Tbl b) s
  = Ok (_btodo h) (upd_heap b (set_btodo (u64 (_btodo h + 1)) h) s).
Proof.
  intros Hh. unfold fetch_and_add_btodo.
  erewrite bind_ok by (eapply rd_header_eq; eauto).
  erewrite bind_ok by (eapply wr_header_eq; eauto). reflexivity.
Qed.

Lemma faa_bdone_eq s b h :
  heap s !! b = Some h ->
  fetch_and_add_bdone (Tbl b) s
  = Ok (_bdone h) (upd_heap b (set_bdone (u64 (_bdone h + 1)) h) s).
Proof.
  intros Hh. unfold fetch_and_add_bdone.
  erewrite bind_ok by (eapply rd_header_eq; eauto).
  erewrite bind_ok by (eapply wr_header_eq; eauto). reflexivity.
Qed.

Lemma wait_bdone_eq s b h todo :
  heap s !! b = Some h -> todo <= _bdone h -> wait_bdone (Tbl b) todo s = Ok tt s.
Proof.
  intros Hh Hd. unfold wait_bdone.
  erewrite bind_ok by (eapply rd_header_eq; eauto).
  destruct (Z.ltb_spec (_bdone h) todo); [lia|done].
Qed.

Lemma blocks_todo_range L : 1 <= L < 2 ^ 32 -> 0 < blocks_todo L < 2 ^ 32.
Proof.
  intros HL. rewrite blocks_todo_small by done. unfold BLOCK_SIZE.
  assert (0 <= (L - 1) / (1024 * 8) <= L - 1); [|lia].
  split; [apply Z.div_pos; lia|]. apply Z.div_le_upper_bound; lia.
Qed.

(** The four checks both block workers start with. *)
Lemma block_asserts {A} (k : M A) s L :
  1 <= L < 2 ^ 32 ->
  (c_assert (negb (L =? 0)) >>
   c_assert (0 <? blocks_todo L) >>
   c_assert (implb (L <=? BLOCK_SIZE) (blocks_todo L =? 1)) >> k) s = k s.
Proof.
  intros HL. pose proof (blocks_todo_range L HL).
  destruct (Z.eqb_spec L 0); [lia|]. unfold c_assert at 1. cbn [negb]. rewrite bind_ret.
  destruct (Z.ltb_spec 0 (blocks_todo L)); [|lia].
  unfold c_assert at 1. rewrite bind_ret.
  assert (implb (L <=? BLOCK_SIZE) (blocks_todo L =? 1) = true) as ->.
  { destruct (Z.leb_spec L BLOCK_SIZE); [|done]. simpl.
    rewrite blocks_todo_small by done. rewrite Z.div_small by lia. done. }
  reflexivity.
Qed.

Lemma block_asserts2 {A} (k : M A) s L :
  1 <= L < 2 ^ 32 ->
  (c_assert (0 <? blocks_todo L) >>
   c_assert (implb (L <=? BLOCK_SIZE) (blocks_todo L =? 1)) >> k) s = k s.
Proof.
  intros HL. pose proof (blocks_todo_range L HL).
  destruct (Z.ltb_spec 0 (blocks_todo L)); [|lia].
  unfold c_assert at 1. rewrite bind_ret.
  assert (implb (L <=? BLOCK_SIZE) (blocks_todo L =? 1) = true) as ->.
  { destruct (Z.leb_spec L BLOCK_SIZE); [|done]. simpl.
    rewrite blocks_todo_small by done. rewrite Z.div_small by lia. done. }
  reflexivity.
Qed.

Section Zero.

Variables (b : nat) (nl : Z) (junk : list entry).
Hypothesis Hnl : 1 <= nl < 2 ^ 32.
Hypothesis Hjunk : length junk = Z.to_nat nl.

(** The new table after [j] blocks were zeroed. *)
Definition zeroing (j : Z) : header :=
  mk_header j nl j (zeroed (Z.to_nat (Z.min (j * BLOCK_SIZE) nl)) junk).

Lemma zero_block_more s j :
  heap s !! b = Some (zeroing j) -> 0 <= j < blocks_todo nl ->
  _zero_block (Tbl b) s = Ok 1 (upd_heap b (zeroing (j + 1)) s).
Proof.
  intros Hh Hj. pose proof Hj as [Hj0 Hjt]. rewrite blocks_todo_lt in Hjt by lia.
  pose proof (blocks_todo_range nl Hnl) as Htodo.
  unfold zeroing in *.
  unfold _zero_block. rewrite (hptr_eqb_ne (Tbl b) hnull) by done.
  unfold c_assert at 1. cbn [negb]. rewrite bind_ret.
  erewrite bind_ok by (eapply rd_header_eq; eauto).
  cbn [len]. rewrite block_asserts by done.
  erewrite bind_ok by (eapply faa_btodo_eq; eauto).
  cbn [_btodo].
  destruct (Z.leb_spec (blocks_todo nl) j); [lia|].
  erewrite bind_ok by (eapply rd_header_eq; eapply heap_upd_eq; eauto).
  erewrite bind_ok by (eapply wr_header_eq; eapply heap_upd_eq; eauto).
  rewrite upd_heap_twice.
  erewrite bind_ok by (eapply faa_bdone_eq; eapply heap_upd_eq; eauto).
  rewrite upd_heap_twice.
  cbn [_bdone set_slots set_btodo set_bdone _btodo len kvs].
  destruct (Z.leb_spec (blocks_todo nl) j); [lia|].
  unfold ret. f_equal. f_equal.
  rewrite !u64_small by lia. f_equal.
  rewrite (Z.min_l (j * BLOCK_SIZE)) by lia.
  rewrite bzero_zeroed.
  - unfold set_bdone, set_slots, set_btodo. cbn [_btodo len _bdone kvs].
    f_equal. f_equal. unfold BLOCK_SIZE in *.
    destruct (Z.ltb_spec nl (j * (1024 * 8) + 1024 * 8)).
    + rewrite u32_small by lia. lia.
    + lia.
  - rewrite Hjunk. unfold BLOCK_SIZE in *.
    destruct (Z.ltb_spec nl (j * (1024 * 8) + 1024 * 8)).
    + rewrite u32_small by lia. lia.
    + lia.
Qed.

Lemma zero_block_done s :
  heap s !! b = Some (zeroing (blocks_todo nl)) ->
  _zero_block (Tbl b) s
  = Ok 0 (upd_heap b (mk_header (blocks_todo nl + 1) nl (blocks_todo nl)
                        (replicate (Z.to_nat nl) zero_entry)) s).
Proof.
  intros Hh. pose proof (blocks_todo_range nl Hnl) as Htodo.
  unfold zeroing in *.
  unfold _zero_block. rewrite (hptr_eqb_ne (Tbl b) hnull) by done.
  unfold c_assert at 1. cbn [negb]. rewrite bind_ret.
  erewrite bind_ok by (eapply rd_header_eq; eauto).
  cbn [len]. rewrite block_asserts by done.
  erewrite bind_ok by (eapply faa_btodo_eq; eauto).
  cbn [_btodo].
  destruct (Z.leb_spec (blocks_todo nl) (blocks_todo nl)); [|lia].
  erewrite bind_ok by (eapply wait_bdone_eq; [eapply heap_upd_eq; eauto|cbn; lia]).
  unfold ret. f_equal. f_equal. unfold set_btodo. cbn [_btodo len _bdone kvs].
  rewrite u64_small by lia. f_equal.
  assert (~ blocks_todo nl < blocks_todo nl) as Hn by lia.
  rewrite blocks_todo_lt in Hn by lia.
  rewrite Z.min_r by lia. rewrite <- Hjunk. apply zeroed_all.
Qed.

Lemma zero_all_from s j fuel :
  heap s !! b = Some (zeroing j) -> 0 <= j <= blocks_todo nl ->
  (Z.to_nat (blocks_todo nl - j) < fuel)%nat ->
  zero_all fuel (Tbl b) s
  = Ok tt (upd_heap b (mk_header (blocks_todo nl + 1) nl (blocks_todo nl)
                         (replicate (Z.to_nat nl) zero_entry)) s).
Proof.
  revert s j. induction fuel as [|fuel IH]; intros s j Hh Hj Hf; [lia|].
  cbn [zero_all].
  destruct (Z.eq_dec j (blocks_todo nl)) as [->|Hne].
  - erewrite bind_ok by (now apply zero_block_done). reflexivity.
  - erewrite bind_ok by (apply zero_block_more; [done|lia]).
    change (1 =? 0) with false. cbv iota.
    erewrite IH with (j := j + 1); [|eapply heap_upd_eq; eauto|lia|lia].
    now rewrite upd_heap_twice.
Qed.

End Zero.

(** *** Copying the old table *)

Definition is_occ (x : entry) : bool := negb (ptr_eqb (_key x) null).

(** What [_copy_block] leaves of a slot of the old table. *)
Definition mark (x : entry) : entry :=
  if ptr_eqb (_key x) null then set_key SIZED x
  else if ptr_eqb (_val x) null then set_key SIZED (set_val SIZED x)
  else set_val SIZED x.

(** The old slots once the first [n] are copied. *)
Definition marked (n : nat) (l : list entry) : list entry :=
  (mark <$> take n l) ++ drop n l.

Lemma marked_lookup n (l : list entry) : marked n l !! n = l !! n.
Proof.
  unfold marked. destruct (Nat.le_gt_cases (length l) n) as [Hge|Hlt].
  - rewrite (lookup_ge_None_2 l n) by done. apply lookup_ge_None_2.
    rewrite length_app, length_fmap, length_take, length_drop. lia.
  - rewrite lookup_app_r by (rewrite length_fmap, length_take; lia).
    rewrite length_fmap, length_take, lookup_drop. f_equal. lia.
Qed.

Lemma marked_length n (l : list entry) : length (marked n l) = length l.
Proof.
  unfold marked. rewrite length_app, length_fmap, length_take, length_drop. lia.
Qed.

Lemma marked_step n (l : list entry) x :
  l !! n = Some x -> <[n := mark x]> (marked n l) = marked (S n) l.
Proof.
  intros Hx. pose proof (lookup_lt_Some _ _ _ Hx) as Hlt. unfold marked.
  rewrite insert_app_r_alt by (rewrite length_fmap, length_take; lia).
  rewrite length_fmap, length_take.
  replace (n - n `min` length l)%nat with 0%nat by lia.
  rewrite (take_S_r l n x Hx), fmap_app, <- app_assoc. f_equal.
  rewrite (drop_S l x n Hx). reflexivity.
Qed.

Lemma count_if_app p (l l' : list entry) :
  count_if p (l ++ l') = count_if p l + count_if p l'.
Proof. induction l as [|x l IH]; simpl; [done|]. rewrite IH. lia. Qed.

Lemma count_if_take_S p (l : list entry) n x :
  l !! n = Some x ->
  count_if p (take (S n) l) = count_if p (take n l) + (if p x then 1 else 0).
Proof.
  intros Hx. rewrite (take_S_r l n x Hx), count_if_app. simpl. lia.
Qed.

Lemma count_if_ext p q (l : list entry) :
  (forall i x, l !! i = Some x -> p x = q x) -> count_if p l = count_if q l.
Proof.
  induction l as [|x l IH]; intros H; simpl; [done|].
  rewrite (H 0%nat x eq_refl). rewrite IH; [done|].
  intros i y Hy. apply (H (S i)). exact Hy.
Qed.

Lemma count_if_all p (l : list entry) :
  (forall i x, l !! i = Some x -> p x = true) -> count_if p l = Z.of_nat (length l).
Proof.
  induction l as [|x l IH]; intros H; simpl length; [done|]. cbn [count_if].
  rewrite (H 0%nat x eq_refl). rewrite IH; [lia|].
  intros i y Hy. apply (H (S i)). exact Hy.
Qed.

(** A table with a free slot: no chain of misses goes all the way round. *)
Lemma misses_not_full h k hash :
  pow2_len (len h) -> length (kvs h) = Z.to_nat (len h) ->
  count_if is_occ (kvs h) < len h ->
  misses h k hash (Z.to_nat (len h)) = false.
Proof.
  intros HL Hlen Hc. apply not_true_is_false. intros Hm.
  pose proof (pow2_len_range _ HL).
  rewrite misses_spec in Hm.
  rewrite (count_if_all is_occ (kvs h)) in Hc; [lia|].
  intros i x Hx.
  destruct (slot_is_probed h hash i x HL Hx Hlen) as (d & Hd & Hi).
  destruct (Hm d) as (y & Hy & Hmy); [lia|].
  unfold probed in Hy. rewrite Hi, Nat2Z.id, Hx in Hy. injection Hy as <-.
  apply is_miss_inv in Hmy as (Hn & _). unfold is_occ. now rewrite ptr_eqb_ne.
Qed.

Lemma with_map_same s : with_map (hmap s) s = s.
Proof. now destruct s. Qed.

Lemma account_resizing v val m : account true v val m = m.
Proof. reflexivity. Qed.

Lemma entry_eta x : mk_entry (_key x) (_val x) (_hash x) = x.
Proof. now destruct x. Qed.

Section Copy.

Variables (a b : nat) (oh : header) (nl : Z) (m0 : HashMap).
Hypothesis Hab : a <> b.
Hypothesis Hoh : tbl_ok oh.
Hypothesis Hnl : pow2_len nl.
Hypothesis Hle : len oh <= nl.

(** The store while the old table [oh] at [a] is copied into the new one
    at [b]: the first [n] old slots are marked, and the new table [nh]
    holds exactly the live ones among them. *)
Record copying (s : mem) (bt bd : Z) (n : nat) (nh : header) : Prop := {
  cp_old : heap s !! a = Some (mk_header bt (len oh) bd (marked n (kvs oh)));
  cp_new : heap s !! b = Some nh;
  cp_ok : tbl_ok nh;
  cp_len : len nh = nl;
  cp_in : forall j x, (j < n)%nat -> kvs oh !! j = Some x -> is_live x = true ->
            lookup nh (_key x) = _val x;
  cp_from : forall i z, kvs nh !! i = Some z -> _key z <> null ->
            exists j, (j < n)%nat /\ kvs oh !! j = Some z /\ is_live z = true;
  cp_count : count_if is_live (kvs nh) = count_if is_live (take n (kvs oh));
  cp_map : hmap s = m0
}.

Lemma copying_free_slot s bt bd n nh k :
  copying s bt bd n nh -> (n < length (kvs oh))%nat ->
  (forall i y, kvs nh !! i = Some y -> holds k y = false) ->
  exists d x, Z.of_nat d < nl /\ misses nh k (hash_of k) d = true /\
    probed nh (hash_of k) d = Some x /\ _key x = null.
Proof.
  intros Hc Hn Habs. destruct Hc.
  assert (Hcnt : count_if is_occ (kvs nh) < len nh).
  { rewrite (count_if_ext is_occ is_live).
    - rewrite cp_count0. pose proof (count_if_bounds is_live (take n (kvs oh))) as Hb.
      rewrite length_take in Hb. pose proof (ok_length oh Hoh).
      pose proof (pow2_len_range _ (ok_len oh Hoh)). lia.
    - intros i z Hz. unfold is_occ. destruct (decide (_key z = null)) as [E|E].
      + unfold is_live. now rewrite E.
      + destruct (cp_from0 i z Hz E) as (j & _ & _ & Hl). rewrite Hl.
        now rewrite ptr_eqb_ne. }
  pose proof (misses_not_full nh k (hash_of k) (ok_len nh cp_ok0) (ok_length nh cp_ok0) Hcnt)
    as Hnm.
  destruct (chain_to_free nh cp_ok0 k (Z.to_nat (len nh)) Habs)
    as [Hm|(d & x & Hd & Hm & Hx & Hf)]; [congruence|].
  exists d, x. repeat split; try done.
  pose proof (pow2_len_range _ (ok_len nh cp_ok0)). lia.
Qed.

Lemma copy_slot_step s bt bd n nh fuel :
  copying s bt bd n nh -> (n < length (kvs oh))%nat -> (Z.to_nat nl < fuel)%nat ->
  exists s' nh',
    copy_slot fuel fuel (Tbl a) (Tbl b) (Tbl a, Z.of_nat n) s = Ok tt s'
    /\ copying s' bt bd (S n) nh'.
Proof.
  intros Hc Hn Hf. pose proof Hc as [Hold Hnew Hok Hlen Hin Hfrom Hcnt Hmap].
  destruct (lookup_lt_is_Some_2 _ _ Hn) as [x Hx].
  set (oh1 := mk_header bt (len oh) bd (marked n (kvs oh))) in *.
  assert (Hcur : kvs oh1 !! Z.to_nat (Z.of_nat n) = Some x).
  { rewrite Nat2Z.id. simpl. now rewrite marked_lookup. }
  destruct fuel as [|fuel']; [lia|]. cbn [copy_slot].
  erewrite bind_ok by (eapply getkey_eq; eauto; lia).
  destruct (decide (_key x = null)) as [Hk|Hk].
  - (* an empty slot *)
    rewrite Hk, ptr_eqb_refl. cbn [negb]. cbv iota.
    erewrite bind_ok by (rewrite <- Hk; eapply cas_key_won; eauto; lia).
    cbv iota. eexists _, nh. split; [reflexivity|].
    assert (Hnl' : is_live x = false) by (unfold is_live; now rewrite Hk).
    split; try done.
    + unfold upd_slots. erewrite heap_upd_eq by eauto. f_equal.
      unfold set_slots, oh1. cbn [_btodo len _bdone kvs]. f_equal.
      rewrite Nat2Z.id, <- (marked_step n (kvs oh) x Hx). f_equal.
      unfold mark. now rewrite Hk, ptr_eqb_refl.
    + unfold upd_slots. now rewrite heap_upd_ne.
    + intros j y Hj Hy Hl. destruct (decide (j = n)) as [->|Hne].
      * congruence.
      * apply Hin with (j := j); [lia|done|done].
    + intros i z Hz Hzn. destruct (Hfrom i z Hz Hzn) as (j & Hj & Hjz & Hl).
      exists j. split; [lia|done].
    + rewrite (count_if_take_S _ _ _ x Hx), Hnl'. lia.
  - (* a claimed slot *)
    destruct (ok_wf oh Hoh n x Hx) as [_ Hw]. destruct (Hw Hk) as (Hks & Hvs & Hhash).
    rewrite (ptr_eqb_ne _ _ Hk). cbn [negb]. cbv iota.
    erewrite bind_ok by (eapply getval_eq; eauto; lia).
    erewrite bind_ok by (eapply cas_val_won; eauto; lia).
    cbv iota.
    set (l1 := <[Z.to_nat (Z.of_nat n) := set_val SIZED x]> (kvs oh1)).
    set (s1 := upd_slots a oh1 l1 s).
    assert (Hh1 : heap s1 !! a = Some (set_slots l1 oh1)).
    { unfold s1, upd_slots. eapply heap_upd_eq; eauto. }
    assert (Hx1 : kvs (set_slots l1 oh1) !! Z.to_nat (Z.of_nat n) = Some (set_val SIZED x)).
    { simpl. unfold l1. apply list_lookup_insert_eq.
      rewrite Nat2Z.id. simpl. now rewrite marked_length. }
    assert (Hb1 : heap s1 !! b = Some nh).
    { unfold s1, upd_slots. now rewrite heap_upd_ne. }
    erewrite bind_ok.
    2:{ eapply gethash_eq; eauto; [lia|]. simpl. rewrite Hhash. apply hash_of_nonzero. }
    cbn [_hash set_val]. rewrite Hhash.
    (* the key is not in the new table yet *)
    assert (Habs : forall i y, kvs nh !! i = Some y -> holds (_key x) y = false).
    { intros i y Hy. destruct (holds (_key x) y) eqn:E; [|done]. exfalso.
      apply holds_inv in E as [Hyn Hye].
      destruct (Hfrom i y Hy Hyn) as (j & Hj & Hjy & _).
      assert (j = n); [|lia]. eapply (ok_uniq oh Hoh); eauto. }
    destruct (copying_free_slot s bt bd n nh (_key x) Hc Hn Habs)
      as (d & xf & Hd & Hm & Hxf & Hxfk).
    assert (xf = zero_entry) as -> by (eapply wf_free_zero; eauto).
    pose proof (ok_len nh Hok) as HLn.
    erewrite bind_eq.
    2:{ apply (putif_at_free (fun _ => abort) s1 b nh Hb1 HLn (S fuel') true (_key x)
                 (hash_of (_key x)) (_val x) null d zero_entry);
          try done; [apply hash_of_nonzero|lia]. }
    unfold delete_request. rewrite (ptr_eqb_ne null IGNORE) by done.
    rewrite ptr_eqb_refl. cbn [orb]. rewrite andb_true_r.
    set (idx := probe_idx (hash_of (_key x)) (len nh) d) in *.
    set (x1 := mk_entry (_key x) null (hash_of (_key x))) in *.
    change (_val zero_entry) with null.
    destruct (ptr_eqb (_val x) null) eqn:Ev.
    + (* a deleted key: drop it *)
      apply ptr_eqb_eq in Ev.
      rewrite ptr_eqb_refl. unfold when.
      erewrite bind_ok.
      2:{ change (_key x) with (_key (set_val SIZED x)).
          eapply cas_key_won; eauto; lia. }
      cbv iota. eexists _, nh. split; [reflexivity|].
      assert (Hnl' : is_live x = false).
      { unfold is_live. rewrite Ev, ptr_eqb_refl. apply andb_false_r. }
      split; try done.
      * cbn [free_func heap]. unfold upd_slots. erewrite heap_upd_eq by eauto. f_equal.
        unfold set_slots, oh1, l1. cbn [_btodo len _bdone kvs]. f_equal.
        rewrite list_insert_insert_eq.
        rewrite Nat2Z.id, <- (marked_step n (kvs oh) x Hx). f_equal.
        unfold mark. rewrite (ptr_eqb_ne _ _ Hk), Ev, ptr_eqb_refl. reflexivity.
      * cbn [free_func heap]. unfold upd_slots. now rewrite heap_upd_ne.
      * intros j y Hj Hy Hl. destruct (decide (j = n)) as [->|Hne].
        -- congruence.
        -- apply Hin with (j := j); [lia|done|done].
      * intros i z Hz Hzn. destruct (Hfrom i z Hz Hzn) as (j & Hj & Hjz & Hl).
        exists j. split; [lia|done].
      * rewrite (count_if_take_S _ _ _ x Hx), Hnl'. lia.
    + (* a live key: it moved *)
      assert (Hvn : _val x <> null).
      { intros E. rewrite E, ptr_eqb_refl in Ev. done. }
      set (h1 := put_slot nh (Z.to_nat idx) x1).
      assert (Hok1 : tbl_ok h1) by (eapply tbl_ok_claim; eauto).
      assert (Hx1' : kvs h1 !! Z.to_nat idx = Some x1).
      { eapply put_slot_lookup_eq. exact Hxf. }
      rewrite (putif_value_won fuel' true false _ b h1 idx x1);
        [|unfold upd_slots; eapply heap_upd_eq; eauto
         |pose proof (probe_idx_range (hash_of (_key x)) (len nh) d HLn); lia
         |exact Hx1'|done|now left|now right].
      cbn [_val x1]. rewrite (ptr_eqb_ne null DELETED) by done. unfold when.
      set (h2 := put_slot h1 (Z.to_nat idx) (set_val (_val x) x1)).
      assert (Hok2 : tbl_ok h2) by (apply tbl_ok_set_val; auto; done).
      assert (Hx2 : kvs h2 !! Z.to_nat idx = Some x).
      { unfold h2. erewrite put_slot_lookup_eq by exact Hx1'. f_equal.
        unfold set_val, x1. cbn. rewrite <- Hhash. apply entry_eta. }
      assert (Hl2 : forall k', lookup h2 k'
                      = if equals_func (_key x) k' then _val x else lookup nh k').
      { intros k'. unfold h2. rewrite (lookup_put_slot h1 _ x1) by auto.
        change (holds k' (set_val (_val x) x1)) with (holds k' x1).
        unfold h1. rewrite (lookup_put_slot nh _ zero_entry) by auto.
        change (holds k' zero_entry) with false.
        unfold holds, x1. cbn [_key _val]. rewrite (ptr_eqb_ne _ _ Hk). cbn [negb andb].
        now destruct (equals_func (_key x) k'). }
      assert (Hlive : is_live x = true).
      { unfold is_live. now rewrite (ptr_eqb_ne _ _ Hk), Ev. }
      eexists _, h2. split; [reflexivity|].
      split.
      * unfold after_cas. cbn [heap with_map upd_slots upd_heap].
        rewrite !list_lookup_insert_ne by done.
        fold (upd_heap a (set_slots l1 oh1) s). rewrite Hh1. f_equal.
        unfold set_slots, oh1, l1. cbn [_btodo len _bdone kvs]. f_equal.
        rewrite Nat2Z.id, <- (marked_step n (kvs oh) x Hx). f_equal.
        unfold mark. now rewrite (ptr_eqb_ne _ _ Hk), Ev.
      * unfold after_cas. cbn [heap with_map upd_slots upd_heap].
        rewrite list_insert_insert_eq. apply list_lookup_insert_eq.
        eapply lookup_lt_Some. exact Hb1.
      * exact Hok2.
      * rewrite <- Hlen. reflexivity.
      * intros j y Hj Hy Hl. rewrite Hl2. destruct (decide (j = n)) as [->|Hne].
        -- assert (y = x) as -> by congruence. now rewrite equals_refl.
        -- destruct (equals_func (_key x) (_key y)) eqn:E.
           ++ exfalso. apply Hne. symmetry. eapply (ok_uniq oh Hoh); eauto.
              unfold is_live in Hl. apply andb_true_iff in Hl as [Hl _].
              intros E'. rewrite E', ptr_eqb_refl in Hl. done.
           ++ apply Hin with (j := j); [lia|done|done].
      * intros i z Hz Hzn.
        destruct (put_slot_lookup _ _ _ _ _ _ Hx1' Hz) as [[-> ->]|[Hne Hz1]].
        -- exists n. split; [lia|]. rewrite Hx2 in Hz. injection Hz as Hz.
           rewrite <- Hz. split; [done|]. now rewrite Hz.
        -- destruct (put_slot_lookup _ _ _ _ _ _ Hxf Hz1) as [[-> ->]|[Hne' Hz2]]; [done|].
           destruct (Hfrom i z Hz2 Hzn) as (j & Hj & Hjz & Hl).
           exists j. split; [lia|done].
      * rewrite (count_if_take_S _ _ _ x Hx), Hlive, <- Hcnt.
        unfold h2, put_slot. cbn [kvs set_slots].
        rewrite (count_if_insert _ _ _ x1) by exact Hx1'.
        unfold h1, put_slot. cbn [kvs set_slots].
        rewrite (count_if_insert _ _ _ zero_entry) by exact Hxf.
        assert (is_live (set_val (_val x) x1) = true) as ->.
        { unfold is_live, x1. cbn. now rewrite (ptr_eqb_ne _ _ Hk), Ev. }
        assert (is_live x1 = false) as ->.
        { unfold is_live, x1. cbn. apply andb_false_r. }
        change (is_live zero_entry) with false. cbv iota. lia.
      * unfold after_cas. cbn [hmap with_map]. rewrite account_resizing. exact Hmap.
Qed.

Lemma copying_counters s bt bd bt' bd' n nh :
  copying s bt bd n nh ->
  copying (upd_heap a (mk_header bt' (len oh) bd' (marked n (kvs oh))) s) bt' bd' n nh.
Proof.
  intros [Hold Hnew Hok Hlen Hin Hfrom Hcnt Hmap]. split; try done.
  - eapply heap_upd_eq; eauto.
  - now rewrite heap_upd_ne.
Qed.

Lemma copy_slots_run fuel m :
  (Z.to_nat nl < fuel)%nat ->
  forall s bt bd n nh,
  copying s bt bd n nh -> (n + m <= length (kvs oh))%nat ->
  exists s' nh',
    copy_slots fuel (Tbl a) (Tbl b) (Z.of_nat n) m s = Ok tt s'
    /\ copying s' bt bd (n + m) nh'.
Proof.
  intros Hf. induction m as [|m IH]; intros s bt bd n nh Hc Hn.
  - exists s, nh. rewrite Nat.add_0_r. split; [reflexivity|done].
  - cbn [copy_slots].
    pose proof (ok_length oh Hoh) as Hlen.
    erewrite bind_ok by (eapply load_eq; [apply (cp_old _ _ _ _ _ Hc)|simpl; lia]).
    destruct (copy_slot_step s bt bd n nh fuel Hc ltac:(lia) Hf) as (s1 & nh1 & E1 & Hc1).
    erewrite bind_ok by exact E1.
    destruct (IH s1 bt bd (S n) nh1 Hc1 ltac:(lia)) as (s2 & nh2 & E & Hc2).
    exists s2, nh2. replace (Z.of_nat n + 1) with (Z.of_nat (S n)) by lia.
    rewrite E. split; [reflexivity|]. now replace (n + S m)%nat with (S n + m)%nat by lia.
Qed.

(** The number of old slots copied once [j] blocks are done. *)
Definition copied (j : Z) : nat := Z.to_nat (Z.min (j * BLOCK_SIZE) (len oh)).

Lemma old_len_range : 1 <= len oh < 2 ^ 32.
Proof. pose proof (pow2_len_range _ (ok_len oh Hoh)). lia. Qed.

Lemma copy_block_more s j nh fuel :
  copying s j j (copied j) nh -> 0 <= j < blocks_todo (len oh) ->
  (Z.to_nat nl < fuel)%nat ->
  exists s' nh',
    _copy_block fuel (Tbl a) (Tbl b) s = Ok 1 s'
    /\ copying s' (j + 1) (j + 1) (copied (j + 1)) nh'.
Proof.
  intros Hc Hj Hf. pose proof Hj as [Hj0 Hjt].
  pose proof old_len_range as HL. pose proof (ok_length oh Hoh) as Hlen.
  pose proof (pow2_len_range _ (ok_len oh Hoh)) as HL'.
  rewrite blocks_todo_lt in Hjt by lia.
  pose proof (blocks_todo_range _ HL) as Htodo.
  unfold _copy_block.
  rewrite (hptr_eqb_ne (Tbl a) hnull), (hptr_eqb_ne (Tbl b) hnull),
    (hptr_eqb_ne (Tbl b) kvs_promise) by done.
  unfold c_assert at 1 2 3. cbn [negb]. rewrite !bind_ret.
  erewrite bind_ok by (eapply rd_header_eq; apply (cp_old _ _ _ _ _ Hc)).
  cbn [len]. rewrite block_asserts2 by done.
  erewrite bind_ok by (eapply faa_btodo_eq; apply (cp_old _ _ _ _ _ Hc)).
  cbn [_btodo set_btodo len _bdone kvs].
  destruct (Z.leb_spec (blocks_todo (len oh)) j); [lia|].
  rewrite u64_small by lia.
  pose proof (copying_counters s j j (j + 1) j _ nh Hc) as Hc1.
  assert (Hi : to_int (j * BLOCK_SIZE) = Z.of_nat (copied j)).
  { unfold copied. rewrite Z.min_l by lia. rewrite to_int_small; unfold BLOCK_SIZE in *; lia. }
  rewrite Hi.
  set (m := Z.to_nat
              (j * BLOCK_SIZE
               + (if len oh <? j * BLOCK_SIZE + BLOCK_SIZE
                  then len oh - j * BLOCK_SIZE else BLOCK_SIZE)
               - Z.of_nat (copied j))).
  assert (Hm : (copied j + m = copied (j + 1))%nat).
  { unfold m, copied, BLOCK_SIZE in *.
    destruct (Z.ltb_spec (len oh) (j * (1024 * 8) + 1024 * 8)); lia. }
  destruct (copy_slots_run fuel m Hf _ _ _ _ _ Hc1) as (s2 & nh2 & E & Hc2).
  { rewrite Hm. unfold copied. lia. }
  erewrite bind_ok by exact E.
  erewrite bind_ok by (eapply faa_bdone_eq; apply (cp_old _ _ _ _ _ Hc2)).
  cbn [_btodo set_bdone len _bdone kvs].
  destruct (Z.leb_spec (blocks_todo (len oh)) j); [lia|].
  rewrite u64_small by lia. rewrite Hm.
  eexists _, nh2. split; [reflexivity|].
  eapply copying_counters. rewrite <- Hm. exact Hc2.
Qed.

Lemma copy_block_done s nh fuel :
  copying s (blocks_todo (len oh)) (blocks_todo (len oh)) (length (kvs oh)) nh ->
  exists s',
    _copy_block fuel (Tbl a) (Tbl b) s = Ok 0 s'
    /\ copying s' (blocks_todo (len oh) + 1) (blocks_todo (len oh)) (length (kvs oh)) nh.
Proof.
  intros Hc. pose proof old_len_range as HL.
  pose proof (blocks_todo_range _ HL) as Htodo.
  unfold _copy_block.
  rewrite (hptr_eqb_ne (Tbl a) hnull), (hptr_eqb_ne (Tbl b) hnull),
    (hptr_eqb_ne (Tbl b) kvs_promise) by done.
  unfold c_assert at 1 2 3. cbn [negb]. rewrite !bind_ret.
  erewrite bind_ok by (eapply rd_header_eq; apply (cp_old _ _ _ _ _ Hc)).
  cbn [len]. rewrite block_asserts2 by done.
  erewrite bind_ok by (eapply faa_btodo_eq; apply (cp_old _ _ _ _ _ Hc)).
  cbn [_btodo set_btodo len _bdone kvs].
  destruct (Z.leb_spec (blocks_todo (len oh)) (blocks_todo (len oh))); [|lia].
  rewrite u64_small by lia.
  erewrite bind_ok.
  2:{ eapply wait_bdone_eq; [eapply heap_upd_eq; apply (cp_old _ _ _ _ _ Hc)|cbn; lia]. }
  eexists. split; [reflexivity|]. eapply copying_counters. exact Hc.
Qed.

Lemma copied_all : copied (blocks_todo (len oh)) = length (kvs oh).
Proof.
  pose proof old_len_range as HL. pose proof (ok_length oh Hoh) as Hlen.
  assert (~ blocks_todo (len oh) < blocks_todo (len oh)) as Hn by lia.
  rewrite blocks_todo_lt in Hn; [|lia|pose proof (blocks_todo_range _ HL); lia].
  unfold copied. rewrite Z.min_r by lia. lia.
Qed.

Lemma copy_all_run fuel :
  (Z.to_nat nl < fuel)%nat ->
  forall fuel' s j nh,
  copying s j j (copied j) nh -> 0 <= j <= blocks_todo (len oh) ->
  (Z.to_nat (blocks_todo (len oh) - j) < fuel')%nat ->
  exists s' nh',
    copy_all fuel fuel' (Tbl a) (Tbl b) s = Ok tt s'
    /\ copying s' (blocks_todo (len oh) + 1) (blocks_todo (len oh)) (length (kvs oh)) nh'.
Proof.
  intros Hf. induction fuel' as [|fuel' IH]; intros s j nh Hc Hj Hf'; [lia|].
  cbn [copy_all].
  destruct (Z.eq_dec j (blocks_todo (len oh))) as [->|Hne].
  - rewrite copied_all in Hc.
    destruct (copy_block_done s nh fuel Hc) as (s' & E & Hc').
    erewrite bind_ok by exact E. exists s', nh. split; [reflexivity|done].
  - destruct (copy_block_more s j nh fuel Hc ltac:(lia) Hf) as (s1 & nh1 & E & Hc1).
    erewrite bind_ok by exact E. change (1 =? 0) with false. cbv iota.
    apply (IH s1 (j + 1) nh1 Hc1); lia.
Qed.

End Copy.

(** *** The coordinator on a quiet map *)

Lemma tbl_ok_zero bt bd nl :
  pow2_len nl -> tbl_ok (mk_header bt nl bd (replicate (Z.to_nat nl) zero_entry)).
Proof.
  intros Hnl. split; cbn [len kvs].
  - done.
  - apply length_replicate.
  - intros i x Hx. apply lookup_replicate in Hx as [-> _]. split; done.
  - intros i j x y Hx _ Hk. apply lookup_replicate in Hx as [-> _]. done.
  - intros i x Hx Hk. apply lookup_replicate in Hx as [-> _]. done.
Qed.

Lemma next_len_cases c sz L :
  pow2_len L ->
  next_len c sz L = L \/
  (next_len c sz L = 2 * L /\ pow2_len (2 * L)) \/
  (next_len c sz L = 0 /\ L = 2 ^ 31).
Proof.
  intros (n & Hn & ->). unfold next_len.
  destruct (_ && _); [now left|right].
  destruct (Z.eq_dec n 31) as [->|Hne].
  - right. split; reflexivity.
  - left. assert (2 ^ n * 2 = 2 ^ (n + 1)) as E by (rewrite Z.pow_add_r; lia).
    assert (2 ^ (n + 1) <= 2 ^ 31) by (apply Z.pow_le_mono_r; lia).
    assert (0 < 2 ^ (n + 1)) by (apply Z.pow_pos_nonneg; lia).
    split.
    + rewrite u32_small by lia. lia.
    + exists (n + 1). split; [lia|]. lia.
Qed.

(** What a resize leaves behind: a quiet map on a fresh table with the
    same mappings and no deleted keys. *)
Definition resize_post (s : mem) (h : header) (s' : mem) (h' : header) : Prop :=
  quiet s' (length (heap s)) h' /\
  (forall k, lookup h' k = lookup h k) /\
  (forall i z, kvs h' !! i = Some z -> _key z <> null -> _val z <> null) /\
  len h' = next_len (changes (hmap s)) (to_int (_size (hmap s))) (len h) /\
  changes (hmap s') = 0 /\
  count_if is_live (kvs h') = count_if is_live (kvs h).

Lemma copying_lookup a b oh nl m0 s bt bd nh k :
  tbl_ok oh -> copying a b oh nl m0 s bt bd (length (kvs oh)) nh ->
  lookup nh k = lookup oh k.
Proof.
  intros Hoh [Hold Hnew Hok Hlen Hin Hfrom Hcnt Hmap].
  destruct (holds_dec oh k) as [(i & x & Hx & Hk)|Habs].
  - rewrite (lookup_holds oh Hoh k i x Hx Hk).
    pose proof (holds_inv _ _ Hk) as [Hn He].
    destruct (ptr_eqb (_val x) null) eqn:Ev.
    + apply ptr_eqb_eq in Ev. rewrite Ev. apply lookup_absent. intros j z Hz.
      destruct (holds k z) eqn:E; [|done]. exfalso.
      apply holds_inv in E as [Hzn Hze].
      destruct (Hfrom j z Hz Hzn) as (i' & _ & Hz' & Hl).
      assert (i' = i) as -> by (eapply (ok_uniq oh Hoh); eauto).
      assert (z = x) as -> by congruence.
      unfold is_live in Hl. rewrite Ev, ptr_eqb_refl in Hl.
      now rewrite andb_false_r in Hl.
    + rewrite (lookup_equals nh (_key x) k Hok He).
      apply (Hin i x); [eapply lookup_lt_Some; eauto|done|].
      unfold is_live. now rewrite (ptr_eqb_ne _ _ Hn), Ev.
  - rewrite (lookup_absent oh k Habs). apply lookup_absent. intros j z Hz.
    destruct (holds k z) eqn:E; [|done]. exfalso.
    pose proof (holds_inv _ _ E) as [Hzn Hze].
    destruct (Hfrom j z Hz Hzn) as (i' & _ & Hz' & _).
    rewrite (Habs _ _ Hz') in E. done.
Qed.

Lemma hashmap_size_quiet s a h :
  quiet s a h -> hashmap_size s = Ok (count_if is_live (kvs h)) s.
Proof.
  intros (_ & _ & _ & Hok & _ & Hsz). unfold hashmap_size, get_map, bind.
  pose proof (count_if_bounds is_live (kvs h)) as Hb.
  pose proof (ok_length h Hok). pose proof (pow2_len_range _ (ok_len h Hok)).
  rewrite Hsz, to_long_small by lia.
  destruct (Z.ltb_spec (count_if is_live (kvs h)) 0); [lia|done].
Qed.

Lemma hashmap_size_eq s c :
  _size (hmap s) = c -> 0 <= c < 2 ^ 63 -> hashmap_size s = Ok c s.
Proof.
  intros Hsz Hc. unfold hashmap_size, get_map, bind.
  rewrite Hsz, to_long_small by lia.
  destruct (Z.ltb_spec c 0); [lia|done].
Qed.

Lemma cas_map_nkvs_won s nval oval :
  _nkvs (hmap s) = oval ->
  cas_map_nkvs nval oval s = Ok true (with_map (set_nkvs nval (hmap s)) s).
Proof.
  intros <-. unfold cas_map_nkvs, get_map, bind. now rewrite hptr_eqb_refl.
Qed.

Lemma cas_map_kvs_won s nval oval :
  _kvs (hmap s) = oval ->
  cas_map_kvs nval oval s = Ok true (with_map (set_kvs nval (hmap s)) s).
Proof.
  intros <-. unfold cas_map_kvs, get_map, bind. now rewrite hptr_eqb_refl.
Qed.

Lemma upd_map_eq f s : upd_map f s = Ok tt (with_map (f (hmap s)) s).
Proof. reflexivity. Qed.

Lemma get_map_eq s : get_map s = Ok (hmap s) s.
Proof. reflexivity. Qed.

Lemma c_assert_ok b s : b = true -> c_assert b s = Ok tt s.
Proof. now intros ->. Qed.

Lemma header_new_eq n s :
  header_new n s
  = Ok (Tbl (length (heap s)))
       (mk_mem (hmap s) (heap s ++ [mk_header 0 n 0 (uninit <$> seq 0 (Z.to_nat n))])
          (freed s)).
Proof. reflexivity. Qed.

Lemma blocks_todo_le L : 1 <= L < 2 ^ 32 -> blocks_todo L <= L.
Proof.
  intros HL. rewrite blocks_todo_small by lia. unfold BLOCK_SIZE.
  assert ((L - 1) / (1024 * 8) <= L - 1) by (apply Z.div_le_upper_bound; lia). lia.
Qed.

Lemma count_if_replicate_zero n : count_if is_live (replicate n zero_entry) = 0.
Proof. induction n as [|n IH]; simpl; [done|]. now rewrite IH. Qed.

Lemma resize_quiet s a h fuel :
  quiet s a h -> (Z.to_nat (2 * len h) < fuel)%nat ->
  (_resize fuel (Tbl a) s = Abort /\ len h = 2 ^ 31) \/
  exists s' h', _resize fuel (Tbl a) s = Ok SIZED s' /\ resize_post s h s' h'.
Proof.
  intros Hq Hfuel. pose proof Hq as (Hk & Hn & Hh & Hok & H4 & Hsz).
  pose proof (ok_len h Hok) as HL. pose proof (pow2_len_range _ HL) as HLr.
  pose proof (ok_length h Hok) as Hlen.
  pose proof (count_if_bounds is_live (kvs h)) as Hcb.
  set (m := hmap s) in *.
  set (nl := next_len (changes m) (to_int (_size m)) (len h)).
  set (b := length (heap s)).
  assert (Hab : a <> b).
  { apply lookup_lt_Some in Hh. unfold b. lia. }
  unfold resize_post. fold m. fold nl. fold b.
  unfold _resize.
  erewrite bind_ok by apply get_map_eq. fold m.
  rewrite Hn, Hk, !hptr_eqb_refl. cbn [negb]. cbv iota.
  erewrite bind_ok by (apply cas_map_nkvs_won; exact Hn).
  cbv iota. erewrite bind_ok by apply get_map_eq.
  cbn [hmap with_map set_nkvs _kvs]. fold m. rewrite Hk, hptr_eqb_refl.
  cbn [negb]. cbv iota.
  erewrite bind_ok.
  2:{ apply (hashmap_size_eq _ (_size m)); [reflexivity|lia]. }
  erewrite bind_ok.
  2:{ eapply rd_header_eq. cbn [heap with_map]. exact Hh. }
  rewrite (u32_small (len h)) by lia.
  erewrite bind_ok by apply get_map_eq.
  cbn [hmap with_map set_nkvs changes]. fold m. fold nl.
  erewrite bind_ok by apply header_new_eq.
  cbn [heap with_map hmap freed]. fold b.
  set (junk := uninit <$> seq 0 (Z.to_nat nl)).
  assert (Hjunk : length junk = Z.to_nat nl).
  { unfold junk. now rewrite length_fmap, length_seq. }
  erewrite bind_ok by (apply c_assert_ok; now rewrite hptr_eqb_ne).
  erewrite bind_ok.
  2:{ eapply rd_header_eq. cbn [heap]. unfold b. apply list_lookup_middle. reflexivity. }
  cbn [len].
  destruct (next_len_cases (changes m) (to_int (_size m)) (len h) HL)
    as [Hnl|[[Hnl Hp2]|[Hnl Hmax]]]; fold nl in Hnl.
  3:{ left. rewrite Hnl. split; [reflexivity|done]. }
  all: right.
  all: assert (Hnlp : pow2_len nl) by (rewrite Hnl; done).
  all: assert (Hle : len h <= nl) by lia.
  all: pose proof (pow2_len_range _ Hnlp) as Hnlr.
  all: erewrite bind_ok
         by (apply c_assert_ok; destruct (Z.eqb_spec nl 0); [lia|done]).
  all: erewrite bind_ok
         by (eapply rd_header_eq; cbn [heap]; apply lookup_app_l_Some; exact Hh).
  all: erewrite bind_ok
         by (eapply wr_header_eq; cbn [heap]; apply lookup_app_l_Some; exact Hh).
  all: erewrite bind_ok by apply upd_map_eq.
  all: cbn [hmap with_map upd_heap set_nkvs _size changes _kvs heap freed].
  all: set (m0 := mk_map (_size m) (changes m) (_kvs m) (Tbl b)).
  all: set (hp := <[a := set_bdone 0 (set_btodo 0 h)]> (heap s ++ [mk_header 0 nl 0 junk])).
  all: set (s4 := mk_mem m0 hp (freed s)).
  all: assert (Hz0 : zeroing nl junk 0 = mk_header 0 nl 0 junk)
         by (unfold zeroing; rewrite Z.mul_0_l, Z.min_l by lia; reflexivity).
  all: assert (Hb4 : heap s4 !! b = Some (zeroing nl junk 0))
         by (rewrite Hz0; cbn [heap s4]; unfold hp; rewrite list_lookup_insert_ne by done;
             unfold b; rewrite list_lookup_middle by reflexivity; reflexivity).
  all: assert (Ha4 : heap s4 !! a = Some (set_bdone 0 (set_btodo 0 h)))
         by (cbn [heap s4]; unfold hp; apply list_lookup_insert_eq;
             rewrite length_app; apply lookup_lt_Some in Hh; lia).
  all: pose proof (blocks_todo_range nl ltac:(lia)) as Htn.
  all: pose proof (blocks_todo_le nl ltac:(lia)) as Htn'.
  all: pose proof (blocks_todo_range (len h) ltac:(lia)) as Hth.
  all: pose proof (blocks_todo_le (len h) ltac:(lia)) as Hth'.
  all: erewrite bind_ok
         by (apply (zero_all_from b nl junk ltac:(lia) Hjunk s4 0 fuel Hb4); lia).
  all: set (nhz := mk_header (blocks_todo nl + 1) nl (blocks_todo nl)
                     (replicate (Z.to_nat nl) zero_entry)).
  all: assert (Hcp0 : copied h 0 = 0%nat) by (unfold copied; lia).
  all: assert (Hc0 : copying a b h nl m0 (upd_heap b nhz s4) 0 0 (copied h 0) nhz)
         by (rewrite Hcp0; split;
             [ rewrite heap_upd_ne by congruence; rewrite Ha4; now destruct h
             | eapply heap_upd_eq; eauto
             | now apply tbl_ok_zero
             | reflexivity
             | intros j x Hj; lia
             | intros i z Hz Hzn; apply lookup_replicate in Hz as [-> _]; done
             | cbn [take count_if kvs nhz]; apply count_if_replicate_zero
             | reflexivity ]).
  all: destruct (copy_all_run a b h nl m0 Hab Hok Hle fuel ltac:(lia)
                   fuel _ 0 nhz Hc0 ltac:(lia) ltac:(lia)) as (s6 & nh' & E6 & Hc6).
  all: erewrite bind_ok by exact E6.
  all: pose proof Hc6 as [Hold6 Hnew6 Hok6 Hlen6 Hin6 Hfrom6 Hcnt6 Hmap6].
  all: erewrite bind_ok by (apply cas_map_kvs_won; rewrite Hmap6; exact Hk).
  all: cbn [negb]; cbv iota.
  all: erewrite bind_ok by (apply cas_map_nkvs_won; rewrite Hmap6; reflexivity).
  all: cbn [negb]; cbv iota.
  all: erewrite bind_ok by apply upd_map_eq.
  all: eexists _, nh'; (split; [reflexivity|]).
  all: split; [|split; [|split; [|split; [|split]]]].
  all: try (rewrite Hcnt6, take_ge by lia; reflexivity).
  all: try (intros k; eapply copying_lookup; eauto).
  all: try (intros i z Hz Hzn; destruct (Hfrom6 i z Hz Hzn) as (j & _ & _ & Hl);
            unfold is_live in Hl; apply andb_true_iff in Hl as [_ Hl];
            intros E; rewrite E, ptr_eqb_refl in Hl; done).
  all: try exact Hlen6.
  all: try reflexivity.
  all: unfold quiet; cbn [hmap with_map set_changes set_nkvs set_kvs _kvs _nkvs _size heap].
  all: rewrite Hmap6; cbn [_size m0].
  all: split; [reflexivity|]; split; [reflexivity|]; split; [exact Hnew6|].
  all: split; [exact Hok6|]; split; [lia|].
  all: rewrite Hcnt6, take_ge by lia; exact Hsz.
Qed.

(** ** More fuel changes no result *)

(** [o'] returns whatever [o] returns. *)
Definition le_out {A} (o o' : outcome A) : Prop :=
  forall a s, o = Ok a s -> o' = Ok a s.

Lemma le_out_refl {A} (o : outcome A) : le_out o o.
Proof. now intros a s. Qed.

Lemma le_out_spin {A} (o : outcome A) : le_out Spin o.
Proof. now intros a s. Qed.

Lemma le_out_bind {A B} (m m' : M A) (k k' : A -> M B) s :
  le_out (m s) (m' s) ->
  (forall a s1, le_out (k a s1) (k' a s1)) ->
  le_out (bind m k s) (bind m' k' s).
Proof.
  intros Hm Hk b s2. unfold bind. destruct (m s) as [a s1| |] eqn:E; try done.
  rewrite (Hm a s1 eq_refl). apply Hk.
Qed.

Ltac mono_with tac :=
  repeat first
    [ apply le_out_refl
    | apply le_out_spin
    | progress tac
    | apply le_out_bind; [|intros ? ?]
    | match goal with
      | |- le_out (when ?b _ _) _ => destruct b; cbn [when]
      | |- le_out (match ?p with _ => _ end _) _ => destruct p
      | |- le_out (match ?p with _ => _ end) _ => destruct p
      end ].

Lemma putif_probe_mono R R' :
  (forall kvs s, le_out (R kvs s) (R' kvs s)) ->
  forall n n', (n <= n')%nat ->
  forall rz kvs key hash val oldval L idx try s,
  le_out (putif_probe R n rz kvs key hash val oldval L idx try s)
         (putif_probe R' n' rz kvs key hash val oldval L idx try s).
Proof.
  intros HR. induction n as [|n IH]; intros [|n'] Hle; intros; try lia.
  - apply le_out_spin.
  - apply le_out_spin.
  - cbn [putif_probe]. mono_with ltac:(first [apply HR | apply IH; lia]).
Qed.

Lemma putif_update_mono :
  forall n n', (n <= n')%nat ->
  forall rz e key val oldval mf v s,
  le_out (putif_update n rz e key val oldval mf v s)
         (putif_update n' rz e key val oldval mf v s).
Proof.
  induction n as [|n IH]; intros [|n'] Hle; intros; try lia.
  - apply le_out_spin.
  - apply le_out_spin.
  - cbn [putif_update]. mono_with ltac:(apply IH; lia).
Qed.

Lemma putif_mono R R' :
  (forall kvs s, le_out (R kvs s) (R' kvs s)) ->
  forall n n', (n <= n')%nat ->
  forall rz kvs key hash val oldval s,
  le_out (_putif R n rz kvs key hash val oldval s)
         (_putif R' n' rz kvs key hash val oldval s).
Proof.
  intros HR n n' Hle. intros. unfold _putif, putif_value.
  mono_with ltac:(first [now apply putif_probe_mono | now apply putif_update_mono]).
Qed.

Lemma copy_slot_mono :
  forall f1 f1', (f1 <= f1')%nat -> forall f2 f2', (f2 <= f2')%nat ->
  forall okvs nkvs e s,
  le_out (copy_slot f1 f2 okvs nkvs e s) (copy_slot f1' f2' okvs nkvs e s).
Proof.
  intros f1 f1' H1. induction f2 as [|f2 IH]; intros [|f2'] Hle; intros; try lia.
  - apply le_out_spin.
  - apply le_out_spin.
  - cbn [copy_slot].
    mono_with ltac:(first [ apply IH; lia
                          | apply putif_mono; [intros; apply le_out_refl|done] ]).
Qed.

Lemma copy_slots_mono :
  forall f f', (f <= f')%nat -> forall n okvs nkvs i s,
  le_out (copy_slots f okvs nkvs i n s) (copy_slots f' okvs nkvs i n s).
Proof.
  intros f f' Hle. induction n as [|n IH]; intros; cbn [copy_slots].
  - apply le_out_refl.
  - mono_with ltac:(first [now apply copy_slot_mono | apply IH]).
Qed.

Lemma copy_block_mono :
  forall f f', (f <= f')%nat -> forall okvs nkvs s,
  le_out (_copy_block f okvs nkvs s) (_copy_block f' okvs nkvs s).
Proof.
  intros f f' Hle. intros. unfold _copy_block.
  mono_with ltac:(now apply copy_slots_mono).
Qed.

Lemma zero_all_mono :
  forall f f', (f <= f')%nat -> forall nkvs s,
  le_out (zero_all f nkvs s) (zero_all f' nkvs s).
Proof.
  induction f as [|f IH]; intros [|f'] Hle; intros; try lia.
  - apply le_out_spin.
  - apply le_out_spin.
  - cbn [zero_all]. mono_with ltac:(apply IH; lia).
Qed.

Lemma copy_all_mono :
  forall f1 f1', (f1 <= f1')%nat -> forall f2 f2', (f2 <= f2')%nat ->
  forall okvs nkvs s,
  le_out (copy_all f1 f2 okvs nkvs s) (copy_all f1' f2' okvs nkvs s).
Proof.
  intros f1 f1' H1. induction f2 as [|f2 IH]; intros [|f2'] Hle; intros; try lia.
  - apply le_out_spin.
  - apply le_out_spin.
  - cbn [copy_all]. mono_with ltac:(first [now apply copy_block_mono | apply IH; lia]).
Qed.

Lemma resize_mono :
  forall f f', (f <= f')%nat -> forall okvs s,
  le_out (_resize f okvs s) (_resize f' okvs s).
Proof.
  intros f f' Hle. intros. unfold _resize.
  mono_with ltac:(first [now apply zero_all_mono | now apply copy_all_mono]).
Qed.

Lemma get_probe_mono :
  forall n n', (n <= n')%nat ->
  forall kvs key hash L idx try s,
  le_out (get_probe n kvs key hash L idx try s) (get_probe n' kvs key hash L idx try s).
Proof.
  induction n as [|n IH]; intros [|n'] Hle; intros; try lia.
  - apply le_out_spin.
  - apply le_out_spin.
  - cbn [get_probe]. mono_with ltac:(apply IH; lia).
Qed.

Lemma get_mono :
  forall n n', (n <= n')%nat -> forall kvs key hash s,
  le_out (_get n kvs key hash s) (_get n' kvs key hash s).
Proof. intros. unfold _get. mono_with ltac:(now apply get_probe_mono). Qed.

Lemma help_blocks_mono (f f' : M Z) :
  (forall s, le_out (f s) (f' s)) ->
  forall n n', (n <= n')%nat -> forall okvs s,
  le_out (help_blocks n okvs f s) (help_blocks n' okvs f' s).
Proof.
  intros Hf. induction n as [|n IH]; intros [|n'] Hle; intros; try lia.
  - apply le_out_spin.
  - apply le_out_spin.
  - cbn [help_blocks]. mono_with ltac:(first [apply Hf | apply IH; lia]).
Qed.

Lemma help_wait_mono :
  forall f1 f1', (f1 <= f1')%nat -> forall f2 f2', (f2 <= f2')%nat ->
  forall okvs nkvs s,
  le_out (help_wait f1 f2 okvs nkvs s) (help_wait f1' f2' okvs nkvs s).
Proof.
  intros f1 f1' H1. induction f2 as [|f2 IH]; intros [|f2'] Hle; intros; try lia.
  - apply le_out_spin.
  - apply le_out_spin.
  - cbn [help_wait]. mono_with ltac:(first [now apply resize_mono | apply IH; lia]).
Qed.

Lemma help_resize_mono :
  forall f f', (f <= f')%nat -> forall okvs s,
  le_out (_help_resize f okvs s) (_help_resize f' okvs s).
Proof.
  intros f f' Hle. intros. unfold _help_resize.
  mono_with ltac:(first
    [ now apply help_wait_mono
    | apply help_blocks_mono; [intros; first [apply le_out_refl|now apply copy_block_mono]
                              |done] ]).
Qed.

Lemma retry_mono (engine engine' : hptr -> M ptr) :
  (forall kvs s, le_out (engine kvs s) (engine' kvs s)) ->
  forall f1 f1', (f1 <= f1')%nat -> forall f2 f2', (f2 <= f2')%nat ->
  forall kvs res s,
  le_out (retry f1 f2 engine kvs res s) (retry f1' f2' engine' kvs res s).
Proof.
  intros He f1 f1' H1. induction f2 as [|f2 IH]; intros [|f2'] Hle; intros; try lia.
  - cbn [retry]. mono_with idtac.
  - cbn [retry]. mono_with idtac.
  - cbn [retry].
    mono_with ltac:(first [now apply help_resize_mono | apply He | apply IH; lia]).
Qed.

Lemma hashmap_get_mono :
  forall f f', (f <= f')%nat -> forall key s,
  le_out (hashmap_get f key s) (hashmap_get f' key s).
Proof.
  intros f f' Hle. intros. unfold hashmap_get.
  mono_with ltac:(first
    [ now apply get_mono
    | apply retry_mono; [intros; now apply get_mono|done|done] ]).
Qed.

Lemma hashmap_putif_mono :
  forall f f', (f <= f')%nat -> forall key val oldval s,
  le_out (hashmap_putif f key val oldval s) (hashmap_putif f' key val oldval s).
Proof.
  intros f f' Hle. intros. unfold hashmap_putif.
  assert (He : forall kvs s,
    le_out (_putif (_resize f) f false kvs key (hash_of key) val oldval s)
           (_putif (_resize f') f' false kvs key (hash_of key) val oldval s)).
  { intros. apply putif_mono; [|done]. intros. now apply resize_mono. }
  mono_with ltac:(first [apply He | now apply retry_mono]).
Qed.

(** ** The public operations on a quiet map *)

Lemma bind_inv {A B} (m : M A) (k : A -> M B) s b s2 :
  bind m k s = Ok b s2 -> exists a s1, m s = Ok a s1 /\ k a s1 = Ok b s2.
Proof. unfold bind. destruct (m s) as [a s1| |]; [eauto|done|done]. Qed.

Lemma help_resize_moved fuel okvs s :
  _kvs (hmap s) <> okvs -> _help_resize fuel okvs s = Ok tt s.
Proof.
  intros Hne. unfold _help_resize. erewrite bind_ok by apply get_map_eq.
  now rewrite (hptr_eqb_ne _ _ Hne).
Qed.

Lemma getkvs_eq s : getkvs s = Ok (_kvs (hmap s)) s.
Proof. reflexivity. Qed.

Lemma retry_done fuel fuel' engine kvs res s :
  res <> SIZED -> retry fuel fuel' engine kvs res s = Ok res s.
Proof. intros Hne. destruct fuel'; cbn [retry]; now rewrite (ptr_eqb_ne _ _ Hne). Qed.

(** [hashmap_get] returns what the current table maps the key to. *)
Lemma hashmap_get_quiet s a h fuel k :
  quiet s a h -> (Z.to_nat (len h) <= fuel)%nat ->
  hashmap_get fuel k s = Ok (lookup h k) s.
Proof.
  intros (Hk & Hn & Hh & Hok & _) Hf. unfold hashmap_get. cbv zeta.
  rewrite (bind_ok _ _ _ _ _ (getkvs_eq s)), Hk.
  rewrite (bind_ok _ _ _ _ _ (get_lookup h Hok s a fuel k Hh Hf)).
  apply retry_done. now apply lookup_not_sized.
Qed.

Lemma hashmap_get_post s a h fuel k r s' :
  quiet s a h -> hashmap_get fuel k s = Ok r s' -> r = lookup h k /\ s' = s.
Proof.
  intros Hq E.
  apply (hashmap_get_mono fuel (fuel + Z.to_nat (len h))%nat ltac:(lia)) in E.
  rewrite (hashmap_get_quiet s a h) in E by (done || lia). now injection E.
Qed.

(** What a completed [hashmap_putif] did to a map that was quiet on the
    table [h]: it returns the value [h] mapped the key to, and leaves the
    map quiet on a table [h'] that differs from [h] at most at that key. *)
Definition put_post (h : header) (k val oldval r : ptr) (s' : mem) : Prop :=
  exists a' h', quiet s' a' h' /\ r = lookup h k /\
    (forall k', lookup h' k'
                = if equals_func k k' && cas_ok oldval (lookup h k)
                  then val else lookup h k') /\
    count_if is_live (kvs h')
    = count_if is_live (kvs h) + size_delta val oldval (lookup h k).

Section Put.

Variables (fuel : nat) (k val oldval : ptr).
Hypothesis Hkn : k <> null.
Hypothesis Hks : k <> SIZED.
Hypothesis Hvs : val <> SIZED.

Definition put_engine (kvs : hptr) : M ptr :=
  _putif (_resize fuel) fuel false kvs k (hash_of k) val oldval.

(** One call of the engine either settles the operation or resizes. *)
Lemma engine_outcome s a h res s1 :
  quiet s a h -> put_engine (Tbl a) s = Ok res s1 ->
  (res = lookup h k /\ exists h', round_post a h k val oldval s1 h') \/
  (res = SIZED /\ misses h k (hash_of k) (Z.to_nat REPROBE_LIMIT) = true /\
   exists h1, resize_post s h s1 h1).
Proof.
  intros Hq E. unfold put_engine in E.
  set (F := (fuel + Z.to_nat (2 * len h) + 18)%nat).
  assert (E' : _putif (_resize F) F false (Tbl a) k (hash_of k) val oldval s = Ok res s1).
  { revert E. apply putif_mono; [|lia]. intros. apply resize_mono. lia. }
  destruct (put_round (_resize F) s a h F k val oldval Hq Hkn Hks Hvs ltac:(lia))
    as [[Hm Er]|(s' & h' & Er & Hpost)].
  - right. rewrite Er in E'.
    destruct (resize_quiet s a h F Hq ltac:(lia)) as [[Ea _]|(s' & h' & Es & Hpost)].
    + congruence.
    + rewrite Es in E'. injection E' as <- <-. eauto.
  - left. rewrite Er in E'. injection E' as <- <-. eauto.
Qed.

Lemma retry_put fuel' :
  forall s a h res s1 r s',
  quiet s a h ->
  (res = lookup h k /\ exists h', round_post a h k val oldval s1 h') \/
  (res = SIZED /\ exists h1, resize_post s h s1 h1) ->
  retry fuel fuel' put_engine (Tbl a) res s1 = Ok r s' ->
  put_post h k val oldval r s'.
Proof.
  induction fuel' as [|fuel' IH]; intros s a h res s1 r s' Hq Hres E.
  - destruct Hres as [[-> (h' & Hq' & _ & Hl & Hc)]|[-> _]].
    + rewrite retry_done in E by (apply lookup_not_sized; apply Hq).
      injection E as <- <-. exists a, h'. eauto.
    + cbn [retry] in E. rewrite ptr_eqb_refl in E. done.
  - destruct Hres as [[-> (h' & Hq' & _ & Hl & Hc)]|[-> (h1 & Hq1 & Hl1 & _ & _ & _ & Hc1)]].
    + rewrite retry_done in E by (apply lookup_not_sized; apply Hq).
      injection E as <- <-. exists a, h'. eauto.
    + cbn [retry] in E. rewrite ptr_eqb_refl in E.
      pose proof Hq as (_ & _ & Hh & _). pose proof Hq1 as (Hk1 & _).
      rewrite bind_ok with (a := tt) (s' := s1) in E.
      2:{ apply help_resize_moved. rewrite Hk1. apply lookup_lt_Some in Hh.
          intros [= Eab]. lia. }
      erewrite bind_ok in E by apply getkvs_eq. rewrite Hk1 in E.
      apply bind_inv in E as (res2 & s2 & E2 & E).
      pose proof (engine_outcome _ _ _ _ _ Hq1 E2) as Hout.
      assert (Hout' : (res2 = lookup h1 k
                       /\ exists h', round_post (length (heap s)) h1 k val oldval s2 h')
                      \/ (res2 = SIZED /\ exists h2, resize_post s1 h1 s2 h2)).
      { destruct Hout as [?|(? & _ & ?)]; [now left|now right]. }
      destruct (IH _ _ _ _ _ _ _ Hq1 Hout' E) as (a' & h' & Hq' & -> & Hl & Hc).
      exists a', h'. split; [done|]. split; [apply Hl1|]. split.
      * intros k'. rewrite Hl, !Hl1. reflexivity.
      * rewrite Hc, Hc1, Hl1. reflexivity.
Qed.

Lemma hashmap_putif_post s a h r s' :
  quiet s a h -> hashmap_putif fuel k val oldval s = Ok r s' ->
  put_post h k val oldval r s'.
Proof.
  intros Hq E. unfold hashmap_putif in E. cbv zeta in E. fold put_engine in E.
  rewrite (bind_ok _ _ _ _ _ (getkvs_eq s)) in E.
  pose proof Hq as (Hk & _). rewrite Hk in E.
  apply bind_inv in E as (res & s1 & E1 & E).
  pose proof (engine_outcome _ _ _ _ _ Hq E1) as Hout.
  eapply retry_put; [exact Hq| |exact E].
  destruct Hout as [?|(? & _ & ?)]; [now left|now right].
Qed.

(** With its slot, or a free one, among the first 17 of the chain, the
    call returns at once. *)
Lemma hashmap_putif_returns s a h :
  quiet s a h -> misses h k (hash_of k) (Z.to_nat REPROBE_LIMIT) = false ->
  (18 <= fuel)%nat ->
  exists s', hashmap_putif fuel k val oldval s = Ok (lookup h k) s'.
Proof.
  intros Hq Hm Hf. unfold hashmap_putif. cbv zeta. fold put_engine.
  rewrite (bind_ok _ _ _ _ _ (getkvs_eq s)).
  pose proof Hq as (Hk & _). rewrite Hk.
  destruct (put_round (_resize fuel) s a h fuel k val oldval Hq Hkn Hks Hvs Hf)
    as [[Hm' _]|(s' & h' & Er & Hpost)]; [congruence|].
  unfold put_engine at 1. erewrite bind_ok by exact Er.
  exists s'. apply retry_done. apply lookup_not_sized. apply Hq.
Qed.

End Put.

(** ** Histories of public calls *)

Definition new_table : header :=
  mk_header 0 INITIAL_SIZE 0 (replicate (Z.to_nat INITIAL_SIZE) zero_entry).

Lemma hashmap_new_quiet : quiet hashmap_new 0 new_table.
Proof.
  unfold quiet, hashmap_new, new_table. cbn [hmap heap _kvs _nkvs _size len kvs].
  split; [done|]. split; [done|]. split; [reflexivity|]. split.
  - apply tbl_ok_zero. exists 2. split; [lia|reflexivity].
  - split; [unfold INITIAL_SIZE; lia|reflexivity].
Qed.

(** The states a single thread reaches from [hashmap_new] by completed
    calls of [hashmap_get] and [hashmap_putif], with the values it has
    passed to [hashmap_putif] so far.  Callers pass real keys and values:
    never 0 as a key, and never the private marker SIZED. *)
Inductive reach : list ptr -> mem -> Prop :=
| reach_new : reach [] hashmap_new
| reach_get vs s fuel k r s' :
    reach vs s -> hashmap_get fuel k s = Ok r s' -> reach vs s'
| reach_putif vs s fuel k v o r s' :
    reach vs s -> k <> null -> k <> SIZED -> v <> SIZED ->
    hashmap_putif fuel k v o s = Ok r s' -> reach (v :: vs) s'.

Definition stored (vs : list ptr) (h : header) : Prop :=
  forall k, lookup h k = null \/ In (lookup h k) vs.

Lemma put_post_stored vs h k v o r s' :
  stored vs h -> put_post h k v o r s' ->
  exists a' h', quiet s' a' h' /\ stored (v :: vs) h'.
Proof.
  intros Hst (a' & h' & Hq & _ & Hl & _). exists a', h'. split; [done|].
  intros k'. rewrite Hl. destruct (_ && _).
  - right. now left.
  - destruct (Hst k'); [now left|right; now right].
Qed.

Lemma reach_quiet vs s :
  reach vs s -> exists a h, quiet s a h /\ stored vs h.
Proof.
  induction 1 as [|vs s fuel k r s' _ (a & h & Hq & Hst) E
                  |vs s fuel k v o r s' _ (a & h & Hq & Hst) Hk Hks Hv E].
  - exists 0%nat, new_table. split; [apply hashmap_new_quiet|].
    intros k. left. reflexivity.
  - destruct (hashmap_get_post _ _ _ _ _ _ _ Hq E) as [_ ->]. eauto.
  - eapply put_post_stored; [exact Hst|].
    eapply hashmap_putif_post; eauto.
Qed.

Lemma reach_inv vs s : reach vs s -> inv s.
Proof. intros H. destruct (reach_quiet _ _ H) as (a & h & Hq & _). now exists a, h. Qed.

(** ** [hashmap_free] *)

(** The keys of the claimed slots, in slot order. *)
Fixpoint keys_of (l : list entry) : list ptr :=
  match l with
  | [] => []
  | x :: l => if ptr_eqb (_key x) null then keys_of l else _key x :: keys_of l
  end.

Lemma keys_of_app l l' : keys_of (l ++ l') = keys_of l ++ keys_of l'.
Proof.
  induction l as [|x l IH]; simpl; [done|].
  destruct (ptr_eqb (_key x) null); simpl; now rewrite IH.
Qed.

Lemma keys_of_In l k : In k (keys_of l) <-> exists i x, l !! i = Some x /\ _key x = k /\ k <> null.
Proof.
  induction l as [|x l IH]; simpl.
  - split; [done|]. intros (i & y & Hy & _). now rewrite lookup_nil in Hy.
  - destruct (ptr_eqb (_key x) null) eqn:E.
    + apply ptr_eqb_eq in E. rewrite IH. split.
      * intros (i & y & Hy & Hk). exists (S i), y. done.
      * intros ([|i] & y & Hy & Hk & Hn); simpl in Hy.
        -- injection Hy as ->. congruence.
        -- eauto.
    + assert (_key x <> null) as Hx by (intros Hx; rewrite Hx, ptr_eqb_refl in E; done).
      simpl. rewrite IH. split.
      * intros [<- | (i & y & Hy & Hk)]; [exists 0%nat, x; done|exists (S i), y; done].
      * intros ([|i] & y & Hy & Hk & Hn); simpl in Hy.
        -- injection Hy as ->. now left.
        -- right. eauto.
Qed.

Lemma free_keys_run a h n :
  0 <= len h -> (forall i x, kvs h !! i = Some x -> _key x <> SIZED) ->
  (Z.of_nat n <= len h) -> (n <= length (kvs h))%nat ->
  forall s, heap s !! a = Some h ->
  free_keys (Tbl a) n s
  = Ok tt (mk_mem (hmap s) (heap s) (keys_of (take n (kvs h)) ++ freed s)).
Proof.
  intros HL Hs. induction n as [|n IH]; intros Hn Hn' s Hh.
  - cbn [free_keys take keys_of app]. unfold ret. now destruct s.
  - destruct (lookup_lt_is_Some_2 (kvs h) n ltac:(lia)) as [x Hx].
    cbn [free_keys].
    erewrite bind_ok by (eapply load_eq; eauto; lia).
    rewrite (bind_ok _ _ _ _ _ (getkey_eq s a h (Z.of_nat n) x Hh ltac:(lia)
                                  ltac:(now rewrite Nat2Z.id))).
    rewrite (ptr_eqb_ne _ _ (Hs _ _ Hx)). unfold c_assert at 1. cbn [negb].
    rewrite bind_ret. rewrite (take_S_r _ _ _ Hx), keys_of_app. cbn [keys_of].
    destruct (ptr_eqb (_key x) null); cbn [negb when].
    + rewrite bind_ret. rewrite IH by (done || lia). now rewrite app_nil_r.
    + erewrite bind_ok by reflexivity. rewrite IH by (done || lia).
      cbn [hmap heap freed]. now rewrite <- app_assoc.
Qed.

Lemma hashmap_free_quiet s a h :
  quiet s a h ->
  hashmap_free s = Ok tt (mk_mem (hmap s) (heap s) (keys_of (kvs h) ++ freed s)).
Proof.
  intros (Hk & _ & Hh & Hok & _). unfold hashmap_free.
  rewrite (bind_ok _ _ _ _ _ (getkvs_eq s)), Hk. unfold free_kvs.
  rewrite (bind_ok _ _ _ _ _ (rd_header_eq s a h Hh)).
  pose proof (pow2_len_range _ (ok_len h Hok)) as HL.
  pose proof (ok_length h Hok) as Hlen.
  rewrite to_int_small by lia.
  rewrite (free_keys_run a h) by
    (try done; try lia;
     intros i x Hx Hs; destruct (ok_wf h Hok i x Hx) as [H0 H1];
     destruct (H1 ltac:(congruence)) as [? _]; done).
  repeat f_equal. apply take_ge. lia.
Qed.

(** ** All the ways out of the coordinator return SIZED *)

Lemma resize_returns_sized fuel okvs s r s' :
  _resize fuel okvs s = Ok r s' -> r = SIZED.
Proof.
  unfold _resize. intros E.
  repeat (first
    [ match type of E with
      | ret _ _ = Ok _ _ => unfold ret in E; injection E as <- <-; reflexivity
      | fatal _ = Ok _ _ => discriminate E
      | (if ?b then _ else _) _ = Ok _ _ => destruct b
      end
    | apply bind_inv in E as (? & ? & _ & E) ]).
Qed.

(** ** In resize-copy mode the coordinator is out of reach *)

Lemma putif_probe_resizing R R' fuel kvs key hash val oldval L :
  forall idx try s,
  putif_probe R fuel true kvs key hash val oldval L idx try s
  = putif_probe R' fuel true kvs key hash val oldval L idx try s.
Proof.
  induction fuel as [|fuel IH]; intros idx try s; [reflexivity|].
  cbn [putif_probe negb andb]. unfold bind.
  repeat (match goal with
          | |- context [match ?o with Ok _ _ => _ | Abort => _ | Spin => _ end] =>
              lazymatch o with
              | putif_probe _ _ _ _ _ _ _ _ _ _ _ _ => fail
              | _ => destruct o; try reflexivity
              end
          | |- context [if ?b then _ else _] => destruct b; try reflexivity
          end); cbn [negb andb]; try apply IH; try reflexivity.
Qed.

Lemma putif_resizing R R' fuel kvs key hash val oldval s :
  _putif R fuel true kvs key hash val oldval s
  = _putif R' fuel true kvs key hash val oldval s.
Proof.
  unfold _putif, bind. destruct (rd_header kvs s); [|done|done].
  destruct (c_assert _ _); [|done|done]. destruct (c_assert _ _); [|done|done].
  now rewrite (putif_probe_resizing R R').
Qed.

(** ** Single precision on table lengths

    On a table length, a power of two, and a size below 2^24 nothing is
    rounded: the test of line 369 compares the exact quotient with the
    float nearest to 0.3, 10066330 / 2^25. *)

Lemma ltb_scale a b P : 0 < P -> (a * P <? b * P) = (a <? b).
Proof.
  intros HP. destruct (Z.ltb_spec a b), (Z.ltb_spec (a * P) (b * P)); try done; nia.
Qed.

Lemma QDen_Qmake n d : 0 < d -> QDen (Qmake n (Z.to_pos d)) = d.
Proof. intros. simpl. now apply Z2Pos.id. Qed.

Lemma round_pos_dyadic n A B :
  0 < n < 2 ^ 24 -> 0 <= A -> 0 <= B ->
  exists p q, 0 <= p /\ 0 <= q /\ p - q = A - B /\
    Qnum (F32.round_pos (n * 2 ^ A) (2 ^ B)) = n * 2 ^ p /\
    QDen (F32.round_pos (n * 2 ^ A) (2 ^ B)) = 2 ^ q.
Proof.
  intros Hn HA HB. unfold F32.round_pos.
  pose proof (Z.log2_spec n ltac:(lia)) as Hl.
  pose proof (Z.log2_nonneg n) as Hl0.
  assert (Hl23 : Z.log2 n <= 23).
  { destruct (Z.le_gt_cases (Z.log2 n) 23) as [|Hgt]; [done|].
    assert (2 ^ 24 <= 2 ^ Z.log2 n) by (apply Z.pow_le_mono_r; lia). lia. }
  rewrite Z.log2_mul_pow2, Z.log2_pow2 by lia.
  set (l := Z.log2 n) in *. set (t := 23 - l).
  assert (Hcond : (if 0 <=? A + l - B
                   then 2 ^ B * 2 ^ (A + l - B) <=? n * 2 ^ A
                   else 2 ^ B <=? n * 2 ^ A * 2 ^ (- (A + l - B))) = true).
  { destruct (Z.leb_spec 0 (A + l - B)); apply Z.leb_le.
    - rewrite <- Z.pow_add_r by lia. replace (B + (A + l - B)) with (l + A) by lia.
      rewrite Z.pow_add_r by lia. apply Z.mul_le_mono_nonneg_r; [|lia].
      apply Z.pow_nonneg. lia.
    - rewrite <- Z.mul_assoc, <- Z.pow_add_r by lia.
      replace (A + - (A + l - B)) with (B - l) by lia.
      replace B with (l + (B - l)) at 1 by lia.
      rewrite Z.pow_add_r by lia. apply Z.mul_le_mono_nonneg_r; [|lia].
      apply Z.pow_nonneg. lia. }
  rewrite Hcond. cbv zeta.
  replace (A + l - B - 23) with (A - B - t) by lia.
  destruct (Z.leb_spec 0 (A - B - t)) as [He|He].
  - assert (Hd : 2 ^ B * 2 ^ (A - B - t) = 2 ^ (A - t))
      by (rewrite <- Z.pow_add_r by lia; f_equal; lia).
    assert (Hnum : n * 2 ^ A = n * 2 ^ t * 2 ^ (A - t)).
    { rewrite <- Z.mul_assoc, <- Z.pow_add_r by lia. do 2 f_equal. lia. }
    rewrite Hd, Hnum.
    assert (0 < 2 ^ (A - t)) by (apply Z.pow_pos_nonneg; lia).
    rewrite Z.div_mul, Z.mod_mul by lia.
    replace (2 * 0 <? 2 ^ (A - t)) with true by (symmetry; apply Z.ltb_lt; lia).
    exists (t + (A - B - t)), 0. split; [lia|]. split; [lia|]. split; [lia|].
    cbn [Qnum Qden inject_Z]. split; [|reflexivity].
    rewrite Z.pow_add_r by lia. lia.
  - assert (Hnum : n * 2 ^ A * 2 ^ (- (A - B - t)) = n * 2 ^ t * 2 ^ B).
    { rewrite <- !Z.mul_assoc, <- !Z.pow_add_r by lia. do 2 f_equal. lia. }
    rewrite Hnum.
    assert (0 < 2 ^ B) by (apply Z.pow_pos_nonneg; lia).
    rewrite Z.div_mul, Z.mod_mul by lia.
    replace (2 * 0 <? 2 ^ B) with true by (symmetry; apply Z.ltb_lt; lia).
    exists t, (- (A - B - t)). split; [lia|]. split; [lia|]. split; [lia|].
    split; [reflexivity|]. apply QDen_Qmake. apply Z.pow_pos_nonneg; lia.
Qed.

Lemma round_dyadic (x : Q) n A B :
  0 < n < 2 ^ 24 -> 0 <= A -> 0 <= B ->
  Qnum x = n * 2 ^ A -> QDen x = 2 ^ B ->
  exists p q, 0 <= p /\ 0 <= q /\ p - q = A - B /\
    Qnum (F32.round x) = n * 2 ^ p /\ QDen (F32.round x) = 2 ^ q.
Proof.
  intros Hn HA HB Hx Hd. unfold F32.round.
  assert (0 < Qnum x) by (rewrite Hx; apply Z.mul_pos_pos; [lia|apply Z.pow_pos_nonneg; lia]).
  destruct (Qnum x) as [|c|c] eqn:E; [lia| |lia].
  rewrite Hx, Hd. now apply round_pos_dyadic.
Qed.

Lemma f32_ratio_test sz L :
  pow2_len L -> 0 <= sz < 2 ^ 24 ->
  F32.ltb (F32.div (F32.of_Z sz) (F32.of_Z L)) F32.c0_3 = (10 * sz <? 3 * L).
Proof.
  intros (n & Hn & ->) Hsz.
  assert (Hc : Qnum F32.c0_3 = 10066330 /\ QDen F32.c0_3 = 33554432) by (split; reflexivity).
  destruct Hc as [Hc1 Hc2].
  destruct (round_dyadic (inject_Z (2 ^ n)) 1 n 0) as (p2 & q2 & Hp2 & Hq2 & Hpq2 & Hn2 & Hd2);
    try lia; [cbn [Qnum inject_Z]; lia|reflexivity|].
  fold (F32.of_Z (2 ^ n)) in Hn2, Hd2.
  assert (Hfinal : forall N D, 0 < D -> N * 2 ^ n = sz * D ->
            (N * 33554432 <? 10066330 * D) = (10 * sz <? 3 * 2 ^ n)).
  { intros N D HD HND.
    assert (0 < 2 ^ n) by (apply Z.pow_pos_nonneg; lia).
    rewrite <- (ltb_scale (N * 33554432) (10066330 * D) (2 ^ n)) by done.
    replace (N * 33554432 * 2 ^ n) with (sz * 33554432 * D) by nia.
    replace (10066330 * D * 2 ^ n) with (10066330 * 2 ^ n * D) by lia.
    rewrite ltb_scale by done.
    assert (Hm : (Z.to_nat n <= 31)%nat) by lia.
    rewrite <- (Z2Nat.id n) by lia. clear HND Hn. revert Hm.
    generalize (Z.to_nat n) as m. intros m Hm.
    do 32 (destruct m as [|m];
           [match goal with
            | |- context [2 ^ ?k] =>
                let v := eval vm_compute in (2 ^ k) in change (2 ^ k) with v
            end;
            match goal with
            | |- (?x <? ?y) = (?z <? ?w) =>
                destruct (Z.ltb_spec x y), (Z.ltb_spec z w); try done; lia
            end|]).
    lia. }
  unfold F32.ltb. rewrite Hc1, Hc2.
  destruct (Z.eq_dec sz 0) as [->|Hnz].
  - assert (E : F32.div (F32.of_Z 0) (F32.of_Z (2 ^ n)) = 0%Q).
    { unfold F32.div. change (F32.of_Z 0) with 0%Q.
      unfold Qdiv, Qmult, F32.round. cbn [Qnum]. rewrite Z.mul_0_l. reflexivity. }
    rewrite E. cbn [Qnum Qden]. apply Hfinal; lia.
  - destruct (round_dyadic (inject_Z sz) sz 0 0) as (p1 & q1 & Hp1 & Hq1 & Hpq1 & Hn1 & Hd1);
      try lia; [cbn [Qnum inject_Z]; lia|reflexivity|].
    fold (F32.of_Z sz) in Hn1, Hd1.
    set (a := F32.of_Z sz) in *. set (b := F32.of_Z (2 ^ n)) in *.
    assert (H2p2 : 0 < 2 ^ p2) by (apply Z.pow_pos_nonneg; lia).
    assert (Hnum : Qnum (a / b)%Q = sz * 2 ^ (p1 + q2)).
    { unfold Qdiv, Qmult, Qinv. destruct (Qnum b) as [|c|c] eqn:E; [lia| |lia].
      cbn [Qnum Qden]. rewrite Hn1, Hd2, Z.pow_add_r by lia. lia. }
    assert (Hden : QDen (a / b)%Q = 2 ^ (q1 + p2)).
    { unfold Qdiv, Qmult, Qinv. destruct (Qnum b) as [|c|c] eqn:E; [lia| |lia].
      cbn [Qnum Qden]. rewrite Pos2Z.inj_mul, Hd1, Z.pow_add_r by lia.
      f_equal. lia. }
    destruct (round_dyadic (a / b)%Q sz (p1 + q2) (q1 + p2))
      as (p3 & q3 & Hp3 & Hq3 & Hpq3 & Hn3 & Hd3); try lia; try done.
    fold (F32.div a b) in Hn3, Hd3.
    apply Hfinal; [rewrite Hd3; apply Z.pow_pos_nonneg; lia|].
    rewrite Hn3, Hd3. replace q3 with (p3 + n) by lia.
    rewrite Z.pow_add_r by lia. lia.
Qed.

Lemma next_len_exact c sz L :
  pow2_len L -> L < 2 ^ 31 -> 0 <= sz < 2 ^ 24 ->
  next_len c sz L = if (L / 4 <? c) && (10 * sz <? 3 * L) then L else 2 * L.
Proof.
  intros HL Hlt Hsz. unfold next_len. rewrite f32_ratio_test by done.
  destruct (_ && _); [done|]. rewrite u32_small; [lia|].
  pose proof (pow2_len_range L HL). lia.
Qed.

(** ** When [hashmap_putif] returns *)






(** The table a reachable store is quiet on is its current table. *)
Lemma reach_quiet_at vs s a h :
  reach vs s -> _kvs (hmap s) = Tbl a -> heap s !! a = Some h -> quiet s a h.
Proof.
  intros Hr Hk Hh. destruct (reach_quiet _ _ Hr) as (a' & h' & Hq & _).
  pose proof Hq as (Hk' & _ & Hh' & _).
  assert (a' = a) as -> by congruence.
  assert (h' = h) as -> by congruence.
  exact Hq.
Qed.

(** ** What a caller observes *)

(** The value the map gives [k]: what [hashmap_get] returns, given enough
    fuel, leaving the store as it was. *)
Definition maps_to (s : mem) (k v : ptr) : Prop :=
  exists fuel, forall fuel', (fuel <= fuel')%nat -> hashmap_get fuel' k s = Ok v s.

(** The length of the current table. *)
Definition table_len (s : mem) : Z :=
  match _kvs (hmap s) with
  | Tbl a => match heap s !! a with Some h => len h | None => 0 end
  | _ => 0
  end.

Lemma maps_to_quiet s a h k : quiet s a h -> maps_to s k (lookup h k).
Proof.
  intros Hq. exists (Z.to_nat (len h)). intros fuel' Hf.
  now apply (hashmap_get_quiet s a h).
Qed.

Lemma maps_to_lookup s a h k v : quiet s a h -> maps_to s k v -> v = lookup h k.
Proof.
  intros Hq [fuel Hf]. specialize (Hf fuel (le_n _)).
  now destruct (hashmap_get_post s a h fuel k v s Hq Hf).
Qed.

Lemma table_len_quiet s a h : quiet s a h -> table_len s = len h.
Proof. intros (Hk & _ & Hh & _). unfold table_len. now rewrite Hk, Hh. Qed.



(** ** The statements of the specification *)





(** C5. From every state a history of calls reaches, [hashmap_size]
    returns the number of live slots of the current table, which is not
    negative.  Those slots are the keys mapped to a value other than 0: the
    key of a live slot is mapped to the value of the slot, which is not 0,
    and a key mapped to a value other than 0 is held by one live slot only.
    A [hashmap_putif] that returns [r] moves the size by [size_delta]: by
    +1 when the value was swapped from 0 to a value other than 0, by -1
    when it was swapped from a value other than 0 to 0, and not at all
    otherwise. *)
Theorem size_counts_live_keys vs s :
  reach vs s ->
  exists a h, quiet s a h /\
    hashmap_size s = Ok (count_if is_live (kvs h)) s /\
    0 <= count_if is_live (kvs h) /\
    (forall i x, kvs h !! i = Some x -> is_live x = true ->
       maps_to s (_key x) (_val x) /\ _val x <> null) /\
    (forall k v, maps_to s k v -> v <> null ->
       exists i x, kvs h !! i = Some x /\ is_live x = true /\
         equals_func (_key x) k = true /\
         forall j y, kvs h !! j = Some y -> is_live y = true ->
           equals_func (_key y) k = true -> j = i) /\
    (forall fuel k v o r s', k <> null -> k <> SIZED -> v <> SIZED ->
       hashmap_putif fuel k v o s = Ok r s' ->
       exists n', hashmap_size s' = Ok n' s' /\
         n' = count_if is_live (kvs h) + size_delta v o r /\
         size_delta v o r
         = if (ptr_eqb o IGNORE || ptr_eqb r o) && ptr_eqb r null && negb (ptr_eqb v null)
           then 1
           else if (ptr_eqb o IGNORE || ptr_eqb r o) && negb (ptr_eqb r null) && ptr_eqb v null
           then -1 else 0).
Proof.
  intros Hr. destruct (reach_quiet _ _ Hr) as (a & h & Hq & _).
  pose proof Hq as (_ & _ & _ & Hok & _).
  exists a, h. split; [done|]. split; [now apply (hashmap_size_quiet s a h)|].
  split; [apply count_if_bounds|]. split; [|split].
  - intros i x Hx Hlive. unfold is_live in Hlive.
    apply andb_true_iff in Hlive as [Hk Hv]. apply negb_true_iff in Hk, Hv.
    assert (_key x <> null) as Hkn by (intros E; rewrite E, ptr_eqb_refl in Hk; done).
    assert (_val x <> null) as Hvn by (intros E; rewrite E, ptr_eqb_refl in Hv; done).
    split; [|done].
    rewrite <- (lookup_holds h Hok (_key x) i x Hx (holds_intro _ _ Hkn (equals_refl _))).
    now apply (maps_to_quiet s a).
  - intros k v Hm Hv. rewrite (maps_to_lookup _ _ _ _ _ Hq Hm) in Hv.
    destruct (holds_dec h k) as [(i & x & Hx & Hh)|Habs].
    + rewrite (lookup_holds h Hok k i x Hx Hh) in Hv.
      apply holds_inv in Hh as [Hkn He].
      exists i, x. split; [done|]. split.
      { unfold is_live. now rewrite (ptr_eqb_ne _ _ Hkn), (ptr_eqb_ne _ _ Hv). }
      split; [done|]. intros j y Hy Hlive He'.
      unfold is_live in Hlive. apply andb_true_iff in Hlive as [Hk' _].
      apply negb_true_iff in Hk'.
      assert (_key y <> null) as Hyn by (intros E; rewrite E, ptr_eqb_refl in Hk'; done).
      apply (ok_uniq h Hok j i y x Hy Hx Hyn Hkn).
      apply (equals_trans _ k); [done|now apply equals_sym].
    + now rewrite (lookup_absent h k Habs) in Hv.
  - intros fuel k v o r s' Hkn Hks Hvs E.
    destruct (hashmap_putif_post fuel k v o Hkn Hks Hvs s a h r s' Hq E)
      as (a' & h' & Hq' & -> & _ & Hc).
    exists (count_if is_live (kvs h')). split; [now apply (hashmap_size_quiet s' a')|].
    split; [done|]. unfold size_delta, cas_ok.
    destruct (ptr_eqb o IGNORE || ptr_eqb (lookup h k) o),
      (ptr_eqb (lookup h k) null), (ptr_eqb v null); reflexivity.
Qed.


(** C6. The coordinator that wins on a quiet map returns SIZED with a new
    current table whose length is [next_len], the decision of lines 369 to
    376: the length of the old table if [changes > len / 4] and the
    single-precision quotient of the size by [len] is below [0.3f], twice
    that length otherwise.  While the size is below 2^24 the quotient is
    exact and the test is [size / len < 0.3], that is [10 * size < 3 *
    len]. *)
Theorem resize_next_length s a h fuel :
  quiet s a h -> len h < 2 ^ 31 -> (Z.to_nat (2 * len h) < fuel)%nat ->
  exists s' h',
    _resize fuel (Tbl a) s = Ok SIZED s' /\
    quiet s' (length (heap s)) h' /\
    len h' = next_len (changes (hmap s)) (count_if is_live (kvs h)) (len h) /\
    (count_if is_live (kvs h) < 2 ^ 24 ->
     len h' = if (len h / 4 <? changes (hmap s))
                 && (10 * count_if is_live (kvs h) <? 3 * len h)
              then len h else 2 * len h).
Proof.
  intros Hq Hlt Hf.
  destruct (resize_quiet s a h fuel Hq Hf) as [[_ Hbad]|(s' & h' & E & Hpost)]; [lia|].
  destruct Hpost as (Hq' & _ & _ & Hlen & _).
  pose proof Hq as (_ & _ & _ & Hok & _ & Hsz).
  pose proof (count_if_bounds is_live (kvs h)) as Hb.
  rewrite (ok_length h Hok) in Hb.
  pose proof (pow2_len_range _ (ok_len h Hok)) as Hr.
  rewrite Hsz, to_int_small in Hlen by lia.
  exists s', h'. split; [done|]. split; [done|]. split; [done|].
  intros Hsmall. rewrite Hlen. apply next_len_exact; [apply Hok|lia|lia].
Qed.

(** C7. Outside resize-copy mode, a [_putif] whose first 17 slots are all
    claimed by other keys calls the coordinator on its table and returns
    what that returns; [_resize] returns SIZED whenever it returns, and on
    a quiet map it does return, with a new current table.  In resize-copy
    mode the coordinator is never called, whatever the number of reprobes:
    the result does not depend on it, and past the 17 slots the probe
    simply goes on with the next one. *)
Theorem putif_reprobe_limit s a h fuel k val oldval :
  quiet s a h -> k <> null -> len h < 2 ^ 31 ->
  misses h k (hash_of k) (Z.to_nat REPROBE_LIMIT) = true ->
  (Z.to_nat (2 * len h) + Z.to_nat REPROBE_LIMIT <= fuel)%nat ->
  (forall R, _putif R fuel false (Tbl a) k (hash_of k) val oldval s = R (Tbl a) s) /\
  (forall fuel' okvs s0 r s1, _resize fuel' okvs s0 = Ok r s1 -> r = SIZED) /\
  (exists s' h',
     _putif (_resize fuel) fuel false (Tbl a) k (hash_of k) val oldval s = Ok SIZED s' /\
     quiet s' (length (heap s)) h' /\ a <> length (heap s)) /\
  (forall R R',
     _putif R fuel true (Tbl a) k (hash_of k) val oldval s
     = _putif R' fuel true (Tbl a) k (hash_of k) val oldval s) /\
  (forall R more,
     putif_probe R (Z.to_nat REPROBE_LIMIT + more) true (Tbl a) k (hash_of k) val oldval
       (len h) (probe_idx (hash_of k) (len h) 0) 0 s
     = putif_probe R more true (Tbl a) k (hash_of k) val oldval
         (len h) (probe_idx (hash_of k) (len h) (Z.to_nat REPROBE_LIMIT)) 0 s).
Proof.
  intros Hq Hkn Hlt Hm Hf.
  pose proof Hq as (_ & _ & Hh & Hok & _).
  pose proof (ok_len h Hok) as HL. pose proof (hash_of_nonzero k) as Hz.
  assert (Hlim : forall R,
            _putif R fuel false (Tbl a) k (hash_of k) val oldval s = R (Tbl a) s).
  { intros R. apply (putif_at_limit R s a h Hh HL); auto. lia. }
  assert (Hf' : (Z.to_nat (2 * len h) < fuel)%nat) by (unfold REPROBE_LIMIT in Hf; lia).
  split; [exact Hlim|]. split; [apply resize_returns_sized|]. split; [|split].
  - destruct (resize_quiet s a h fuel Hq Hf') as [[_ Hbad]|(s' & h' & E & Hpost)];
      [lia|].
    exists s', h'. rewrite Hlim. split; [done|]. split; [apply Hpost|].
    apply lookup_lt_Some in Hh. lia.
  - intros R R'. apply putif_resizing.
  - intros R more.
    apply (putif_walk_to R s a h Hh HL more true k (hash_of k) val oldval _ Hm).
    discriminate.
Qed.

(** C8. A lookup whose chain meets, all around a table of length [len],
    only slots claimed by other keys returns 0 and leaves the store as it
    was, after [len] probes: [len] iterations of the loop are enough and
    fewer are not.  The chain starts at [hash & (len - 1)] and goes from
    [idx] to [(idx + 1) & (len - 1)]. *)
Theorem get_returns_null_after_len_probes s a h k hash :
  heap s !! a = Some h -> pow2_len (len h) ->
  misses h k hash (Z.to_nat (len h)) = true ->
  (forall fuel, (Z.to_nat (len h) <= fuel)%nat -> _get fuel (Tbl a) k hash s = Ok null s) /\
  (forall fuel, (fuel < Z.to_nat (len h))%nat -> _get fuel (Tbl a) k hash s = Spin) /\
  probe_idx hash (len h) 0 = Z.land hash (len h - 1) /\
  (forall t, probe_idx hash (len h) (S t)
             = Z.land (probe_idx hash (len h) t + 1) (len h - 1)).
Proof.
  intros Hh HL Hm. split; [|split; [|split]].
  - intros fuel Hf. rewrite (get_full_circle s a h Hh HL fuel k hash Hm).
    now rewrite (proj2 (Nat.leb_le _ _) Hf).
  - intros fuel Hf. rewrite (get_full_circle s a h Hh HL fuel k hash Hm).
    now rewrite (proj2 (Nat.leb_gt _ _) Hf).
  - change (probe_idx hash (len h) 0) with (home hash (len h)).
    now rewrite home_mod, land_mask.
  - intros t. rewrite probe_idx_S, next_idx_mod, land_mask; try done.
    now apply probe_idx_range.
Qed.

(** C9. A delete, [_putif] with value 0 and oldval IGNORE or 0, whose
    probe reaches a free slot: outside resize-copy mode the caller's key
    goes to the destructor and the call returns 0, the tables and the
    counters of the map as they were; in resize-copy mode the call returns
    DELETED and touches nothing. *)
Theorem delete_of_absent_key R s a h fuel k hash oldval d x :
  heap s !! a = Some h -> pow2_len (len h) -> k <> null -> hash <> 0 ->
  oldval = IGNORE \/ oldval = null ->
  misses h k hash d = true -> probed h hash d = Some x -> _key x = null ->
  (d < fuel)%nat ->
  (Z.of_nat d < REPROBE_LIMIT ->
   _putif R fuel false (Tbl a) k hash null oldval s
   = Ok null (mk_mem (hmap s) (heap s) (k :: freed s))) /\
  _putif R fuel true (Tbl a) k hash null oldval s = Ok DELETED s.
Proof.
  intros Hh HL Hkn Hz Hold Hm Hx Hfree Hf.
  assert (Hdel : delete_request null oldval = true).
  { unfold delete_request. rewrite ptr_eqb_refl.
    destruct Hold as [-> | ->]; rewrite ptr_eqb_refl; [done|apply orb_true_r]. }
  split.
  - intros Hd.
    rewrite (putif_at_free R s a h Hh HL fuel false k hash null oldval d x); try done.
    now rewrite Hdel.
  - rewrite (putif_at_free R s a h Hh HL fuel true k hash null oldval d x); try done.
    now rewrite Hdel.
Qed.



(** C3, what the code does instead.  [hashmap_putif(k, v, oldval)] with
    oldval neither IGNORE nor the current value of [k], for a key that a
    slot holds under another pointer: the call returns the current value
    and leaves the store exactly as it was.  The caller's pointer [k] has
    not been passed to the destructor and is in no table, so that
    [hashmap_free] does not pass it either: the key is never freed. *)
Theorem putif_mismatch_leaks_key s a h fuel k v oldval :
  quiet s a h -> k <> null ->
  oldval <> IGNORE -> lookup h k <> oldval ->
  (exists i x, kvs h !! i = Some x /\ holds k x = true) ->
  misses h k (hash_of k) (Z.to_nat REPROBE_LIMIT) = false -> (18 <= fuel)%nat ->
  (forall j y, kvs h !! j = Some y -> _key y <> k) -> ~ In k (freed s) ->
  hashmap_putif fuel k v oldval s = Ok (lookup h k) s /\
  exists s'', hashmap_free s = Ok tt s'' /\ ~ In k (freed s'').
Proof.
  intros Hq Hkn Ho1 Ho2 (i & x & Hx & Hkx) Hroom Hfuel Hother Hfreed.
  pose proof Hq as (Hk & Hn & Hh & Hok & H4 & Hsz).
  pose proof (ok_len h Hok) as HL. pose proof (hash_of_nonzero k) as Hz.
  destruct (chain_to_slot h Hok k i x Hx Hkx) as (d & Hd & Hi & Hp & Hm & Hhit).
  rewrite (lookup_holds h Hok k i x Hx Hkx) in *.
  pose proof (holds_inv _ _ Hkx) as [Hxn Hxe].
  destruct (ok_wf h Hok i x Hx) as [_ Hw]. destruct (Hw Hxn) as (_ & Hxs & _).
  assert (Hlt : (d < 17)%nat).
  { destruct (Nat.lt_ge_cases d 17) as [|Hge]; [done|].
    change (Z.to_nat REPROBE_LIMIT) with 17%nat in Hroom.
    rewrite (misses_le h k (hash_of k) d 17 Hge Hm) in Hroom. done. }
  assert (Hxi : kvs h !! Z.to_nat (probe_idx (hash_of k) (len h) d) = Some x)
    by (now rewrite Hi, Nat2Z.id).
  split.
  - unfold hashmap_putif. cbv zeta.
    rewrite (bind_ok _ _ _ _ _ (getkvs_eq s)), Hk.
    rewrite (bind_ok _ _ s (_val x) s).
    + now apply retry_done.
    + rewrite (putif_at_hit (_resize fuel) s a h Hh HL fuel false k (hash_of k) v oldval
                 d x); try done; [|unfold REPROBE_LIMIT; lia|lia].
      destruct fuel as [|f]; [lia|].
      apply (putif_value_lost f true s a h _ x); auto; [lia|].
      right. split; auto.
  - rewrite (hashmap_free_quiet s a h Hq). eexists. split; [reflexivity|].
    cbn [freed]. intros Hin. apply in_app_or in Hin as [Hin|Hin]; [|done].
    apply keys_of_In in Hin as (j & y & Hy & Hyk & _). exact (Hother j y Hy Hyk).
Qed.


(** X1. A resize keeps the map: the coordinator run on a quiet map, over a
    table shorter than 2^31, returns SIZED and leaves a quiet map on a new
    table in which every key maps to the value it had; [hashmap_size]
    returns what it did, the new table has no slot with a key and the
    value 0, and [changes] is 0 again. *)
Theorem resize_keeps_the_map s a h fuel :
  quiet s a h -> len h < 2 ^ 31 -> (Z.to_nat (2 * len h) < fuel)%nat ->
  exists s' h',
    _resize fuel (Tbl a) s = Ok SIZED s' /\
    quiet s' (length (heap s)) h' /\
    (forall k v, maps_to s k v -> maps_to s' k v) /\
    (exists n, hashmap_size s = Ok n s /\ hashmap_size s' = Ok n s') /\
    (forall i z, kvs h' !! i = Some z -> _key z <> null -> _val z <> null) /\
    changes (hmap s') = 0.
Proof.
  intros Hq Hlt Hf.
  destruct (resize_quiet s a h fuel Hq Hf) as [[_ Hbad]|(s' & h' & E & Hpost)]; [lia|].
  destruct Hpost as (Hq' & Hl & Hlive & _ & Hch & Hcnt).
  exists s', h'. split; [done|]. split; [done|]. split; [|split; [|split]]; try done.
  - intros k v Hm. rewrite (maps_to_lookup _ _ _ _ _ Hq Hm), <- Hl.
    now apply (maps_to_quiet s' (length (heap s))).
  - exists (count_if is_live (kvs h)). split; [now apply (hashmap_size_quiet s a)|].
    rewrite <- Hcnt. now apply (hashmap_size_quiet s' (length (heap s))).
Qed.


(** ** A map that [hashmap_putif] cannot leave *)

(** The keys [ks], 17 of them and no two equal, are live in the table [h]
    and have the hash of [k], which no slot of [h] holds. *)
Definition crowded (h : header) (k : ptr) (ks : list ptr) : Prop :=
  length ks = Z.to_nat REPROBE_LIMIT /\
  (forall i j ki kj, ks !! i = Some ki -> ks !! j = Some kj ->
     equals_func ki kj = true -> i = j) /\
  (forall i ki, ks !! i = Some ki -> lookup h ki <> null /\ hash_of ki = hash_of k) /\
  (forall i y, kvs h !! i = Some y -> holds k y = false).

Lemma slots_of_keys h (ks : list ptr) :
  (forall i ki, ks !! i = Some ki -> lookup h ki <> null) ->
  exists ns : list nat,
    Forall2 (fun ki n => exists x, kvs h !! n = Some x /\ holds ki x = true) ks ns.
Proof.
  induction ks as [|ki ks IH]; intros Hlive.
  - exists []. constructor.
  - destruct IH as [ns Hns]; [intros i kj Hj; apply (Hlive (S i) kj Hj)|].
    destruct (holds_dec h ki) as [(n & x & Hx & Hh)|Habs].
    + exists (n :: ns). constructor; eauto.
    + destruct (Hlive 0%nat ki eq_refl). now apply lookup_absent.
Qed.

(** The 17 keys fill the first 17 slots of the chain of [k]. *)
Lemma crowded_misses h k ks :
  tbl_ok h -> crowded h k ks ->
  misses h k (hash_of k) (Z.to_nat REPROBE_LIMIT) = true.
Proof.
  intros Hok (Hlen & Hdiff & Hlive & Habs).
  pose proof (ok_len h Hok) as HL.
  destruct (chain_to_free h Hok k 17 Habs) as [Hm|(d & z & Hd & Hm & Hz & Hfree)];
    [exact Hm|exfalso].
  destruct (slots_of_keys h ks) as [ns Hns]; [intros i ki Hi; apply (Hlive i ki Hi)|].
  set (f := fun t => Z.to_nat (probe_idx (hash_of k) (len h) t)).
  assert (Hsub : forall n, n ∈ ns -> n ∈ f <$> seq 0 d).
  { intros n Hn. apply list_elem_of_lookup_1 in Hn as [j Hj].
    destruct (Forall2_lookup_r _ _ _ _ _ Hns Hj) as (kj & Hkj & x & Hx & Hh).
    destruct (Hlive j kj Hkj) as [_ Hhash].
    destruct (chain_to_slot h Hok kj n x Hx Hh) as (dj & _ & Hidx & Hp & Hmj & Hhit).
    rewrite Hhash in Hidx, Hp, Hmj.
    apply list_elem_of_fmap. exists dj. split; [unfold f; rewrite Hidx; lia|].
    apply elem_of_seq. split; [lia|]. simpl.
    destruct (Nat.lt_trichotomy dj d) as [Hlt|[->|Hgt]]; [exact Hlt| |].
    - rewrite Hp in Hz. injection Hz as ->.
      apply is_hit_inv in Hhit as (Hkn & _). done.
    - rewrite misses_spec in Hmj. destruct (Hmj d Hgt) as (y & Hy & Hmiss).
      rewrite Hz in Hy. injection Hy as <-.
      apply is_miss_inv in Hmiss as (Hkn & _). done. }
  assert (Hnd : NoDup ns).
  { apply NoDup_alt. intros i j n Hi Hj.
    destruct (Forall2_lookup_r _ _ _ _ _ Hns Hi) as (ki & Hki & x & Hx & Hh).
    destruct (Forall2_lookup_r _ _ _ _ _ Hns Hj) as (kj & Hkj & x' & Hx' & Hh').
    assert (x' = x) as -> by congruence.
    apply (Hdiff i j ki kj Hki Hkj).
    rewrite <- (holds_equals ki kj x Hh). exact Hh'. }
  pose proof (submseteq_length _ _ (NoDup_submseteq _ _ Hnd Hsub)) as Hle.
  assert (Hsame : length ks = length ns) by (eapply Forall2_length; exact Hns).
  rewrite <- Hsame, Hlen, length_fmap, length_seq in Hle.
  change (Z.to_nat REPROBE_LIMIT) with 17%nat in Hle. lia.
Qed.

Lemma crowded_after_resize s h s1 h1 k ks :
  resize_post s h s1 h1 -> crowded h k ks -> crowded h1 k ks.
Proof.
  intros (Hq1 & Hl & Hlive1 & _) (Hlen & Hdiff & Hlive & Habs).
  pose proof Hq1 as (_ & _ & _ & Hok1 & _).
  split; [done|]. split; [done|]. split.
  - intros i ki Hi. rewrite Hl. now apply (Hlive i).
  - intros i y Hy. destruct (holds k y) eqn:Hh; [exfalso|done].
    pose proof (holds_inv _ _ Hh) as [Hkn _].
    apply (Hlive1 i y Hy Hkn).
    rewrite <- (lookup_holds h1 Hok1 k i y Hy Hh), Hl.
    now apply lookup_absent.
Qed.

Section Crowded.

Variables (fuel : nat) (k val oldval : ptr) (ks : list ptr).
Hypothesis Hkn : k <> null.

(** On a crowded table the engine has one way out, through a resize. *)
Lemma engine_crowded s a h res s1 :
  quiet s a h -> crowded h k ks ->
  put_engine fuel k val oldval (Tbl a) s = Ok res s1 ->
  res = SIZED /\ exists h1, resize_post s h s1 h1.
Proof.
  intros Hq Hc E. unfold put_engine in E.
  pose proof Hq as (_ & _ & Hh & Hok & _).
  set (F := (fuel + Z.to_nat (2 * len h) + 18)%nat).
  assert (E' : _putif (_resize F) F false (Tbl a) k (hash_of k) val oldval s = Ok res s1).
  { revert E. apply putif_mono; [|lia]. intros. apply resize_mono. lia. }
  rewrite (putif_at_limit (_resize F) s a h Hh (ok_len h Hok)) in E';
    [|done|apply hash_of_nonzero|now apply (crowded_misses h k ks)
     |change (Z.to_nat REPROBE_LIMIT) with 17%nat; lia].
  destruct (resize_quiet s a h F Hq ltac:(lia)) as [[Ea _]|(s' & h' & Es & Hpost)];
    [congruence|].
  rewrite Es in E'. injection E' as <- <-. eauto.
Qed.

Lemma retry_crowded fuel' :
  forall s a h s1 h1 r s',
  quiet s a h -> resize_post s h s1 h1 -> crowded h k ks ->
  retry fuel fuel' (put_engine fuel k val oldval) (Tbl a) SIZED s1 <> Ok r s'.
Proof.
  induction fuel' as [|fuel' IH]; intros s a h s1 h1 r s' Hq Hpost Hc E;
    cbn [retry] in E; rewrite ptr_eqb_refl in E; [done|].
  pose proof Hq as (_ & _ & Hh & _). pose proof Hpost as (Hq1 & _).
  pose proof Hq1 as (Hk1 & _).
  rewrite bind_ok with (a := tt) (s' := s1) in E.
  2:{ apply help_resize_moved. rewrite Hk1. apply lookup_lt_Some in Hh.
      intros [= Eab]. lia. }
  rewrite (bind_ok _ _ _ _ _ (getkvs_eq s1)), Hk1 in E.
  apply bind_inv in E as (res2 & s2 & E2 & E).
  pose proof (crowded_after_resize _ _ _ _ _ _ Hpost Hc) as Hc1.
  destruct (engine_crowded _ _ _ _ _ Hq1 Hc1 E2) as (-> & h2 & Hpost2).
  exact (IH _ _ _ _ _ _ _ Hq1 Hpost2 Hc1 E).
Qed.

End Crowded.

(** X2. [hashmap_putif] does not return on a crowded map: when 17 live
    keys, no two equal, have the hash of the key [k] and no slot holds [k],
    every round of the call finds the first 17 slots of its chain taken,
    resizes and starts again, in a table where the same holds.  Whatever
    the fuel, the run is cut short or aborts (once the length of the table
    has reached 2^31). *)
Theorem putif_never_returns_when_crowded s a h k val oldval ks :
  quiet s a h -> k <> null -> crowded h k ks ->
  forall fuel r s', hashmap_putif fuel k val oldval s <> Ok r s'.
Proof.
  intros Hq Hkn Hc fuel r s' E. unfold hashmap_putif in E. cbv zeta in E.
  fold (put_engine fuel k val oldval) in E.
  rewrite (bind_ok _ _ _ _ _ (getkvs_eq s)) in E.
  pose proof Hq as (Hk & _). rewrite Hk in E.
  apply bind_inv in E as (res & s1 & E1 & E).
  destruct (engine_crowded fuel k val oldval ks Hkn _ _ _ _ _ Hq Hc E1) as (-> & h1 & Hpost).
  exact (retry_crowded fuel k val oldval ks Hkn fuel _ _ _ _ _ _ _ Hq Hpost Hc E).
Qed.

(** ** Runs of puts, and a test for crowded tables *)

Fixpoint put_all (fuel : nat) (l : list (ptr * ptr)) (s : mem) : option mem :=
  match l with
  | [] => Some s
  | (k, v) :: l =>
      match hashmap_putif fuel k v IGNORE s with
      | Ok _ s' => put_all fuel l s'
      | _ => None
      end
  end.

Definition may_put (kv : ptr * ptr) : bool :=
  negb (ptr_eqb (fst kv) null) && negb (ptr_eqb (fst kv) SIZED)
  && negb (ptr_eqb (snd kv) SIZED).

Lemma reach_put_all fuel l :
  forall vs s s', reach vs s -> forallb may_put l = true ->
  put_all fuel l s = Some s' -> exists vs', reach vs' s'.
Proof.
  induction l as [|[k v] l IH]; intros vs s s' Hr Hl E; cbn [put_all] in E.
  - injection E as <-. eauto.
  - cbn [forallb] in Hl. apply andb_true_iff in Hl as [Hkv Hl].
    unfold may_put in Hkv. cbn [fst snd] in Hkv.
    apply andb_true_iff in Hkv as [Hkv Hv]. apply andb_true_iff in Hkv as [Hk Hks].
    apply negb_true_iff in Hk, Hks, Hv.
    destruct (hashmap_putif fuel k v IGNORE s) as [r s1| |] eqn:E1; [|done|done].
    apply (IH (v :: vs) s1 s'); [|done|done].
    apply (reach_putif vs s fuel k v IGNORE r s1); try done.
    + intros ->. now rewrite ptr_eqb_refl in Hk.
    + intros ->. now rewrite ptr_eqb_refl in Hks.
    + intros ->. now rewrite ptr_eqb_refl in Hv.
Qed.

Fixpoint distinct (ks : list ptr) : bool :=
  match ks with
  | [] => true
  | k :: ks => forallb (fun k' => negb (equals_func k k')) ks && distinct ks
  end.

Definition crowdedb (h : header) (k : ptr) (ks : list ptr) : bool :=
  (length ks =? Z.to_nat REPROBE_LIMIT)%nat && distinct ks
  && forallb (fun ki => negb (ptr_eqb (lookup h ki) null) && (hash_of ki =? hash_of k)) ks
  && forallb (fun y => negb (holds k y)) (kvs h).

Lemma distinct_lookup ks :
  distinct ks = true ->
  forall i j ki kj, ks !! i = Some ki -> ks !! j = Some kj ->
    equals_func ki kj = true -> i = j.
Proof.
  induction ks as [|k0 ks IH]; intros Hd i j ki kj Hi Hj He.
  - now rewrite lookup_nil in Hi.
  - cbn [distinct] in Hd. apply andb_true_iff in Hd as [Hk0 Hd].
    rewrite forallb_forall in Hk0.
    destruct i as [|i], j as [|j]; cbn in Hi, Hj.
    + reflexivity.
    + injection Hi as ->. apply list_elem_of_lookup_2, list_elem_of_In in Hj.
      specialize (Hk0 kj Hj). now rewrite He in Hk0.
    + injection Hj as ->. apply list_elem_of_lookup_2, list_elem_of_In in Hi.
      specialize (Hk0 ki Hi). now rewrite (equals_sym _ _ He) in Hk0.
    + f_equal. exact (IH Hd i j ki kj Hi Hj He).
Qed.

Lemma crowdedb_crowded h k ks : crowdedb h k ks = true -> crowded h k ks.
Proof.
  unfold crowdedb. rewrite !andb_true_iff, !forallb_forall.
  intros [[[Hlen Hd] Hlive] Habs]. split; [now apply Nat.eqb_eq|]. split; [|split].
  - now apply distinct_lookup.
  - intros i ki Hi. apply list_elem_of_lookup_2, list_elem_of_In in Hi.
    specialize (Hlive ki Hi). apply andb_true_iff in Hlive as [Hl Hh].
    apply negb_true_iff in Hl. split; [|now apply Z.eqb_eq].
    intros E. now rewrite E, ptr_eqb_refl in Hl.
  - intros i y Hy. apply list_elem_of_lookup_2, list_elem_of_In in Hy.
    specialize (Habs y Hy). now apply negb_true_iff in Habs.
Qed.


(** ** Further properties of the code *)

Lemma keys_of_replicate_zero n : keys_of (replicate n zero_entry) = [].
Proof. induction n as [|n IH]; [done|exact IH]. Qed.

(** X3. [hashmap_new] gives an empty map, whatever [malloc] left in the
    table: every key maps to 0, the size is 0, the table has
    [INITIAL_SIZE] slots and [hashmap_free] has no key to free. *)
Theorem new_map_is_empty :
  reach [] hashmap_new /\
  (forall k, maps_to hashmap_new k null) /\
  hashmap_size hashmap_new = Ok 0 hashmap_new /\
  table_len hashmap_new = INITIAL_SIZE /\
  hashmap_free hashmap_new = Ok tt hashmap_new.
Proof.
  pose proof hashmap_new_quiet as Hq.
  split; [constructor|]. split; [|split; [|split]].
  - intros k. replace null with (lookup new_table k); [now apply (maps_to_quiet _ 0%nat)|].
    apply lookup_absent. intros i y Hy. apply lookup_replicate in Hy as [-> _]. reflexivity.
  - rewrite (hashmap_size_quiet _ _ _ Hq). unfold new_table. cbn [kvs].
    now rewrite count_if_replicate_zero.
  - now rewrite (table_len_quiet _ _ _ Hq).
  - rewrite (hashmap_free_quiet _ _ _ Hq). unfold new_table. cbn [kvs].
    now rewrite keys_of_replicate_zero.
Qed.

Lemma keys_of_NoDup (l : list entry) :
  (forall i j x y, l !! i = Some x -> l !! j = Some y ->
     _key x <> null -> _key x = _key y -> i = j) ->
  NoDup (keys_of l).
Proof.
  induction l as [|x l IH]; intros Hu; cbn [keys_of]; [constructor|].
  assert (Hl : NoDup (keys_of l)).
  { apply IH. intros i j y z Hy Hz Hn E.
    assert (S i = S j) by (apply (Hu (S i) (S j) y z); done). lia. }
  destruct (ptr_eqb (_key x) null) eqn:E; [exact Hl|].
  assert (_key x <> null) as Hx by (intros Hx; rewrite Hx, ptr_eqb_refl in E; done).
  constructor; [|exact Hl].
  intros Hin. apply list_elem_of_In, keys_of_In in Hin as (i & y & Hy & Hk & _).
  assert (0%nat = S i) by (apply (Hu 0%nat (S i) x y); done). lia.
Qed.

(** X4. After any history, [hashmap_free] passes to the destructor the
    keys of the claimed slots of the current table, each pointer once,
    from the last slot down (the log, latest first, reads in slot order),
    and changes nothing else in the store.  No two of those keys are
    equal, and every key mapped to a value other than 0 has its equal
    among them. *)
Theorem free_frees_each_held_key_once vs s :
  reach vs s ->
  exists a h,
    quiet s a h /\
    hashmap_free s = Ok tt (mk_mem (hmap s) (heap s) (keys_of (kvs h) ++ freed s)) /\
    NoDup (keys_of (kvs h)) /\
    (forall k k', In k (keys_of (kvs h)) -> In k' (keys_of (kvs h)) ->
       equals_func k k' = true -> k = k') /\
    (forall k, In k (keys_of (kvs h)) <->
       exists i x, kvs h !! i = Some x /\ _key x = k /\ k <> null) /\
    (forall k v, maps_to s k v -> v <> null ->
       exists k', In k' (keys_of (kvs h)) /\ equals_func k' k = true).
Proof.
  intros Hr. destruct (reach_quiet _ _ Hr) as (a & h & Hq & _).
  pose proof Hq as (_ & _ & _ & Hok & _).
  exists a, h. split; [done|]. split; [now apply (hashmap_free_quiet s a h)|].
  split; [|split; [|split]].
  - apply keys_of_NoDup. intros i j x y Hx Hy Hn E.
    apply (ok_uniq h Hok i j x y Hx Hy Hn); [congruence|].
    rewrite <- E. apply equals_refl.
  - intros k k' Hk Hk' He.
    apply keys_of_In in Hk as (i & x & Hx & <- & Hn).
    apply keys_of_In in Hk' as (j & y & Hy & <- & Hn').
    assert (i = j) as -> by (apply (ok_uniq h Hok i j x y); done).
    congruence.
  - apply keys_of_In.
  - intros k v Hm Hv. rewrite (maps_to_lookup _ _ _ _ _ Hq Hm) in Hv.
    destruct (holds_dec h k) as [(i & x & Hx & Hh)|Habs].
    + apply holds_inv in Hh as [Hn He]. exists (_key x). split; [|done].
      apply keys_of_In. eauto.
    + now rewrite (lookup_absent h k Habs) in Hv.
Qed.

(** X5. After any history, a [hashmap_putif] with oldval IGNORE that
    returns has returned the value the key had before, and leaves every
    key that is not equal to it mapped as it was. *)
Theorem put_returns_previous_and_keeps_others vs s fuel k v r s' :
  reach vs s -> k <> null -> k <> SIZED -> v <> SIZED ->
  hashmap_putif fuel k v IGNORE s = Ok r s' ->
  maps_to s k r /\
  forall k' v', equals_func k k' = false -> maps_to s k' v' -> maps_to s' k' v'.
Proof.
  intros Hr Hkn Hks Hvs E.
  destruct (reach_quiet _ _ Hr) as (a & h & Hq & _).
  destruct (hashmap_putif_post fuel k v IGNORE Hkn Hks Hvs s a h r s' Hq E)
    as (a' & h' & Hq' & -> & Hl & _).
  split; [now apply (maps_to_quiet s a)|].
  intros k' v' Hne Hm. rewrite (maps_to_lookup _ _ _ _ _ Hq Hm).
  replace (lookup h k') with (lookup h' k'); [now apply (maps_to_quiet s' a')|].
  now rewrite Hl, Hne.
Qed.

(** X6. After any history, [hashmap_get] changes nothing in the store, and
    equal keys get the same answer: if the call for [k] returns [r], the
    store is as before and every key equal to [k] maps to [r]. *)
Theorem get_is_read_only vs s fuel k r s' :
  reach vs s -> hashmap_get fuel k s = Ok r s' ->
  s' = s /\ forall k', equals_func k k' = true -> maps_to s k' r.
Proof.
  intros Hr E. destruct (reach_quiet _ _ Hr) as (a & h & Hq & _).
  destruct (hashmap_get_post _ _ _ _ _ _ _ Hq E) as [-> ->]. split; [done|].
  intros k' He. pose proof Hq as (_ & _ & _ & Hok & _).
  rewrite <- (lookup_equals h k k' Hok He). now apply (maps_to_quiet s a).
Qed.

(** X10. The loop [while (_zero_block(nkvs));] run on a table just
    allocated, of any length below 2^32 and with anything in its slots,
    ends after one call more than there are blocks, and leaves every slot
    zero; nothing else in the store changes. *)
Theorem zero_blocks_clear_the_table s b nl junk fuel :
  1 <= nl < 2 ^ 32 -> length junk = Z.to_nat nl ->
  heap s !! b = Some (mk_header 0 nl 0 junk) ->
  (Z.to_nat (blocks_todo nl) < fuel)%nat ->
  zero_all fuel (Tbl b) s
  = Ok tt (upd_heap b (mk_header (blocks_todo nl + 1) nl (blocks_todo nl)
                         (replicate (Z.to_nat nl) zero_entry)) s) /\
  zero_all (Z.to_nat (blocks_todo nl)) (Tbl b) s = Spin.
Proof.
  intros Hnl Hjunk Hh Hf.
  pose proof (blocks_todo_range nl Hnl) as Ht.
  assert (Hz0 : zeroing nl junk 0 = mk_header 0 nl 0 junk)
    by (unfold zeroing; rewrite Z.mul_0_l, Z.min_l by lia; reflexivity).
  rewrite <- Hz0 in Hh. split.
  - apply (zero_all_from b nl junk Hnl Hjunk s 0 fuel Hh); lia.
  - clear Hf. assert (Hgen : forall n s j,
        heap s !! b = Some (zeroing nl junk j) -> 0 <= j ->
        Z.of_nat n + j = blocks_todo nl -> zero_all n (Tbl b) s = Spin).
    { induction n as [|n IH]; intros s0 j Hh0 Hj Hn; [reflexivity|].
      cbn [zero_all].
      erewrite bind_ok by (apply (zero_block_more b nl junk Hnl Hjunk); [done|lia]).
      change (1 =? 0) with false. cbv iota.
      apply (IH _ (j + 1)); [eapply heap_upd_eq; eauto|lia|lia]. }
    apply (Hgen _ s 0 Hh); lia.
Qed.

(** X11. [_help_resize] on a map on which no resize is under way: called
    with a table that is not the current one it returns at once and
    touches nothing; called with the current table it runs the resize
    itself, after which the map is quiet on a new table and every key maps
    to what it did. *)
Theorem help_resize_on_quiet_map s a h fuel :
  quiet s a h -> len h < 2 ^ 31 -> (Z.to_nat (2 * len h) < fuel)%nat ->
  (forall okvs, okvs <> Tbl a -> _help_resize fuel okvs s = Ok tt s) /\
  exists s' h',
    _help_resize fuel (Tbl a) s = Ok tt s' /\
    quiet s' (length (heap s)) h' /\
    forall k v, maps_to s k v -> maps_to s' k v.
Proof.
  intros Hq Hlt Hf. pose proof Hq as (Hk & Hn & _). split.
  - intros okvs Hne. apply help_resize_moved. congruence.
  - destruct (resize_quiet s a h fuel Hq Hf) as [[_ Hbad]|(s' & h' & E & Hpost)]; [lia|].
    destruct Hpost as (Hq' & Hl & _).
    exists s', h'. split; [|split; [done|]].
    + unfold _help_resize. erewrite bind_ok by apply get_map_eq.
      rewrite Hk, hptr_eqb_refl. cbn [negb]. cbv iota. rewrite Hn.
      destruct fuel as [|f]; [lia|].
      rewrite (bind_ok _ _ s None s'); [reflexivity|].
      cbn [help_wait]. rewrite hptr_eqb_refl. cbn [orb]. cbv iota.
      erewrite bind_ok by apply get_map_eq.
      rewrite Hk, hptr_eqb_refl. cbn [negb]. cbv iota.
      erewrite bind_ok by exact E. reflexivity.
    + intros k v Hm. rewrite (maps_to_lookup _ _ _ _ _ Hq Hm), <- Hl.
      now apply (maps_to_quiet s' (length (heap s))).
Qed.


(** X7. An update through a second pointer: [hashmap_putif] for a key
    that a slot holds, among the first 17 of its chain, with oldval IGNORE
    or the value of that slot, returns that value, writes the new one, and
    passes the caller's pointer to the destructor, once; the slot keeps the
    pointer it had.  Nothing else in the tables changes. *)
Theorem update_frees_the_callers_key s a h fuel k v oldval i x :
  quiet s a h -> k <> null -> v <> SIZED ->
  kvs h !! i = Some x -> holds k x = true ->
  oldval = IGNORE \/ _val x = oldval ->
  misses h k (hash_of k) (Z.to_nat REPROBE_LIMIT) = false -> (18 <= fuel)%nat ->
  exists s',
    hashmap_putif fuel k v oldval s = Ok (_val x) s' /\
    freed s' = k :: freed s /\
    heap s' = <[a := put_slot h i (set_val v x)]> (heap s) /\
    quiet s' a (put_slot h i (set_val v x)) /\
    _key (set_val v x) = _key x.
Proof.
  intros Hq Hkn Hvs Hx Hkx Hold Hroom Hfuel.
  pose proof Hq as (Hk & Hn & Hh & Hok & H4 & Hsz).
  pose proof (ok_len h Hok) as HL. pose proof (hash_of_nonzero k) as Hz.
  destruct (chain_to_slot h Hok k i x Hx Hkx) as (d & Hd & Hi & Hp & Hm & Hhit).
  pose proof (holds_inv _ _ Hkx) as [Hxn Hxe].
  destruct (ok_wf h Hok i x Hx) as [_ Hw]. destruct (Hw Hxn) as (_ & Hxs & _).
  assert (Hlt : (d < 17)%nat).
  { destruct (Nat.lt_ge_cases d 17) as [|Hge]; [done|].
    change (Z.to_nat REPROBE_LIMIT) with 17%nat in Hroom.
    rewrite (misses_le h k (hash_of k) d 17 Hge Hm) in Hroom. done. }
  set (idx := probe_idx (hash_of k) (len h) d) in *.
  assert (Hii : Z.to_nat idx = i) by lia.
  assert (Hxi : kvs h !! Z.to_nat idx = Some x) by (now rewrite Hii).
  exists (after_cas false true a h idx x k v s).
  split; [|split; [|split; [|split]]].
  - unfold hashmap_putif. cbv zeta.
    rewrite (bind_ok _ _ _ _ _ (getkvs_eq s)), Hk.
    rewrite (bind_ok _ _ s (_val x) (after_cas false true a h idx x k v s)).
    + now apply retry_done.
    + rewrite (putif_at_hit (_resize fuel) s a h Hh HL fuel false k (hash_of k) v oldval
                 d x); try done; [|unfold REPROBE_LIMIT; lia|lia].
      destruct fuel as [|f]; [lia|].
      apply putif_value_won; auto; [lia|]. right. right. split; auto.
  - reflexivity.
  - unfold after_cas. cbn [log_free heap with_map upd_slots upd_heap]. now rewrite Hii.
  - rewrite <- Hii. apply quiet_after_cas; auto. lia.
  - reflexivity.
Qed.

(** X8. An insert: [hashmap_putif] of a value other than 0, with oldval
    IGNORE or 0, for a key that no slot holds and with a free slot among
    the first 17 of its chain, returns 0 and writes the caller's pointer,
    the hash and the value into the first free slot of the chain.  The
    destructor is not called: the map now holds the caller's key. *)
Theorem insert_stores_the_callers_key s a h fuel k v oldval :
  quiet s a h -> k <> null -> k <> SIZED -> v <> null -> v <> SIZED ->
  oldval = IGNORE \/ oldval = null ->
  (forall i y, kvs h !! i = Some y -> holds k y = false) ->
  misses h k (hash_of k) (Z.to_nat REPROBE_LIMIT) = false -> (18 <= fuel)%nat ->
  exists d x,
    (d < Z.to_nat REPROBE_LIMIT)%nat /\ misses h k (hash_of k) d = true /\
    probed h (hash_of k) d = Some x /\ _key x = null /\
    let i := Z.to_nat (probe_idx (hash_of k) (len h) d) in
    let h' := put_slot h i (mk_entry k v (hash_of k)) in
    exists s',
      hashmap_putif fuel k v oldval s = Ok null s' /\
      freed s' = freed s /\
      heap s' = <[a := h']> (heap s) /\
      quiet s' a h'.
Proof.
  intros Hq Hkn Hks Hvn Hvs Hold Habs Hroom Hfuel.
  pose proof Hq as (Hk & Hn & Hh & Hok & H4 & Hsz).
  pose proof (ok_len h Hok) as HL. pose proof (hash_of_nonzero k) as Hz.
  destruct (chain_to_free h Hok k 17 Habs) as [Hm|(d & x & Hd & Hm & Hx & Hf)];
    [change 17%nat with (Z.to_nat REPROBE_LIMIT) in Hm; congruence|].
  exists d, x. split; [exact Hd|]. split; [exact Hm|]. split; [exact Hx|].
  split; [exact Hf|]. cbv zeta.
  assert (x = zero_entry) as -> by (eapply wf_free_zero; eauto).
  set (idx := probe_idx (hash_of k) (len h) d) in *.
  set (x1 := mk_entry k null (hash_of k)).
  set (h1 := put_slot h (Z.to_nat idx) x1).
  set (s1 := upd_slots a h (<[Z.to_nat idx := x1]> (kvs h)) s).
  assert (Hq1 : quiet s1 a h1) by (eapply (quiet_claim s a h k d); eauto).
  pose proof Hq1 as (Hk1 & Hn1 & Hh1 & Hok1 & _).
  assert (Hx1 : kvs h1 !! Z.to_nat idx = Some x1) by (eapply put_slot_lookup_eq; exact Hx).
  assert (Hidx : 0 <= idx) by (pose proof (probe_idx_range (hash_of k) (len h) d HL); lia).
  assert (Hdr : delete_request v oldval = false).
  { unfold delete_request. now rewrite (ptr_eqb_ne _ _ Hvn). }
  assert (Hh2 : put_slot h1 (Z.to_nat idx) (set_val v x1)
                = put_slot h (Z.to_nat idx) (mk_entry k v (hash_of k))).
  { unfold put_slot, h1, set_slots. cbn [kvs put_slot set_slots _btodo len _bdone].
    now rewrite list_insert_insert_eq. }
  exists (after_cas false false a h1 idx x1 k v s1).
  split; [|split; [|split]].
  - unfold hashmap_putif. cbv zeta.
    rewrite (bind_ok _ _ _ _ _ (getkvs_eq s)), Hk.
    rewrite (bind_ok _ _ s null (after_cas false false a h1 idx x1 k v s1)).
    + now apply retry_done.
    + rewrite (putif_at_free (_resize fuel) s a h Hh HL fuel false k (hash_of k) v oldval
                 d zero_entry); try done; [|unfold REPROBE_LIMIT; lia|lia].
      rewrite Hdr. destruct fuel as [|f]; [lia|].
      assert (Hold' : oldval = IGNORE \/ _val x1 = oldval)
        by (destruct Hold as [-> | ->]; [now left|now right]).
      exact (putif_value_won f false false s1 a h1 idx x1 k v oldval Hh1 Hidx Hx1
               ltac:(done) ltac:(right; left; reflexivity) Hold').
  - reflexivity.
  - unfold after_cas. cbn [heap with_map upd_slots upd_heap s1].
    rewrite list_insert_insert_eq. f_equal. exact Hh2.
  - rewrite <- Hh2. apply quiet_after_cas; auto.
Qed.

(** ** The length of the table over a history *)

Section Capacity.

Variables (fuel : nat) (k val oldval : ptr).
Hypothesis Hkn : k <> null.
Hypothesis Hks : k <> SIZED.
Hypothesis Hvs : val <> SIZED.

Lemma resize_post_len s a h s1 h1 :
  quiet s a h -> resize_post s h s1 h1 -> len h <= len h1.
Proof.
  intros Hq (Hq1 & _ & _ & Hlen & _).
  pose proof Hq as (_ & _ & _ & Hok & _). pose proof Hq1 as (_ & _ & _ & Hok1 & _).
  pose proof (pow2_len_range _ (ok_len _ Hok1)) as Hr1.
  destruct (next_len_cases (changes (hmap s)) (to_int (_size (hmap s))) (len h)
              (ok_len _ Hok)) as [E|[[E _]|[E _]]]; rewrite E in Hlen; lia.
Qed.

Lemma retry_len fuel' :
  forall s a h res s1 r s',
  quiet s a h ->
  (res = lookup h k /\ exists h', round_post a h k val oldval s1 h') \/
  (res = SIZED /\ exists h1, resize_post s h s1 h1) ->
  retry fuel fuel' (put_engine fuel k val oldval) (Tbl a) res s1 = Ok r s' ->
  exists a' h', quiet s' a' h' /\ len h <= len h'.
Proof.
  induction fuel' as [|fuel' IH]; intros s a h res s1 r s' Hq Hres E.
  - destruct Hres as [[-> (h' & Hq' & Hlen & _)]|[-> _]].
    + rewrite retry_done in E by (apply lookup_not_sized; apply Hq).
      injection E as <- <-. exists a, h'. split; [done|lia].
    + cbn [retry] in E. rewrite ptr_eqb_refl in E. done.
  - destruct Hres as [[-> (h' & Hq' & Hlen & _)]|[-> (h1 & Hpost)]].
    + rewrite retry_done in E by (apply lookup_not_sized; apply Hq).
      injection E as <- <-. exists a, h'. split; [done|lia].
    + pose proof (resize_post_len s a h s1 h1 Hq Hpost) as Hle.
      pose proof Hpost as (Hq1 & _).
      cbn [retry] in E. rewrite ptr_eqb_refl in E.
      pose proof Hq as (_ & _ & Hh & _). pose proof Hq1 as (Hk1 & _).
      rewrite bind_ok with (a := tt) (s' := s1) in E.
      2:{ apply help_resize_moved. rewrite Hk1. apply lookup_lt_Some in Hh.
          intros [= Eab]. lia. }
      rewrite (bind_ok _ _ _ _ _ (getkvs_eq s1)), Hk1 in E.
      apply bind_inv in E as (res2 & s2 & E2 & E).
      pose proof (engine_outcome fuel k val oldval Hkn Hks Hvs _ _ _ _ _ Hq1 E2) as Hout.
      assert (Hout' : (res2 = lookup h1 k
                       /\ exists h', round_post (length (heap s)) h1 k val oldval s2 h')
                      \/ (res2 = SIZED /\ exists h2, resize_post s1 h1 s2 h2)).
      { destruct Hout as [?|(? & _ & ?)]; [now left|now right]. }
      destruct (IH _ _ _ _ _ _ _ Hq1 Hout' E) as (a' & h' & Hq' & Hle').
      exists a', h'. split; [done|lia].
Qed.

Lemma hashmap_putif_len s a h r s' :
  quiet s a h -> hashmap_putif fuel k val oldval s = Ok r s' ->
  exists a' h', quiet s' a' h' /\ len h <= len h'.
Proof.
  intros Hq E. unfold hashmap_putif in E. cbv zeta in E.
  fold (put_engine fuel k val oldval) in E.
  rewrite (bind_ok _ _ _ _ _ (getkvs_eq s)) in E.
  pose proof Hq as (Hk & _). rewrite Hk in E.
  apply bind_inv in E as (res & s1 & E1 & E).
  pose proof (engine_outcome fuel k val oldval Hkn Hks Hvs _ _ _ _ _ Hq E1) as Hout.
  eapply retry_len; [exact Hq| |exact E].
  destruct Hout as [?|(? & _ & ?)]; [now left|now right].
Qed.

End Capacity.

(** X9. After any history the current table has 2^n slots, with n from 2 to
    31, [hashmap_size] is at most that number, and a [hashmap_putif] that
    returns leaves a table at least as long: the table never shrinks. *)
Theorem capacity_never_shrinks vs s :
  reach vs s ->
  (exists n, 2 <= n <= 31 /\ table_len s = 2 ^ n) /\
  (exists sz, hashmap_size s = Ok sz s /\ sz <= table_len s) /\
  forall fuel k v o r s', k <> null -> k <> SIZED -> v <> SIZED ->
    hashmap_putif fuel k v o s = Ok r s' -> table_len s <= table_len s'.
Proof.
  intros Hr. destruct (reach_quiet _ _ Hr) as (a & h & Hq & _).
  pose proof Hq as (_ & _ & _ & Hok & H4 & _).
  rewrite (table_len_quiet _ _ _ Hq). split; [|split].
  - destruct (ok_len h Hok) as (n & Hn & E). exists n. split; [|done].
    split; [|lia]. destruct (Z.le_gt_cases 2 n) as [|Hlt]; [done|].
    assert (2 ^ n <= 2 ^ 1) by (apply Z.pow_le_mono_r; lia). lia.
  - exists (count_if is_live (kvs h)). split; [now apply (hashmap_size_quiet s a)|].
    pose proof (count_if_bounds is_live (kvs h)) as Hb.
    rewrite (ok_length h Hok) in Hb. lia.
  - intros fuel k v o r s' Hkn Hks Hvs E.
    destruct (hashmap_putif_len fuel k v o Hkn Hks Hvs s a h r s' Hq E)
      as (a' & h' & Hq' & Hle).
    now rewrite (table_len_quiet _ _ _ Hq').
Qed.


(** ** The destructor during a resize *)

(** A slot with a key and the value 0: a deleted entry. *)
Definition is_tomb (x : entry) : bool := is_occ x && ptr_eqb (_val x) null.

(** The keys of the deleted entries, in slot order. *)
Fixpoint tombs (l : list entry) : list ptr :=
  match l with
  | [] => []
  | x :: l => if is_tomb x then _key x :: tombs l else tombs l
  end.

Lemma tombs_app l l' : tombs (l ++ l') = tombs l ++ tombs l'.
Proof.
  induction l as [|x l IH]; simpl; [done|].
  destruct (is_tomb x); simpl; now rewrite IH.
Qed.

Lemma tombs_take_S (l : list entry) n x :
  l !! n = Some x ->
  tombs (take (S n) l) = tombs (take n l) ++ (if is_tomb x then [_key x] else []).
Proof.
  intros Hx. rewrite (take_S_r _ _ _ Hx), tombs_app. cbn [tombs].
  now destruct (is_tomb x).
Qed.

Lemma tombs_In l k :
  In k (tombs l) <->
  exists i x, l !! i = Some x /\ _key x = k /\ k <> null /\ _val x = null.
Proof.
  induction l as [|x l IH]; cbn [tombs].
  - split; [done|]. intros (i & y & Hy & _). now rewrite lookup_nil in Hy.
  - assert (Hx : is_tomb x = true <-> _key x <> null /\ _val x = null).
    { unfold is_tomb, is_occ. rewrite andb_true_iff, negb_true_iff, ptr_eqb_eq.
      split; intros [H1 H2]; (split; [|done]).
      - intros E. now rewrite E, ptr_eqb_refl in H1.
      - now apply ptr_eqb_ne. }
    destruct (is_tomb x) eqn:E.
    + destruct (proj1 Hx eq_refl) as [Hk Hv]. cbn [In]. rewrite IH. split.
      * intros [<- | (i & y & Hy & H)]; [exists 0%nat, x; done|exists (S i), y; done].
      * intros ([|i] & y & Hy & Hyk & H); cbn in Hy.
        -- injection Hy as ->. now left.
        -- right. exists i, y. done.
    + rewrite IH. split.
      * intros (i & y & Hy & H). exists (S i), y. done.
      * intros ([|i] & y & Hy & Hyk & Hn & Hv); cbn in Hy.
        -- injection Hy as ->. subst k.
           assert (false = true) by (now apply Hx). done.
        -- exists i, y. done.
Qed.

Section CopyLog.

Variables (a b : nat) (oh : header) (nl : Z) (m0 : HashMap) (f0 : list ptr).
Hypothesis Hab : a <> b.
Hypothesis Hoh : tbl_ok oh.
Hypothesis Hnl : pow2_len nl.
Hypothesis Hle : len oh <= nl.

(** [copying], and the destructor has been called for the deleted keys
    among the first [n] old slots, the last one first. *)
Definition copying_log (s : mem) (bt bd : Z) (n : nat) (nh : header) : Prop :=
  copying a b oh nl m0 s bt bd n nh /\
  freed s = rev (tombs (take n (kvs oh))) ++ f0.

Lemma copy_slot_freed s bt bd n nh fuel x :
  copying a b oh nl m0 s bt bd n nh -> kvs oh !! n = Some x ->
  (Z.to_nat nl < fuel)%nat ->
  exists s',
    copy_slot fuel fuel (Tbl a) (Tbl b) (Tbl a, Z.of_nat n) s = Ok tt s'
    /\ freed s' = if is_tomb x then _key x :: freed s else freed s.
Proof.
  intros Hc Hx Hf. pose proof Hc as [Hold Hnew Hok Hlen Hin Hfrom Hcnt Hmap].
  assert (Hn : (n < length (kvs oh))%nat) by (eapply lookup_lt_Some; eauto).
  set (oh1 := mk_header bt (len oh) bd (marked n (kvs oh))) in *.
  assert (Hcur : kvs oh1 !! Z.to_nat (Z.of_nat n) = Some x).
  { rewrite Nat2Z.id. simpl. now rewrite marked_lookup. }
  destruct fuel as [|fuel']; [lia|]. cbn [copy_slot].
  erewrite bind_ok by (eapply getkey_eq; eauto; lia).
  unfold is_tomb, is_occ.
  destruct (decide (_key x = null)) as [Hk|Hk].
  - rewrite Hk, ptr_eqb_refl. cbn [negb andb]. cbv iota.
    erewrite bind_ok by (rewrite <- Hk; eapply cas_key_won; eauto; lia).
    cbv iota. eexists. split; reflexivity.
  - destruct (ok_wf oh Hoh n x Hx) as [_ Hw]. destruct (Hw Hk) as (Hks & Hvs & Hhash).
    rewrite (ptr_eqb_ne _ _ Hk). cbn [negb andb]. cbv iota.
    erewrite bind_ok by (eapply getval_eq; eauto; lia).
    erewrite bind_ok by (eapply cas_val_won; eauto; lia).
    cbv iota.
    set (l1 := <[Z.to_nat (Z.of_nat n) := set_val SIZED x]> (kvs oh1)).
    set (s1 := upd_slots a oh1 l1 s).
    assert (Hh1 : heap s1 !! a = Some (set_slots l1 oh1)).
    { unfold s1, upd_slots. eapply heap_upd_eq; eauto. }
    assert (Hx1 : kvs (set_slots l1 oh1) !! Z.to_nat (Z.of_nat n) = Some (set_val SIZED x)).
    { simpl. unfold l1. apply list_lookup_insert_eq.
      rewrite Nat2Z.id. simpl. now rewrite marked_length. }
    assert (Hb1 : heap s1 !! b = Some nh).
    { unfold s1, upd_slots. now rewrite heap_upd_ne. }
    erewrite bind_ok.
    2:{ eapply gethash_eq; eauto; [lia|]. simpl. rewrite Hhash. apply hash_of_nonzero. }
    cbn [_hash set_val]. rewrite Hhash.
    assert (Habs : forall i y, kvs nh !! i = Some y -> holds (_key x) y = false).
    { intros i y Hy. destruct (holds (_key x) y) eqn:E; [|done]. exfalso.
      apply holds_inv in E as [Hyn Hye].
      destruct (Hfrom i y Hy Hyn) as (j & Hj & Hjy & _).
      assert (j = n); [|lia]. eapply (ok_uniq oh Hoh); eauto. }
    destruct (copying_free_slot a b oh nl m0 Hab Hoh Hle s bt bd n nh (_key x) Hc Hn Habs)
      as (d & xf & Hd & Hm & Hxf & Hxfk).
    assert (xf = zero_entry) as -> by (eapply wf_free_zero; eauto).
    pose proof (ok_len nh Hok) as HLn.
    erewrite bind_eq.
    2:{ apply (putif_at_free (fun _ => abort) s1 b nh Hb1 HLn (S fuel') true (_key x)
                 (hash_of (_key x)) (_val x) null d zero_entry);
          try done; [apply hash_of_nonzero|lia]. }
    unfold delete_request. rewrite (ptr_eqb_ne null IGNORE) by done.
    rewrite ptr_eqb_refl. cbn [orb]. rewrite andb_true_r.
    set (idx := probe_idx (hash_of (_key x)) (len nh) d) in *.
    set (x1 := mk_entry (_key x) null (hash_of (_key x))) in *.
    change (_val zero_entry) with null.
    destruct (ptr_eqb (_val x) null) eqn:Ev.
    + rewrite ptr_eqb_refl. unfold when.
      erewrite bind_ok.
      2:{ change (_key x) with (_key (set_val SIZED x)).
          eapply cas_key_won; eauto; lia. }
      cbv iota. eexists. split; reflexivity.
    + set (h1 := put_slot nh (Z.to_nat idx) x1).
      assert (Hx1' : kvs h1 !! Z.to_nat idx = Some x1).
      { eapply put_slot_lookup_eq. exact Hxf. }
      rewrite (putif_value_won fuel' true false _ b h1 idx x1);
        [|unfold upd_slots; eapply heap_upd_eq; eauto
         |pose proof (probe_idx_range (hash_of (_key x)) (len nh) d HLn); lia
         |exact Hx1'|done|now left|now right].
      cbn [_val x1]. rewrite (ptr_eqb_ne null DELETED) by done. unfold when.
      eexists. split; reflexivity.
Qed.

Lemma copy_slot_step_log s bt bd n nh fuel :
  copying_log s bt bd n nh -> (n < length (kvs oh))%nat -> (Z.to_nat nl < fuel)%nat ->
  exists s' nh',
    copy_slot fuel fuel (Tbl a) (Tbl b) (Tbl a, Z.of_nat n) s = Ok tt s'
    /\ copying_log s' bt bd (S n) nh'.
Proof.
  intros [Hc Hfr] Hn Hf. destruct (lookup_lt_is_Some_2 _ _ Hn) as [x Hx].
  destruct (copy_slot_step a b oh nl m0 Hab Hoh Hle s bt bd n nh fuel Hc Hn Hf)
    as (s' & nh' & E & Hc').
  destruct (copy_slot_freed s bt bd n nh fuel x Hc Hx Hf) as (s2 & E2 & Hf2).
  assert (s2 = s') as -> by congruence.
  exists s', nh'. split; [done|]. split; [done|].
  rewrite Hf2, (tombs_take_S _ _ _ Hx), Hfr.
  destruct (is_tomb x); [|now rewrite app_nil_r].
  now rewrite rev_app_distr.
Qed.

Lemma copying_log_counters s bt bd bt' bd' n nh :
  copying_log s bt bd n nh ->
  copying_log (upd_heap a (mk_header bt' (len oh) bd' (marked n (kvs oh))) s) bt' bd' n nh.
Proof.
  intros [Hc Hfr]. split; [|exact Hfr].
  exact (copying_counters a b oh nl m0 Hab s bt bd bt' bd' n nh Hc).
Qed.

Lemma copy_slots_log fuel m :
  (Z.to_nat nl < fuel)%nat ->
  forall s bt bd n nh,
  copying_log s bt bd n nh -> (n + m <= length (kvs oh))%nat ->
  exists s' nh',
    copy_slots fuel (Tbl a) (Tbl b) (Z.of_nat n) m s = Ok tt s'
    /\ copying_log s' bt bd (n + m) nh'.
Proof.
  intros Hf. induction m as [|m IH]; intros s bt bd n nh Hc Hn.
  - exists s, nh. rewrite Nat.add_0_r. split; [reflexivity|done].
  - cbn [copy_slots].
    pose proof (ok_length oh Hoh) as Hlen.
    erewrite bind_ok
      by (eapply load_eq; [apply (cp_old _ _ _ _ _ _ _ _ _ _ (proj1 Hc))|simpl; lia]).
    destruct (copy_slot_step_log s bt bd n nh fuel Hc ltac:(lia) Hf)
      as (s1 & nh1 & E1 & Hc1).
    erewrite bind_ok by exact E1.
    destruct (IH s1 bt bd (S n) nh1 Hc1 ltac:(lia)) as (s2 & nh2 & E & Hc2).
    exists s2, nh2. replace (Z.of_nat n + 1) with (Z.of_nat (S n)) by lia.
    rewrite E. split; [reflexivity|]. now replace (n + S m)%nat with (S n + m)%nat by lia.
Qed.

Lemma copy_block_more_log s j nh fuel :
  copying_log s j j (copied oh j) nh -> 0 <= j < blocks_todo (len oh) ->
  (Z.to_nat nl < fuel)%nat ->
  exists s' nh',
    _copy_block fuel (Tbl a) (Tbl b) s = Ok 1 s'
    /\ copying_log s' (j + 1) (j + 1) (copied oh (j + 1)) nh'.
Proof.
  intros Hc Hj Hf. pose proof Hj as [Hj0 Hjt].
  pose proof (old_len_range a b oh Hab Hoh) as HL. pose proof (ok_length oh Hoh) as Hlen.
  pose proof (pow2_len_range _ (ok_len oh Hoh)) as HL'.
  rewrite blocks_todo_lt in Hjt by lia.
  pose proof (blocks_todo_range _ HL) as Htodo.
  pose proof (cp_old _ _ _ _ _ _ _ _ _ _ (proj1 Hc)) as Hold.
  unfold _copy_block.
  rewrite (hptr_eqb_ne (Tbl a) hnull), (hptr_eqb_ne (Tbl b) hnull),
    (hptr_eqb_ne (Tbl b) kvs_promise) by done.
  unfold c_assert at 1 2 3. cbn [negb]. rewrite !bind_ret.
  erewrite bind_ok by (eapply rd_header_eq; exact Hold).
  cbn [len]. rewrite block_asserts2 by done.
  erewrite bind_ok by (eapply faa_btodo_eq; exact Hold).
  cbn [_btodo set_btodo len _bdone kvs].
  destruct (Z.leb_spec (blocks_todo (len oh)) j); [lia|].
  rewrite u64_small by lia.
  pose proof (copying_log_counters s j j (j + 1) j _ nh Hc) as Hc1.
  assert (Hi : to_int (j * BLOCK_SIZE) = Z.of_nat (copied oh j)).
  { unfold copied. rewrite Z.min_l by lia. rewrite to_int_small; unfold BLOCK_SIZE in *; lia. }
  rewrite Hi.
  set (m := Z.to_nat
              (j * BLOCK_SIZE
               + (if len oh <? j * BLOCK_SIZE + BLOCK_SIZE
                  then len oh - j * BLOCK_SIZE else BLOCK_SIZE)
               - Z.of_nat (copied oh j))).
  assert (Hm : (copied oh j + m = copied oh (j + 1))%nat).
  { unfold m, copied, BLOCK_SIZE in *.
    destruct (Z.ltb_spec (len oh) (j * (1024 * 8) + 1024 * 8)); lia. }
  destruct (copy_slots_log fuel m Hf _ _ _ _ _ Hc1) as (s2 & nh2 & E & Hc2).
  { rewrite Hm. unfold copied. lia. }
  erewrite bind_ok by exact E.
  erewrite bind_ok
    by (eapply faa_bdone_eq; apply (cp_old _ _ _ _ _ _ _ _ _ _ (proj1 Hc2))).
  cbn [_btodo set_bdone len _bdone kvs].
  destruct (Z.leb_spec (blocks_todo (len oh)) j); [lia|].
  rewrite u64_small by lia. rewrite Hm.
  eexists _, nh2. split; [reflexivity|].
  eapply copying_log_counters. rewrite <- Hm. exact Hc2.
Qed.

Lemma copy_block_done_log s nh fuel :
  copying_log s (blocks_todo (len oh)) (blocks_todo (len oh)) (length (kvs oh)) nh ->
  exists s',
    _copy_block fuel (Tbl a) (Tbl b) s = Ok 0 s'
    /\ copying_log s' (blocks_todo (len oh) + 1) (blocks_todo (len oh))
         (length (kvs oh)) nh.
Proof.
  intros Hc. pose proof (old_len_range a b oh Hab Hoh) as HL.
  pose proof (blocks_todo_range _ HL) as Htodo.
  pose proof (cp_old _ _ _ _ _ _ _ _ _ _ (proj1 Hc)) as Hold.
  unfold _copy_block.
  rewrite (hptr_eqb_ne (Tbl a) hnull), (hptr_eqb_ne (Tbl b) hnull),
    (hptr_eqb_ne (Tbl b) kvs_promise) by done.
  unfold c_assert at 1 2 3. cbn [negb]. rewrite !bind_ret.
  erewrite bind_ok by (eapply rd_header_eq; exact Hold).
  cbn [len]. rewrite block_asserts2 by done.
  erewrite bind_ok by (eapply faa_btodo_eq; exact Hold).
  cbn [_btodo set_btodo len _bdone kvs].
  destruct (Z.leb_spec (blocks_todo (len oh)) (blocks_todo (len oh))); [|lia].
  rewrite u64_small by lia.
  erewrite bind_ok.
  2:{ eapply wait_bdone_eq; [eapply heap_upd_eq; exact Hold|cbn; lia]. }
  eexists. split; [reflexivity|]. eapply copying_log_counters. exact Hc.
Qed.

Lemma copy_all_log fuel :
  (Z.to_nat nl < fuel)%nat ->
  forall fuel' s j nh,
  copying_log s j j (copied oh j) nh -> 0 <= j <= blocks_todo (len oh) ->
  (Z.to_nat (blocks_todo (len oh) - j) < fuel')%nat ->
  exists s' nh',
    copy_all fuel fuel' (Tbl a) (Tbl b) s = Ok tt s'
    /\ copying_log s' (blocks_todo (len oh) + 1) (blocks_todo (len oh))
         (length (kvs oh)) nh'.
Proof.
  intros Hf. induction fuel' as [|fuel' IH]; intros s j nh Hc Hj Hf'; [lia|].
  cbn [copy_all].
  destruct (Z.eq_dec j (blocks_todo (len oh))) as [->|Hne].
  - rewrite (copied_all a b oh Hab Hoh) in Hc.
    destruct (copy_block_done_log s nh fuel Hc) as (s' & E & Hc').
    erewrite bind_ok by exact E. exists s', nh. split; [reflexivity|done].
  - destruct (copy_block_more_log s j nh fuel Hc ltac:(lia) Hf) as (s1 & nh1 & E & Hc1).
    erewrite bind_ok by exact E. change (1 =? 0) with false. cbv iota.
    apply (IH s1 (j + 1) nh1 Hc1); lia.
Qed.

End CopyLog.

Lemma marked_all (l : list entry) : marked (length l) l = mark <$> l.
Proof. unfold marked. now rewrite take_ge, drop_ge, app_nil_r by lia. Qed.

(** The coordinator again, now with the log of the destructor. *)
Lemma resize_log s a h fuel :
  quiet s a h -> (Z.to_nat (2 * len h) < fuel)%nat ->
  (_resize fuel (Tbl a) s = Abort /\ len h = 2 ^ 31) \/
  exists s' nh,
    _resize fuel (Tbl a) s = Ok SIZED s' /\
    heap s' !! length (heap s) = Some nh /\
    freed s' = rev (tombs (kvs h)) ++ freed s /\
    (forall i z, kvs nh !! i = Some z -> _key z <> null ->
       exists j, kvs h !! j = Some z /\ is_live z = true) /\
    (forall j x, kvs h !! j = Some x -> is_live x = true ->
       lookup nh (_key x) = _val x).
Proof.
  intros Hq Hfuel. pose proof Hq as (Hk & Hn & Hh & Hok & H4 & Hsz).
  pose proof (ok_len h Hok) as HL. pose proof (pow2_len_range _ HL) as HLr.
  pose proof (ok_length h Hok) as Hlen.
  pose proof (count_if_bounds is_live (kvs h)) as Hcb.
  set (m := hmap s) in *.
  set (nl := next_len (changes m) (to_int (_size m)) (len h)).
  set (b := length (heap s)).
  assert (Hab : a <> b).
  { apply lookup_lt_Some in Hh. unfold b. lia. }
  assert (Hcases : (nl = 0 /\ len h = 2 ^ 31) \/
                   (pow2_len nl /\ len h <= nl <= 2 * len h)).
  { destruct (next_len_cases (changes m) (to_int (_size m)) (len h) HL)
      as [Hnl|[[Hnl Hp2]|[Hnl Hbad]]]; fold nl in Hnl.
    - right. rewrite Hnl. split; [done|lia].
    - right. rewrite Hnl. split; [done|lia].
    - now left. }
  unfold _resize.
  erewrite bind_ok by apply get_map_eq. fold m.
  rewrite Hn, Hk, !hptr_eqb_refl. cbn [negb]. cbv iota.
  erewrite bind_ok by (apply cas_map_nkvs_won; exact Hn).
  cbv iota. erewrite bind_ok by apply get_map_eq.
  cbn [hmap with_map set_nkvs _kvs]. fold m. rewrite Hk, hptr_eqb_refl.
  cbn [negb]. cbv iota.
  erewrite bind_ok.
  2:{ apply (hashmap_size_eq _ (_size m)); [reflexivity|lia]. }
  erewrite bind_ok.
  2:{ eapply rd_header_eq. cbn [heap with_map]. exact Hh. }
  rewrite (u32_small (len h)) by lia.
  erewrite bind_ok by apply get_map_eq.
  cbn [hmap with_map set_nkvs changes]. fold m. fold nl.
  erewrite bind_ok by apply header_new_eq.
  cbn [heap with_map hmap freed]. fold b.
  set (junk := uninit <$> seq 0 (Z.to_nat nl)).
  assert (Hjunk : length junk = Z.to_nat nl).
  { unfold junk. now rewrite length_fmap, length_seq. }
  erewrite bind_ok by (apply c_assert_ok; now rewrite hptr_eqb_ne).
  erewrite bind_ok.
  2:{ eapply rd_header_eq. cbn [heap]. unfold b. apply list_lookup_middle. reflexivity. }
  cbn [len].
  destruct Hcases as [[Hz Hmax]|(Hnlp & Hle & Hle2)].
  { left. rewrite Hz. split; [reflexivity|done]. }
  right.
  pose proof (pow2_len_range _ Hnlp) as Hnlr.
  erewrite bind_ok by (apply c_assert_ok; destruct (Z.eqb_spec nl 0); [lia|done]).
  erewrite bind_ok
    by (eapply rd_header_eq; cbn [heap]; apply lookup_app_l_Some; exact Hh).
  erewrite bind_ok
    by (eapply wr_header_eq; cbn [heap]; apply lookup_app_l_Some; exact Hh).
  erewrite bind_ok by apply upd_map_eq.
  cbn [hmap with_map upd_heap set_nkvs _size changes _kvs heap freed].
  set (m0 := mk_map (_size m) (changes m) (_kvs m) (Tbl b)).
  set (hp := <[a := set_bdone 0 (set_btodo 0 h)]> (heap s ++ [mk_header 0 nl 0 junk])).
  set (s4 := mk_mem m0 hp (freed s)).
  assert (Hz0 : zeroing nl junk 0 = mk_header 0 nl 0 junk)
    by (unfold zeroing; rewrite Z.mul_0_l, Z.min_l by lia; reflexivity).
  assert (Hb4 : heap s4 !! b = Some (zeroing nl junk 0)).
  { rewrite Hz0. cbn [heap s4]. unfold hp. rewrite list_lookup_insert_ne by done.
    unfold b. rewrite list_lookup_middle by reflexivity. reflexivity. }
  assert (Ha4 : heap s4 !! a = Some (set_bdone 0 (set_btodo 0 h))).
  { cbn [heap s4]. unfold hp. apply list_lookup_insert_eq.
    rewrite length_app. apply lookup_lt_Some in Hh. lia. }
  pose proof (blocks_todo_range nl ltac:(lia)) as Htn.
  pose proof (blocks_todo_le nl ltac:(lia)) as Htn'.
  pose proof (blocks_todo_range (len h) ltac:(lia)) as Hth.
  pose proof (blocks_todo_le (len h) ltac:(lia)) as Hth'.
  erewrite bind_ok
    by (apply (zero_all_from b nl junk ltac:(lia) Hjunk s4 0 fuel Hb4); lia).
  set (nhz := mk_header (blocks_todo nl + 1) nl (blocks_todo nl)
                (replicate (Z.to_nat nl) zero_entry)).
  assert (Hcp0 : copied h 0 = 0%nat) by (unfold copied; lia).
  assert (Hc0 : copying_log a b h nl m0 (freed s) (upd_heap b nhz s4) 0 0 (copied h 0) nhz).
  { rewrite Hcp0. split; [|reflexivity]. split.
    - rewrite heap_upd_ne by congruence. rewrite Ha4. now destruct h.
    - eapply heap_upd_eq; eauto.
    - now apply tbl_ok_zero.
    - reflexivity.
    - intros j x Hj; lia.
    - intros i z Hz Hzn. apply lookup_replicate in Hz as [-> _]. done.
    - cbn [take count_if kvs nhz]. apply count_if_replicate_zero.
    - reflexivity. }
  destruct (copy_all_log a b h nl m0 (freed s) Hab Hok Hle fuel ltac:(lia)
              fuel _ 0 nhz Hc0 ltac:(lia) ltac:(lia)) as (s6 & nh' & E6 & Hc6 & Hf6).
  erewrite bind_ok by exact E6.
  pose proof Hc6 as [Hold6 Hnew6 Hok6 Hlen6 Hin6 Hfrom6 Hcnt6 Hmap6].
  erewrite bind_ok by (apply cas_map_kvs_won; rewrite Hmap6; exact Hk).
  cbn [negb]; cbv iota.
  erewrite bind_ok by (apply cas_map_nkvs_won; rewrite Hmap6; reflexivity).
  cbn [negb]; cbv iota.
  erewrite bind_ok by apply upd_map_eq.
  eexists _, nh'. split; [reflexivity|].
  cbn [heap with_map freed]. split; [exact Hnew6|]. split; [|split].
  - rewrite Hf6, take_ge by lia. reflexivity.
  - intros i z Hz Hzn. destruct (Hfrom6 i z Hz Hzn) as (j & _ & Hj & Hl). eauto.
  - intros j x Hx Hl. apply (Hin6 j x); [eapply lookup_lt_Some; eauto|done|done].
Qed.

Lemma tombs_NoDup (l : list entry) :
  (forall i j x y, l !! i = Some x -> l !! j = Some y ->
     _key x <> null -> _key x = _key y -> i = j) ->
  NoDup (tombs l).
Proof.
  induction l as [|x l IH]; intros Hu; cbn [tombs]; [constructor|].
  assert (Hl : NoDup (tombs l)).
  { apply IH. intros i j y z Hy Hz Hn E.
    assert (S i = S j) by (apply (Hu (S i) (S j) y z); done). lia. }
  destruct (is_tomb x) eqn:E; [|exact Hl].
  assert (_key x <> null) as Hx.
  { unfold is_tomb, is_occ in E. apply andb_true_iff in E as [E _].
    intros Hx. now rewrite Hx, ptr_eqb_refl in E. }
  constructor; [|exact Hl].
  intros Hin. apply list_elem_of_In, tombs_In in Hin as (i & y & Hy & Hk & _).
  assert (0%nat = S i) by (apply (Hu 0%nat (S i) x y); done). lia.
Qed.

(** X12. A resize hands every key of the old table to exactly one owner.
    Run on a quiet map below the largest table, [_resize] returns SIZED and
    leaves a quiet map on a new table; it has called the destructor for the
    keys of the deleted entries of the old table, each pointer once, and for
    nothing else; the new table holds the key pointers of the live entries
    and no other; so a key of the old table is either destroyed or in the
    new table, never both. *)
Theorem resize_frees_the_deleted_keys s a h fuel :
  quiet s a h -> len h < 2 ^ 31 -> (Z.to_nat (2 * len h) < fuel)%nat ->
  exists s' h',
    _resize fuel (Tbl a) s = Ok SIZED s' /\
    quiet s' (length (heap s)) h' /\
    freed s' = rev (tombs (kvs h)) ++ freed s /\
    NoDup (tombs (kvs h)) /\
    (forall k, In k (tombs (kvs h)) <->
       exists i x, kvs h !! i = Some x /\ _key x = k /\ k <> null /\ _val x = null) /\
    (forall k, In k (keys_of (kvs h')) <->
       exists i x, kvs h !! i = Some x /\ _key x = k /\ is_live x = true) /\
    (forall k, In k (keys_of (kvs h)) ->
       (In k (tombs (kvs h)) /\ ~ In k (keys_of (kvs h'))) \/
       (In k (keys_of (kvs h')) /\ ~ In k (tombs (kvs h)))).
Proof.
  intros Hq Hmax Hfuel. pose proof Hq as (_ & _ & _ & Hok & _).
  destruct (resize_log s a h fuel Hq Hfuel)
    as [[_ Hbad]|(s' & nh & E & Hnh & Hfr & Hfrom & Hin)]; [lia|].
  destruct (resize_quiet s a h fuel Hq Hfuel) as [[_ Hbad]|(s2 & h' & E2 & Hq' & _)]; [lia|].
  assert (s2 = s') as -> by congruence.
  assert (h' = nh) as ->.
  { destruct Hq' as (_ & _ & Hh' & _). congruence. }
  pose proof Hq' as (_ & _ & _ & Hok' & _).
  assert (Hsame : forall i j x y, kvs h !! i = Some x -> kvs h !! j = Some y ->
                    _key x <> null -> _key x = _key y -> i = j).
  { intros i j x y Hx Hy Hn Exy. apply (ok_uniq h Hok i j x y Hx Hy Hn); [congruence|].
    rewrite <- Exy. apply equals_refl. }
  assert (Hlive : forall x, is_live x = true -> _key x <> null /\ _val x <> null).
  { intros x Hl. unfold is_live in Hl. apply andb_true_iff in Hl as [H1 H2]. split.
    - intros Ek. now rewrite Ek, ptr_eqb_refl in H1.
    - intros Ev. now rewrite Ev, ptr_eqb_refl in H2. }
  assert (Hnew : forall k, In k (keys_of (kvs nh)) <->
                 exists i x, kvs h !! i = Some x /\ _key x = k /\ is_live x = true).
  { intros k. rewrite keys_of_In. split.
    - intros (i & z & Hz & <- & Hzn). destruct (Hfrom i z Hz Hzn) as (j & Hj & Hl). eauto.
    - intros (j & x & Hx & <- & Hl). destruct (Hlive x Hl) as [Hxn Hxv].
      pose proof (Hin j x Hx Hl) as Hlk.
      destruct (holds_dec nh (_key x)) as [(i & z & Hz & Hh)|Habs].
      + apply holds_inv in Hh as [Hzn Hze].
        destruct (Hfrom i z Hz Hzn) as (j' & Hj' & _).
        assert (j' = j) as -> by (apply (ok_uniq h Hok j' j z x); done).
        assert (z = x) as -> by congruence. eauto.
      + rewrite (lookup_absent nh _ Habs) in Hlk. congruence. }
  assert (Hexcl : forall k, In k (tombs (kvs h)) -> In k (keys_of (kvs nh)) -> False).
  { intros k Ht Hk. apply tombs_In in Ht as (i & x & Hx & Hxk & Hkn & Hxv).
    apply Hnew in Hk as (j & y & Hy & Hyk & Hl). destruct (Hlive y Hl) as [Hyn Hyv].
    assert (i = j) as -> by (apply (Hsame i j x y); congruence).
    congruence. }
  exists s', nh. split; [done|]. split; [done|]. split; [done|].
  split; [now apply tombs_NoDup|]. split; [apply tombs_In|]. split; [exact Hnew|].
  intros k Hk. apply keys_of_In in Hk as (i & x & Hx & Hxk & Hkn).
  destruct (ptr_eqb (_val x) null) eqn:Ev.
  - apply ptr_eqb_eq in Ev.
    assert (Ht : In k (tombs (kvs h))) by (apply tombs_In; eauto 6).
    left. split; [done|]. intros Hk. exact (Hexcl k Ht Hk).
  - assert (Hn : In k (keys_of (kvs nh))).
    { apply Hnew. exists i, x. split; [done|]. split; [done|].
      unfold is_live. rewrite Ev. subst k. now rewrite (ptr_eqb_ne _ _ Hkn). }
    right. split; [done|]. intros Ht. exact (Hexcl k Ht Hn).
Qed.


(** ** Who answers for a key *)

(** The key pointers the map has taken from its callers and not lost: the
    keys of the claimed slots of the current table, then those it has
    passed to the destructor. *)
Definition owned (s : mem) : list ptr :=
  match _kvs (hmap s) with
  | Tbl a => match heap s !! a with Some h => keys_of (kvs h) | None => [] end
  | _ => []
  end ++ freed s.

Lemma owned_quiet s a h : quiet s a h -> owned s = keys_of (kvs h) ++ freed s.
Proof. intros (Hk & _ & Hh & _). unfold owned. now rewrite Hk, Hh. Qed.

Lemma keys_of_insert_same (l : list entry) i x y :
  l !! i = Some x -> _key y = _key x -> keys_of (<[i := y]> l) = keys_of l.
Proof.
  revert i. induction l as [|z l IH]; intros [|i] Hx Hk; try done.
  - injection Hx as ->. cbn [insert list_insert keys_of]. now rewrite Hk.
  - change (<[S i := y]> (z :: l)) with (z :: <[i := y]> l). cbn [keys_of].
    now rewrite (IH i Hx Hk).
Qed.

Lemma keys_of_insert_claim (l : list entry) i x y :
  l !! i = Some x -> _key x = null -> _key y <> null ->
  Permutation (keys_of (<[i := y]> l)) (_key y :: keys_of l).
Proof.
  revert i. induction l as [|z l IH]; intros [|i] Hx Hk Hy; try done.
  - injection Hx as ->. cbn [insert list_insert keys_of].
    now rewrite Hk, ptr_eqb_refl, (ptr_eqb_ne _ _ Hy).
  - change (<[S i := y]> (z :: l)) with (z :: <[i := y]> l). cbn [keys_of].
    pose proof (IH i Hx Hk Hy) as Hp.
    destruct (ptr_eqb (_key z) null); [done|]. rewrite Hp. apply perm_swap.
Qed.

(** What a completed call did with the caller's key [k], given the keys
    [O] the map answered for before: it has taken the key, or, when the
    value did not match, it may have let it go. *)
Definition took (O : list ptr) (k oldval r : ptr) (s' : mem) : Prop :=
  Permutation (owned s') (k :: O) \/
  (cas_ok oldval r = false /\ Permutation (owned s') O).

(** One round of the writer that does not resize, and the caller's key. *)
Lemma put_round_keys _resize' s a h fuel k val oldval :
  quiet s a h -> k <> null -> k <> SIZED -> val <> SIZED -> (18 <= fuel)%nat ->
  misses h k (hash_of k) (Z.to_nat REPROBE_LIMIT) = false ->
  exists s' h',
    _putif _resize' fuel false (Tbl a) k (hash_of k) val oldval s = Ok (lookup h k) s' /\
    heap s' !! a = Some h' /\
    (Permutation (keys_of (kvs h') ++ freed s') (k :: keys_of (kvs h) ++ freed s) \/
     (cas_ok oldval (lookup h k) = false /\
      keys_of (kvs h') = keys_of (kvs h) /\ freed s' = freed s)).
Proof.
  intros Hq Hkn Hks Hv Hfuel Hroom.
  pose proof Hq as (Hk & Hn & Hh & Hok & H4 & Hsz).
  pose proof (ok_len h Hok) as HL. pose proof (hash_of_nonzero k) as Hz.
  pose proof (lookup_lt_Some _ _ _ Hh) as Ha.
  assert (Hnr : no_resize_seen (Tbl a) (hmap s)) by (split; auto).
  change (Z.to_nat REPROBE_LIMIT) with 17%nat in Hroom.
  destruct (holds_dec h k) as [(i & x & Hx & Hkx)|Habs].
  - (* the key has a slot *)
    destruct (chain_to_slot h Hok k i x Hx Hkx) as (d & Hd & Hi & Hp & Hm & Hhit).
    rewrite (lookup_holds h Hok k i x Hx Hkx).
    pose proof (holds_inv _ _ Hkx) as [Hxn Hxe].
    destruct (ok_wf h Hok i x Hx) as [_ Hw]. destruct (Hw Hxn) as (_ & Hxs & _).
    assert (Hlt : (d < 17)%nat).
    { destruct (Nat.lt_ge_cases d 17) as [|Hge]; [done|].
      rewrite (misses_le h k (hash_of k) d 17 Hge Hm) in Hroom. done. }
    rewrite (putif_at_hit _resize' s a h Hh HL fuel false k (hash_of k) val oldval d x);
      try done; [|unfold REPROBE_LIMIT; lia|lia].
    assert (Hxi : kvs h !! Z.to_nat (probe_idx (hash_of k) (len h) d) = Some x).
    { now rewrite Hi, Nat2Z.id. }
    destruct fuel as [|fuel]; [lia|].
    destruct (cas_ok oldval (_val x)) eqn:Hc.
    + apply cas_ok_true in Hc.
      exists (after_cas false true a h (probe_idx (hash_of k) (len h) d) x k val s),
             (put_slot h (Z.to_nat (probe_idx (hash_of k) (len h) d)) (set_val val x)).
      split; [apply putif_value_won; auto; lia|].
      split; [cbn; now apply list_lookup_insert_eq|]. left.
      cbn [put_slot set_slots kvs after_cas log_free freed with_map upd_slots upd_heap].
      rewrite (keys_of_insert_same _ _ x) by done.
      symmetry. apply Permutation_middle.
    + pose proof Hc as Hc'. apply cas_ok_false in Hc as [Hc1 Hc2].
      exists s, h. split; [eapply putif_value_lost; eauto; lia|].
      split; [done|]. right. done.
  - (* the key has no slot *)
    rewrite (lookup_absent h k Habs).
    destruct (chain_to_free h Hok k 17 Habs) as [Hm|(d & x & Hd & Hm & Hx & Hf)];
      [congruence|].
    rewrite (putif_at_free _resize' s a h Hh HL fuel false k (hash_of k) val oldval d x);
      try done; [|unfold REPROBE_LIMIT; lia|lia].
    assert (x = zero_entry) as -> by (eapply wf_free_zero; eauto).
    simpl _val.
    set (idx := probe_idx (hash_of k) (len h) d) in *.
    set (x1 := mk_entry k null (hash_of k)).
    set (h1 := put_slot h (Z.to_nat idx) x1).
    set (s1 := upd_slots a h (<[Z.to_nat idx := x1]> (kvs h)) s).
    assert (Hq1 : quiet s1 a h1) by (eapply quiet_claim; eauto).
    pose proof Hq1 as (Hk1 & Hn1 & Hh1 & Hok1 & _).
    assert (Hx1 : kvs h1 !! Z.to_nat idx = Some x1).
    { eapply put_slot_lookup_eq. exact Hx. }
    assert (Hidx : 0 <= idx) by (pose proof (probe_idx_range (hash_of k) (len h) d HL); lia).
    assert (Hkeys1 : Permutation (keys_of (kvs h1)) (k :: keys_of (kvs h))).
    { unfold h1. cbn [put_slot set_slots kvs].
      apply (keys_of_insert_claim _ _ zero_entry x1); done. }
    destruct (delete_request val oldval) eqn:Hdr.
    + exists (log_free k s), h. split; [done|]. split; [done|]. left.
      cbn [log_free freed]. symmetry. apply Permutation_middle.
    + destruct fuel as [|fuel]; [lia|].
      destruct (cas_ok oldval null) eqn:Hc.
      * apply cas_ok_true in Hc.
        exists (after_cas false false a h1 idx x1 k val s1),
               (put_slot h1 (Z.to_nat idx) (set_val val x1)).
        split; [apply (putif_value_won fuel false false s1 a h1 idx x1); auto|].
        split.
        { cbn [after_cas with_map upd_slots upd_heap heap].
          apply list_lookup_insert_eq. eapply lookup_lt_Some. exact Hh1. }
        left.
        cbn [put_slot set_slots kvs after_cas freed with_map upd_slots upd_heap s1].
        rewrite (keys_of_insert_same _ _ x1) by done.
        fold (kvs h1). cbn [app]. change (k :: keys_of (kvs h) ++ freed s)
          with ((k :: keys_of (kvs h)) ++ freed s).
        apply Permutation_app_tail. exact Hkeys1.
      * apply cas_ok_false in Hc as [Hc1 Hc2].
        exists s1, h1.
        split; [apply (putif_value_lost fuel false s1 a h1 idx x1); auto|].
        split; [done|]. left.
        change (k :: keys_of (kvs h) ++ freed s) with ((k :: keys_of (kvs h)) ++ freed s).
        apply Permutation_app_tail. exact Hkeys1.
Qed.

(** A resize moves no key in or out of the map's hands. *)
Lemma resize_owned s a h fuel r s' :
  quiet s a h -> _resize fuel (Tbl a) s = Ok r s' ->
  exists h', quiet s' (length (heap s)) h' /\ Permutation (owned s') (owned s).
Proof.
  intros Hq E. pose proof Hq as (_ & _ & _ & Hok & _).
  set (F := (fuel + Z.to_nat (2 * len h) + 1)%nat).
  apply (resize_mono fuel F ltac:(lia)) in E.
  destruct (resize_log s a h F Hq ltac:(lia))
    as [[Ea _]|(s1 & nh & E1 & Hnh & Hfr & Hfrom & Hin)]; [congruence|].
  destruct (resize_quiet s a h F Hq ltac:(lia)) as [[Ea _]|(s2 & h' & E2 & Hq' & _)];
    [congruence|].
  assert (s2 = s') as -> by congruence. assert (s1 = s') as -> by congruence.
  assert (h' = nh) as ->.
  { destruct Hq' as (_ & _ & Hh' & _). congruence. }
  pose proof Hq' as (_ & _ & _ & Hok' & _).
  exists nh. split; [done|].
  rewrite (owned_quiet _ _ _ Hq), (owned_quiet _ _ _ Hq'), Hfr, app_assoc.
  apply Permutation_app_tail.
  assert (Hsame : forall i j x y, kvs h !! i = Some x -> kvs h !! j = Some y ->
                    _key x <> null -> _key x = _key y -> i = j).
  { intros i j x y Hx Hy Hn Exy. apply (ok_uniq h Hok i j x y Hx Hy Hn); [congruence|].
    rewrite <- Exy. apply equals_refl. }
  assert (Hsame' : forall i j x y, kvs nh !! i = Some x -> kvs nh !! j = Some y ->
                    _key x <> null -> _key x = _key y -> i = j).
  { intros i j x y Hx Hy Hn Exy. apply (ok_uniq nh Hok' i j x y Hx Hy Hn); [congruence|].
    rewrite <- Exy. apply equals_refl. }
  assert (Hlive : forall x, is_live x = true -> _key x <> null /\ _val x <> null).
  { intros x Hl. unfold is_live in Hl. apply andb_true_iff in Hl as [H1 H2]. split.
    - intros Ek. now rewrite Ek, ptr_eqb_refl in H1.
    - intros Ev. now rewrite Ev, ptr_eqb_refl in H2. }
  rewrite <- (Permutation_rev (tombs (kvs h))).
  apply NoDup_Permutation.
  - apply list.NoDup_app. split; [now apply keys_of_NoDup|]. split.
    + intros k Hk Ht. apply list_elem_of_In in Hk, Ht.
      apply keys_of_In in Hk as (i & z & Hz & <- & Hzn).
      destruct (Hfrom i z Hz Hzn) as (j & Hj & Hl). destruct (Hlive z Hl) as [_ Hzv].
      apply tombs_In in Ht as (j' & y & Hy & Hyk & _ & Hyv).
      assert (j' = j) as -> by (apply (Hsame j' j y z); congruence).
      congruence.
    + now apply tombs_NoDup.
  - now apply keys_of_NoDup.
  - intros k. rewrite elem_of_app, !list_elem_of_In, !keys_of_In, tombs_In. split.
    + intros [(i & z & Hz & <- & Hzn)|(j & y & Hy & Hyk & Hn & _)].
      * destruct (Hfrom i z Hz Hzn) as (j & Hj & _). eauto.
      * eauto.
    + intros (j & x & Hx & Hxk & Hn). destruct (ptr_eqb (_val x) null) eqn:Ev.
      * apply ptr_eqb_eq in Ev. right. eauto 6.
      * left. assert (Hl : is_live x = true).
        { unfold is_live. rewrite Ev. subst k. now rewrite (ptr_eqb_ne _ _ Hn). }
        pose proof (Hin j x Hx Hl) as Hlk. destruct (Hlive x Hl) as [Hxn Hxv].
        destruct (holds_dec nh (_key x)) as [(i & z & Hz & Hh)|Habs].
        -- apply holds_inv in Hh as [Hzn Hze].
           destruct (Hfrom i z Hz Hzn) as (j' & Hj' & _).
           assert (j' = j) as -> by (apply (ok_uniq h Hok j' j z x); done).
           assert (z = x) as -> by congruence. eauto.
        -- rewrite (lookup_absent nh _ Habs) in Hlk. congruence.
Qed.

Section Owner.

Variables (fuel : nat) (k val oldval : ptr).
Hypothesis Hkn : k <> null.
Hypothesis Hks : k <> SIZED.
Hypothesis Hvs : val <> SIZED.

Lemma engine_owned s a h res s1 :
  quiet s a h -> put_engine fuel k val oldval (Tbl a) s = Ok res s1 ->
  exists a1 h1, quiet s1 a1 h1 /\
    ((res <> SIZED /\ took (owned s) k oldval res s1) \/
     (res = SIZED /\ a1 = length (heap s) /\ Permutation (owned s1) (owned s))).
Proof.
  intros Hq E. unfold put_engine in E.
  pose proof Hq as (Hk & Hn & Hh & Hok & H4 & Hsz).
  pose proof (ok_len h Hok) as HL. pose proof (hash_of_nonzero k) as Hz.
  set (F := (fuel + Z.to_nat (2 * len h) + 18)%nat).
  assert (E' : _putif (_resize F) F false (Tbl a) k (hash_of k) val oldval s = Ok res s1).
  { revert E. apply putif_mono; [|lia]. intros. apply resize_mono. lia. }
  destruct (misses h k (hash_of k) (Z.to_nat REPROBE_LIMIT)) eqn:Hm.
  - rewrite (putif_at_limit (_resize F) s a h Hh HL F k (hash_of k) val oldval) in E';
      [|done|done|done|change (Z.to_nat REPROBE_LIMIT) with 17%nat; lia].
    pose proof (resize_returns_sized _ _ _ _ _ E') as ->.
    destruct (resize_owned s a h F SIZED s1 Hq E') as (h1 & Hq1 & Hp).
    exists (length (heap s)), h1. split; [done|]. right. done.
  - destruct (put_round_keys (_resize F) s a h F k val oldval Hq Hkn Hks Hvs ltac:(lia) Hm)
      as (s' & h' & Er & Hh' & Hkeys).
    rewrite Er in E'. injection E' as <- <-.
    destruct (put_round (_resize F) s a h F k val oldval Hq Hkn Hks Hvs ltac:(lia))
      as [[Hm' _]|(s2 & h2 & Er2 & Hq2 & _)]; [congruence|].
    assert (s2 = s') as -> by congruence.
    assert (h2 = h') as ->.
    { destruct Hq2 as (_ & _ & Hh2 & _). congruence. }
    exists a, h'. split; [done|]. left. split; [now apply (lookup_not_sized h)|].
    unfold took. rewrite (owned_quiet _ _ _ Hq), (owned_quiet _ _ _ Hq2).
    destruct Hkeys as [Hp|(Hc & Hks' & Hf')]; [now left|right].
    split; [done|]. now rewrite Hks', Hf'.
Qed.

Lemma retry_owned fuel' :
  forall O a s1 a1 h1 res r s',
  quiet s1 a1 h1 ->
  (res <> SIZED /\ took O k oldval res s1) \/
  (res = SIZED /\ a <> a1 /\ Permutation (owned s1) O) ->
  retry fuel fuel' (put_engine fuel k val oldval) (Tbl a) res s1 = Ok r s' ->
  took O k oldval r s'.
Proof.
  induction fuel' as [|fuel' IH]; intros O a s1 a1 h1 res r s' Hq1 Hres E.
  - destruct Hres as [[Hne Ht]|[-> _]].
    + rewrite retry_done in E by done. now injection E as <- <-.
    + cbn [retry] in E. rewrite ptr_eqb_refl in E. done.
  - destruct Hres as [[Hne Ht]|(-> & Hne & Hp)].
    + rewrite retry_done in E by done. now injection E as <- <-.
    + cbn [retry] in E. rewrite ptr_eqb_refl in E.
      pose proof Hq1 as (Hk1 & _ & Hh1 & _).
      rewrite bind_ok with (a := tt) (s' := s1) in E.
      2:{ apply help_resize_moved. rewrite Hk1. congruence. }
      erewrite bind_ok in E by apply getkvs_eq. rewrite Hk1 in E.
      apply bind_inv in E as (res2 & s2 & E2 & E).
      destruct (engine_owned _ _ _ _ _ Hq1 E2) as (a2 & h2 & Hq2 & Hout).
      apply (IH O a1 s2 a2 h2 res2 r s' Hq2); [|exact E].
      destruct Hout as [[Hne2 Ht]|(-> & -> & Hp2)].
      * left. split; [done|]. unfold took in *. rewrite <- Hp. exact Ht.
      * right. split; [done|]. split.
        -- apply lookup_lt_Some in Hh1. lia.
        -- now rewrite Hp2.
Qed.

Lemma hashmap_putif_owned s a h r s' :
  quiet s a h -> hashmap_putif fuel k val oldval s = Ok r s' ->
  took (owned s) k oldval r s'.
Proof.
  intros Hq E. unfold hashmap_putif in E. cbv zeta in E.
  fold (put_engine fuel k val oldval) in E.
  rewrite (bind_ok _ _ _ _ _ (getkvs_eq s)) in E.
  pose proof Hq as (Hk & _ & Hh & _). rewrite Hk in E.
  apply bind_inv in E as (res & s1 & E1 & E).
  destruct (engine_owned _ _ _ _ _ Hq E1) as (a1 & h1 & Hq1 & Hout).
  apply (retry_owned fuel (owned s) a s1 a1 h1 res r s' Hq1); [|exact E].
  destruct Hout as [?|(-> & -> & Hp)]; [now left|right].
  split; [done|]. split; [|done]. apply lookup_lt_Some in Hh. lia.
Qed.

End Owner.

(** X13. [hashmap_putif] takes the caller's key.  After any history, a
    call that returns has added the key pointer it was given, once, to the
    pointers the map answers for: the keys in the slots of the current
    table and the keys passed to the destructor.  Nothing else joins or
    leaves them, also when the call resizes the table.  Only a call whose
    oldval is not IGNORE and not the value returned may leave them as they
    were: the key pointer is then in nobody's hands. *)
Theorem putif_takes_the_key vs s fuel k v o r s' :
  reach vs s -> k <> null -> k <> SIZED -> v <> SIZED ->
  hashmap_putif fuel k v o s = Ok r s' ->
  Permutation (owned s') (k :: owned s) \/
  (o <> IGNORE /\ r <> o /\ Permutation (owned s') (owned s)).
Proof.
  intros Hr Hkn Hks Hvs E. destruct (reach_quiet _ _ Hr) as (a & h & Hq & _).
  destruct (hashmap_putif_owned fuel k v o Hkn Hks Hvs s a h r s' Hq E)
    as [Hp|[Hc Hp]]; [now left|right].
  apply cas_ok_false in Hc as [Hc1 Hc2]. done.
Qed.

(** The states a single thread reaches from [hashmap_new], with the
    calls of [hashmap_putif] it has completed so far, the last call
    first. *)
Inductive called : list call -> mem -> Prop :=
| called_new : called [] hashmap_new
| called_get cs s fuel k r s' :
    called cs s -> hashmap_get fuel k s = Ok r s' -> called cs s'
| called_putif cs s fuel k v o r s' :
    called cs s -> k <> null -> k <> SIZED -> v <> SIZED ->
    hashmap_putif fuel k v o s = Ok r s' -> called (mk_call k v o :: cs) s'.

Lemma called_reach cs s : called cs s -> exists vs, reach vs s.
Proof.
  induction 1 as [|cs s fuel k r s' _ [vs IH] E|cs s fuel k v o r s' _ [vs IH] Hkn Hks Hvs E].
  - exists []. constructor.
  - exists vs. eapply reach_get; eauto.
  - exists (v :: vs). eapply reach_putif; eauto.
Qed.

Lemma called_owned cs s :
  called cs s ->
  owned s ⊆+ c_key <$> cs /\
  (Forall (fun c => c_old c = IGNORE) cs -> Permutation (owned s) (c_key <$> cs)).
Proof.
  induction 1 as [|cs s fuel k r s' Hc [IH1 IH2] E|cs s fuel k v o r s' Hc [IH1 IH2] Hkn Hks Hvs E].
  - rewrite (owned_quiet _ _ _ hashmap_new_quiet). unfold new_table. cbn [kvs].
    rewrite keys_of_replicate_zero. done.
  - destruct (called_reach _ _ Hc) as [vs Hr].
    destruct (reach_quiet _ _ Hr) as (a & h & Hq & _).
    destruct (hashmap_get_post _ _ _ _ _ _ _ Hq E) as [_ ->]. done.
  - destruct (called_reach _ _ Hc) as [vs Hr].
    destruct (reach_quiet _ _ Hr) as (a & h & Hq & _).
    pose proof (hashmap_putif_owned fuel k v o Hkn Hks Hvs s a h r s' Hq E) as Ht.
    cbn [fmap list_fmap c_key]. split.
    + destruct Ht as [Hp|[_ Hp]]; rewrite Hp.
      * now apply submseteq_skip.
      * now apply submseteq_cons.
    + intros Hall. apply list.Forall_cons in Hall as [Ho Hall]. cbn in Ho. subst o.
      destruct Ht as [Hp|[Hc' _]]; [|done].
      rewrite Hp. now rewrite (IH2 Hall).
Qed.

(** X14. Every key is destroyed at most once.  After any history of
    completed calls, [hashmap_free] leaves in the log of the destructor no
    pointer more often than callers have passed it to [hashmap_putif]: a
    caller who passes each pointer once sees no pointer destroyed twice.
    When every call had oldval IGNORE the log holds exactly the pointers
    passed: each key is destroyed once, none is lost. *)
Theorem every_key_is_destroyed_once cs s :
  called cs s ->
  exists s',
    hashmap_free s = Ok tt s' /\
    freed s' ⊆+ c_key <$> cs /\
    (NoDup (c_key <$> cs) -> NoDup (freed s')) /\
    (Forall (fun c => c_old c = IGNORE) cs -> Permutation (freed s') (c_key <$> cs)).
Proof.
  intros Hc. destruct (called_owned _ _ Hc) as [Hsub Hperm].
  destruct (called_reach _ _ Hc) as [vs Hr].
  destruct (reach_quiet _ _ Hr) as (a & h & Hq & _).
  rewrite (owned_quiet _ _ _ Hq) in Hsub, Hperm.
  eexists. split; [now apply (hashmap_free_quiet s a h)|]. cbn [freed].
  split; [done|]. split; [|done].
  intros Hnd. apply submseteq_sublist_r in Hsub as (l2 & Hp & Hs).
  rewrite Hp. eapply sublist_NoDup; eauto.
Qed.


(** ** The map a caller sees *)

(** What the calls [cs], the last one first, leave a key mapped to: the
    value of the last call for an equal key whose oldval was IGNORE or the
    value the key had then; 0 when there is none. *)
Fixpoint model (cs : list call) (k' : ptr) : ptr :=
  match cs with
  | [] => null
  | c :: cs =>
      if equals_func (c_key c) k' && cas_ok (c_old c) (model cs (c_key c))
      then c_val c else model cs k'
  end.

(** The number of keys the calls leave mapped to a value other than 0. *)
Fixpoint model_size (cs : list call) : Z :=
  match cs with
  | [] => 0
  | c :: cs => model_size cs + size_delta (c_val c) (c_old c) (model cs (c_key c))
  end.

Lemma called_model cs s :
  called cs s ->
  exists a h, quiet s a h /\ (forall k, lookup h k = model cs k) /\
    count_if is_live (kvs h) = model_size cs.
Proof.
  induction 1 as [|cs s fuel k r s' _ (a & h & Hq & Hl & Hn) E
                  |cs s fuel k v o r s' _ (a & h & Hq & Hl & Hn) Hkn Hks Hvs E].
  - exists 0%nat, new_table. split; [apply hashmap_new_quiet|]. split.
    + intros k. apply lookup_absent. intros i y Hy.
      apply lookup_replicate in Hy as [-> _]. reflexivity.
    + unfold new_table. cbn [kvs model_size]. apply count_if_replicate_zero.
  - destruct (hashmap_get_post _ _ _ _ _ _ _ Hq E) as [_ ->]. eauto.
  - destruct (hashmap_putif_post fuel k v o Hkn Hks Hvs s a h r s' Hq E)
      as (a' & h' & Hq' & _ & Hl' & Hn').
    exists a', h'. split; [done|]. cbn [model model_size c_key c_val c_old]. split.
    + intros k'. now rewrite Hl', !Hl.
    + now rewrite Hn', Hn, Hl.
Qed.

(** X15. The map is the map of its calls.  After any history of completed
    calls from [hashmap_new], whatever resizes it went through, the map
    answers as the list of the [hashmap_putif] calls says: [hashmap_get]
    returns, and changes nothing, the value of the last call for an equal
    key that took effect, or 0; [hashmap_size] is the number of keys those
    calls leave with a value other than 0; and the next [hashmap_putif]
    returns the value its key has by that list. *)
Theorem map_follows_its_calls cs s :
  called cs s ->
  (forall k, maps_to s k (model cs k)) /\
  (forall fuel k r s', hashmap_get fuel k s = Ok r s' -> r = model cs k /\ s' = s) /\
  hashmap_size s = Ok (model_size cs) s /\
  (forall fuel k v o r s', k <> null -> k <> SIZED -> v <> SIZED ->
     hashmap_putif fuel k v o s = Ok r s' ->
     r = model cs k /\ forall k', maps_to s' k' (model (mk_call k v o :: cs) k')).
Proof.
  intros Hc. destruct (called_model _ _ Hc) as (a & h & Hq & Hl & Hn).
  split; [|split; [|split]].
  - intros k. rewrite <- Hl. now apply (maps_to_quiet s a).
  - intros fuel k r s' E.
    destruct (hashmap_get_post _ _ _ _ _ _ _ Hq E) as [-> ->]. now rewrite Hl.
  - rewrite <- Hn. now apply (hashmap_size_quiet s a).
  - intros fuel k v o r s' Hkn Hks Hvs E.
    destruct (called_model _ _ (called_putif _ _ _ _ _ _ _ _ Hc Hkn Hks Hvs E))
      as (a' & h' & Hq' & Hl' & _).
    destruct (hashmap_putif_post fuel k v o Hkn Hks Hvs s a h r s' Hq E)
      as (_ & _ & _ & -> & _).
    split; [apply Hl|]. intros k'. rewrite <- Hl'. now apply (maps_to_quiet s' a').
Qed.


Lemma submseteq_NoDup (l k : list ptr) : l ⊆+ k -> NoDup k -> NoDup l.
Proof.
  intros Hsub Hnd. apply submseteq_sublist_r in Hsub as (l2 & Hp & Hs).
  rewrite Hp. eapply sublist_NoDup; eauto.
Qed.

(** X16. The table holds no destroyed key.  After any history of completed
    calls in which no key pointer was passed twice, at every point: the
    destructor has been called on pointers passed as keys only, on none of
    them twice, and no claimed slot of the current table holds a pointer
    the destructor has been called on. *)
Theorem table_holds_no_destroyed_key cs s :
  called cs s -> NoDup (c_key <$> cs) ->
  exists a h,
    quiet s a h /\
    NoDup (freed s) /\
    (forall k, In k (freed s) -> In k (c_key <$> cs)) /\
    (forall i x, kvs h !! i = Some x -> _key x <> null -> ~ In (_key x) (freed s)).
Proof.
  intros Hc Hnd. destruct (called_owned _ _ Hc) as [Hsub _].
  destruct (called_reach _ _ Hc) as [vs Hr].
  destruct (reach_quiet _ _ Hr) as (a & h & Hq & _).
  rewrite (owned_quiet _ _ _ Hq) in Hsub.
  pose proof (submseteq_NoDup _ _ Hsub Hnd) as Hown.
  apply list.NoDup_app in Hown as (_ & Hdis & Hfr).
  exists a, h. split; [done|]. split; [done|]. split.
  - intros k Hk. apply list_elem_of_In. apply (elem_of_submseteq _ _ k) in Hsub; [done|].
    apply elem_of_app. right. now apply list_elem_of_In.
  - intros i x Hx Hn Hin. apply (Hdis (_key x)).
    + apply list_elem_of_In, keys_of_In. eauto.
    + now apply list_elem_of_In.
Qed.


End Model.

(** * A map of strings

    An instance to run the model on: the address [2 * c] and the address
    [2 * c + 1] hold two copies of the string number [c], whose hash is
    [c mod 1000]; [malloc] returns memory full of rubbish. *)

Definition content (k : ptr) : Z := match k with Addr a => a / 2 | _ => 0 end.
Definition same_content (k k' : ptr) : bool := content k =? content k'.
Definition content_hash (k : ptr) : Z := content k mod 1000.
Definition rubbish (i : nat) : entry := mk_entry (Addr 99) SIZED (Z.of_nat i).

Lemma same_content_refl k : same_content k k = true.
Proof. apply Z.eqb_refl. Qed.

Lemma same_content_sym k k' : same_content k k' = true -> same_content k' k = true.
Proof. unfold same_content. rewrite !Z.eqb_eq. congruence. Qed.

Lemma same_content_trans k k' k'' :
  same_content k k' = true -> same_content k' k'' = true -> same_content k k'' = true.
Proof. unfold same_content. rewrite !Z.eqb_eq. congruence. Qed.

Lemma same_content_hash k k' : same_content k k' = true -> content_hash k = content_hash k'.
Proof. unfold same_content, content_hash. rewrite Z.eqb_eq. now intros ->. Qed.

Definition put : nat -> ptr -> ptr -> ptr -> M ptr :=
  hashmap_putif same_content content_hash rubbish.
Definition get : nat -> ptr -> M ptr := hashmap_get same_content content_hash rubbish.
Definition reached : list ptr -> mem -> Prop := reach same_content content_hash rubbish.
Definition gives : mem -> ptr -> ptr -> Prop := maps_to same_content content_hash rubbish.

(** The store after [n] calls: string 1 is put under the value at 100, then
    strings 2, 3 and 4 fill the four slots of the first table. *)
Definition store0 : mem := hashmap_new rubbish.

Definition after (o : outcome ptr) : mem :=
  match o with Ok _ s => s | _ => store0 end.

Definition store1 : mem := Eval vm_compute in after (put 20 (Addr 2) (Addr 100) IGNORE store0).
Definition store2 : mem := Eval vm_compute in after (put 20 (Addr 4) (Addr 102) IGNORE store1).
Definition store3 : mem := Eval vm_compute in after (put 20 (Addr 6) (Addr 104) IGNORE store2).
Definition store4 : mem := Eval vm_compute in after (put 20 (Addr 8) (Addr 106) IGNORE store3).

Definition table_of (s : mem) : header :=
  match heap s !! 0%nat with Some h => h | None => new_table end.

Definition table1 : header := Eval vm_compute in table_of store1.
Definition table4 : header := Eval vm_compute in table_of store4.

Lemma reached1 : reached [Addr 100] store1.
Proof.
  apply (reach_putif _ _ _ [] store0 20 (Addr 2) (Addr 100) IGNORE null);
    [apply reach_new|done|done|done|vm_compute; reflexivity].
Qed.

Lemma reached4 : reached [Addr 106; Addr 104; Addr 102; Addr 100] store4.
Proof.
  apply (reach_putif _ _ _ _ store3 20 (Addr 8) (Addr 106) IGNORE null);
    [|done|done|done|vm_compute; reflexivity].
  apply (reach_putif _ _ _ _ store2 20 (Addr 6) (Addr 104) IGNORE null);
    [|done|done|done|vm_compute; reflexivity].
  apply (reach_putif _ _ _ _ store1 20 (Addr 4) (Addr 102) IGNORE null);
    [|done|done|done|vm_compute; reflexivity].
  apply reached1.
Qed.

Lemma quiet1 : quiet same_content content_hash store1 0 table1.
Proof.
  apply (reach_quiet_at _ _ rubbish same_content_refl same_content_sym same_content_trans
           same_content_hash [Addr 100]); [apply reached1|reflexivity|reflexivity].
Qed.

Lemma quiet4 : quiet same_content content_hash store4 0 table4.
Proof.
  apply (reach_quiet_at _ _ rubbish same_content_refl same_content_sym same_content_trans
           same_content_hash _ _ _ _ reached4); reflexivity.
Qed.

Lemma maps_to_run s k v fuel :
  get fuel k s = Ok v s -> gives s k v.
Proof.
  intros E. exists fuel. intros fuel' Hf.
  now apply (hashmap_get_mono same_content content_hash rubbish fuel fuel' Hf k s).
Qed.

(** The store after a swap that succeeds. *)
Definition store1_swapped : mem :=
  Eval vm_compute in after (put 20 (Addr 3) (Addr 101) (Addr 100) store1).




Lemma size_counts_live_keys_witness :
  exists n, hashmap_size store4 = Ok n store4 /\ 0 <= n /\
    forall fuel r s', put fuel (Addr 3) null IGNORE store4 = Ok r s' ->
      exists n', hashmap_size s' = Ok n' s' /\
                 n' = n + size_delta null IGNORE r.
Proof.
  destruct (size_counts_live_keys same_content content_hash rubbish
              same_content_refl same_content_sym same_content_trans same_content_hash
              _ store4 reached4) as (a & h & _ & Hsz & Hpos & _ & _ & Hput).
  exists (count_if is_live (kvs h)). split; [exact Hsz|]. split; [exact Hpos|].
  intros fuel r s' E.
  destruct (Hput fuel (Addr 3) null IGNORE r s' ltac:(discriminate) ltac:(discriminate)
              ltac:(discriminate) E) as (n' & H1 & H2 & _).
  exists n'. split; [exact H1|exact H2].
Defined.

Lemma resize_next_length_witness :
  exists s' h',
    _resize same_content rubbish 33 (Tbl 0) store4 = Ok SIZED s' /\
    quiet same_content content_hash s' 1 h' /\ len h' = 8.
Proof.
  destruct (resize_next_length same_content content_hash rubbish
              same_content_refl same_content_sym same_content_trans same_content_hash
              store4 0 table4 33 quiet4 ltac:(reflexivity) ltac:(vm_compute; lia))
    as (s' & h' & E & Hq & _ & Hlen).
  exists s', h'. split; [exact E|]. split; [exact Hq|].
  exact (Hlen ltac:(reflexivity)).
Defined.

(** With [changes] above a quarter of the length 2^26, and a size of
    20132659, below 0.3 * 2^26 = 20132659.2, the next table is
    nevertheless twice as long: [(float)20132659] is 20132660, and
    20132660 / 2^26 is [0.3f]. *)
Lemma next_len_rounds_the_size :
  (67108864 / 4 <? 16777217) = true /\
  (10 * 20132659 <? 3 * 67108864) = true /\
  next_len 16777217 20132659 67108864 = 2 * 67108864.
Proof. vm_compute. repeat split. Qed.

Lemma putif_reprobe_limit_witness :
  exists s' h',
    _putif same_content (_resize same_content rubbish 25) 25 false (Tbl 0)
      (Addr 10) (hash_of content_hash (Addr 10)) (Addr 110) IGNORE store4 = Ok SIZED s' /\
    quiet same_content content_hash s' 1 h'.
Proof.
  destruct (putif_reprobe_limit same_content content_hash rubbish
              same_content_refl same_content_sym same_content_trans same_content_hash
              store4 0 table4 25 (Addr 10) (Addr 110) IGNORE quiet4
              ltac:(discriminate) ltac:(reflexivity) ltac:(reflexivity)
              ltac:(vm_compute; lia))
    as (_ & _ & (s' & h' & E & Hq & _) & _).
  exists s', h'. split; [exact E|exact Hq].
Defined.

Lemma get_returns_null_after_len_probes_witness :
  _get same_content 4 (Tbl 0) (Addr 10) 5 store4 = Ok null store4 /\
  _get same_content 3 (Tbl 0) (Addr 10) 5 store4 = Spin.
Proof.
  destruct (get_returns_null_after_len_probes same_content store4 0 table4 (Addr 10) 5
              ltac:(reflexivity) ltac:(exists 2; split; [lia|reflexivity])
              ltac:(reflexivity)) as (Hret & Hspin & _).
  split; [apply Hret|apply Hspin]; vm_compute; lia.
Defined.

Lemma delete_of_absent_key_witness :
  _putif same_content (fun _ => abort) 1 false (Tbl 0) (Addr 12) 6 null IGNORE store1
  = Ok null (mk_mem (hmap store1) (heap store1) [Addr 12]) /\
  _putif same_content (fun _ => abort) 1 true (Tbl 0) (Addr 12) 6 null IGNORE store1
  = Ok DELETED store1.
Proof.
  destruct (delete_of_absent_key same_content (fun _ => abort) store1 0 table1 1
              (Addr 12) 6 IGNORE 0 zero_entry
              ltac:(reflexivity) ltac:(exists 2; split; [lia|reflexivity])
              ltac:(discriminate) ltac:(discriminate) ltac:(left; reflexivity)
              ltac:(reflexivity) ltac:(reflexivity) ltac:(reflexivity) ltac:(lia))
    as [Hdel Hrz].
  split; [apply Hdel; reflexivity|exact Hrz].
Defined.



Lemma no_slot_has_the_second_copy j y : kvs table1 !! j = Some y -> _key y <> Addr 3.
Proof.
  destruct j as [|[|[|[|j]]]]; cbn; intros H; try discriminate H;
    injection H as <-; discriminate.
Qed.

(** The run that loses a key: string 1 is put from its copy at 2; a
    putif of the same string from its copy at 3, expecting the value at
    555, returns the value at 100 and changes nothing; [hashmap_free] then
    frees the copy at 2 only. *)
Lemma putif_mismatch_leaks_key_witness :
  put 20 (Addr 2) (Addr 100) IGNORE store0 = Ok null store1 /\
  put 20 (Addr 3) (Addr 101) (Addr 555) store1 = Ok (Addr 100) store1 /\
  exists s'', hashmap_free store1 = Ok tt s'' /\ ~ In (Addr 3) (freed s'').
Proof.
  split; [vm_compute; reflexivity|].
  apply (putif_mismatch_leaks_key same_content content_hash rubbish
           same_content_sym same_content_trans same_content_hash
           store1 0 table1 20 (Addr 3) (Addr 101) (Addr 555) quiet1);
    try discriminate; try reflexivity.
  - exists 1%nat, (mk_entry (Addr 2) (Addr 100) 1). split; reflexivity.
  - lia.
  - apply no_slot_has_the_second_copy.
  - intros [].
Defined.

Lemma resize_keeps_the_map_witness :
  exists s',
    _resize same_content rubbish 33 (Tbl 0) store4 = Ok SIZED s' /\
    gives s' (Addr 3) (Addr 100).
Proof.
  destruct (resize_keeps_the_map same_content content_hash rubbish
              same_content_refl same_content_sym same_content_trans same_content_hash
              store4 0 table4 33 quiet4 ltac:(reflexivity) ltac:(vm_compute; lia))
    as (s' & h' & E & _ & Hsame & _).
  exists s'. split; [exact E|]. apply Hsame.
  apply (maps_to_run _ _ _ 20). vm_compute. reflexivity.
Defined.

(** Seventeen strings with the hash 7, put one after the other in an empty
    map, and an eighteenth. *)
Definition colliding : list ptr :=
  (fun i => Addr (14 + 2000 * Z.of_nat i)) <$> seq 0 17.

Definition crowded_store : mem :=
  Eval vm_compute in
    match put_all same_content content_hash rubbish 100
            ((fun k => (k, Addr 100)) <$> colliding) store0 with
    | Some s => s
    | None => store0
    end.

Definition crowded_table : header :=
  Eval vm_compute in
    match _kvs (hmap crowded_store) with
    | Tbl a => match heap crowded_store !! a with Some h => h | None => new_table end
    | _ => new_table
    end.

Definition never_returns (s : mem) (k v o : ptr) : Prop :=
  forall fuel r s', put fuel k v o s <> Ok r s'.

Lemma putif_never_returns_when_crowded_witness :
  never_returns crowded_store (Addr 34014) (Addr 555) IGNORE.
Proof.
  assert (Hmay : forallb may_put ((fun k => (k, Addr 100)) <$> colliding) = true)
    by (vm_compute; reflexivity).
  assert (Hrun : put_all same_content content_hash rubbish 100
                   ((fun k => (k, Addr 100)) <$> colliding) store0 = Some crowded_store)
    by (vm_compute; reflexivity).
  destruct (reach_put_all same_content content_hash rubbish 100 _ [] store0 crowded_store
              (reach_new _ _ _) Hmay Hrun) as [vs Hr].
  unfold never_returns, put.
  apply (putif_never_returns_when_crowded same_content content_hash rubbish
           same_content_refl same_content_sym same_content_trans same_content_hash
           crowded_store 3 crowded_table (Addr 34014) (Addr 555) IGNORE colliding).
  - apply (reach_quiet_at _ _ rubbish same_content_refl same_content_sym
             same_content_trans same_content_hash vs); [exact Hr|reflexivity|reflexivity].
  - discriminate.
  - apply crowdedb_crowded; [apply same_content_sym|vm_compute; reflexivity].
Defined.

(** ** Runs for the further properties *)

Lemma new_map_is_empty_witness :
  reached [] store0 /\ gives store0 (Addr 2) null /\
  hashmap_size store0 = Ok 0 store0 /\ table_len store0 = 4 /\
  hashmap_free store0 = Ok tt store0.
Proof.
  destruct (new_map_is_empty same_content content_hash rubbish
              same_content_sym same_content_trans same_content_hash)
    as (H1 & H2 & H3 & H4 & H5).
  split; [exact H1|]. split; [exact (H2 (Addr 2))|].
  split; [exact H3|]. split; [exact H4|exact H5].
Defined.

Lemma free_frees_each_held_key_once_witness :
  exists a h,
    quiet same_content content_hash store4 a h /\
    hashmap_free store4
    = Ok tt (mk_mem (hmap store4) (heap store4) (keys_of (kvs h) ++ freed store4)) /\
    NoDup (keys_of (kvs h)).
Proof.
  destruct (free_frees_each_held_key_once same_content content_hash rubbish
              same_content_refl same_content_sym same_content_trans same_content_hash
              _ store4 reached4) as (a & h & Hq & Hf & Hnd & _).
  exists a, h. split; [exact Hq|]. split; [exact Hf|exact Hnd].
Defined.

Lemma put_returns_previous_and_keeps_others_witness :
  gives store1 (Addr 3) (Addr 100) /\
  forall k' v', same_content (Addr 3) k' = false ->
    gives store1 k' v' -> gives store1_swapped k' v'.
Proof.
  assert (E : put 20 (Addr 3) (Addr 101) IGNORE store1 = Ok (Addr 100) store1_swapped)
    by (vm_compute; reflexivity).
  exact (put_returns_previous_and_keeps_others same_content content_hash rubbish
           same_content_refl same_content_sym same_content_trans same_content_hash
           [Addr 100] store1 20 (Addr 3) (Addr 101) (Addr 100) store1_swapped
           reached1 ltac:(discriminate) ltac:(discriminate) ltac:(discriminate) E).
Defined.

Lemma get_is_read_only_witness :
  store4 = store4 /\
  forall k', same_content (Addr 9) k' = true -> gives store4 k' (Addr 106).
Proof.
  assert (E : get 20 (Addr 9) store4 = Ok (Addr 106) store4) by (vm_compute; reflexivity).
  exact (get_is_read_only same_content content_hash rubbish
           same_content_refl same_content_sym same_content_trans same_content_hash
           _ store4 20 (Addr 9) (Addr 106) store4 reached4 E).
Defined.

Lemma update_frees_the_callers_key_witness :
  exists s',
    put 20 (Addr 3) (Addr 101) IGNORE store1 = Ok (Addr 100) s' /\
    freed s' = Addr 3 :: freed store1 /\
    heap s' = <[0%nat := put_slot table1 1 (mk_entry (Addr 2) (Addr 101) 1)]> (heap store1).
Proof.
  destruct (update_frees_the_callers_key same_content content_hash rubbish
              same_content_sym same_content_trans same_content_hash
              store1 0 table1 20 (Addr 3) (Addr 101) IGNORE 1
              (mk_entry (Addr 2) (Addr 100) 1) quiet1
              ltac:(discriminate) ltac:(discriminate) ltac:(reflexivity)
              ltac:(reflexivity) ltac:(left; reflexivity) ltac:(reflexivity) ltac:(lia))
    as (s' & E & Hf & Hh & _).
  exists s'. split; [exact E|]. split; [exact Hf|exact Hh].
Defined.

Lemma the_first_table_lacks_string_2 i y :
  kvs table1 !! i = Some y -> holds same_content (Addr 4) y = false.
Proof.
  destruct i as [|[|[|[|i]]]]; cbn; intros H; try discriminate H;
    injection H as <-; reflexivity.
Qed.

Lemma insert_stores_the_callers_key_witness :
  exists d s',
    (d < 17)%nat /\
    put 20 (Addr 4) (Addr 102) IGNORE store1 = Ok null s' /\
    freed s' = freed store1 /\
    heap s' = <[0%nat := put_slot table1 (Z.to_nat (probe_idx 2 4 d))
                           (mk_entry (Addr 4) (Addr 102) 2)]> (heap store1).
Proof.
  destruct (insert_stores_the_callers_key same_content content_hash rubbish
              same_content_sym same_content_hash
              store1 0 table1 20 (Addr 4) (Addr 102) IGNORE quiet1
              ltac:(discriminate) ltac:(discriminate) ltac:(discriminate)
              ltac:(discriminate) ltac:(left; reflexivity)
              the_first_table_lacks_string_2 ltac:(reflexivity) ltac:(lia))
    as (d & x & Hd & _ & _ & _ & s' & E & Hf & Hh & _).
  exists d, s'. split; [exact Hd|]. split; [exact E|]. split; [exact Hf|exact Hh].
Defined.

Lemma capacity_never_shrinks_witness :
  (exists n, 2 <= n <= 31 /\ table_len store4 = 2 ^ n) /\
  forall fuel r s', put fuel (Addr 10) (Addr 110) IGNORE store4 = Ok r s' ->
    table_len store4 <= table_len s'.
Proof.
  destruct (capacity_never_shrinks same_content content_hash rubbish
              same_content_refl same_content_sym same_content_trans same_content_hash
              _ store4 reached4) as (Hpow & _ & Hput).
  split; [exact Hpow|].
  intros fuel r s' E.
  exact (Hput fuel (Addr 10) (Addr 110) IGNORE r s' ltac:(discriminate)
           ltac:(discriminate) ltac:(discriminate) E).
Defined.

(** A table of four slots as [malloc] returns it. *)
Definition fresh_store : mem :=
  mk_mem (hmap store0) [mk_header 0 4 0 (rubbish <$> seq 0 4)] [].

Lemma zero_blocks_clear_the_table_witness :
  zero_all 2 (Tbl 0) fresh_store
  = Ok tt (upd_heap 0 (mk_header 2 4 1 (replicate 4 zero_entry)) fresh_store) /\
  zero_all 1 (Tbl 0) fresh_store = Spin.
Proof.
  assert (Hlen : length (rubbish <$> seq 0 4) = Z.to_nat 4) by (vm_compute; reflexivity).
  assert (Hfuel : (Z.to_nat (blocks_todo 4) < 2)%nat) by (vm_compute; lia).
  exact (zero_blocks_clear_the_table fresh_store 0 4 (rubbish <$> seq 0 4) 2
           ltac:(lia) Hlen ltac:(reflexivity) Hfuel).
Defined.

Lemma help_resize_on_quiet_map_witness :
  _help_resize same_content rubbish 33 (Tbl 7) store4 = Ok tt store4 /\
  exists s' h',
    _help_resize same_content rubbish 33 (Tbl 0) store4 = Ok tt s' /\
    quiet same_content content_hash s' 1 h'.
Proof.
  destruct (help_resize_on_quiet_map same_content content_hash rubbish
              same_content_refl same_content_sym same_content_trans same_content_hash
              store4 0 table4 33 quiet4 ltac:(reflexivity) ltac:(vm_compute; lia))
    as (Hstale & s' & h' & E & Hq & _).
  split; [apply Hstale; discriminate|].
  exists s', h'. split; [exact E|exact Hq].
Defined.

(** String 1 put, then deleted through its second copy: the first copy
    stays in its slot with the value 0, the second has been destroyed. *)
Definition store_deleted : mem :=
  Eval vm_compute in after (put 20 (Addr 3) null IGNORE store1).

Definition table_deleted : header := Eval vm_compute in table_of store_deleted.

Lemma reached_deleted : reached [null; Addr 100] store_deleted.
Proof.
  apply (reach_putif _ _ _ _ store1 20 (Addr 3) null IGNORE (Addr 100));
    [apply reached1|done|done|done|vm_compute; reflexivity].
Qed.

Lemma quiet_deleted : quiet same_content content_hash store_deleted 0 table_deleted.
Proof.
  apply (reach_quiet_at _ _ rubbish same_content_refl same_content_sym same_content_trans
           same_content_hash _ _ _ _ reached_deleted); reflexivity.
Qed.

Lemma resize_frees_the_deleted_keys_witness :
  exists s' h',
    _resize same_content rubbish 33 (Tbl 0) store_deleted = Ok SIZED s' /\
    quiet same_content content_hash s' 1 h' /\
    freed s' = [Addr 2; Addr 3] /\
    ~ In (Addr 2) (keys_of (kvs h')).
Proof.
  destruct (resize_frees_the_deleted_keys same_content content_hash rubbish
              same_content_refl same_content_sym same_content_trans same_content_hash
              store_deleted 0 table_deleted 33 quiet_deleted
              ltac:(reflexivity) ltac:(vm_compute; lia))
    as (s' & h' & E & Hq & Hf & _ & _ & _ & Hone).
  exists s', h'. split; [exact E|]. split; [exact Hq|]. split; [exact Hf|].
  destruct (Hone (Addr 2) ltac:(left; reflexivity)) as [[_ Hout]|[_ Hnot]];
    [exact Hout|].
  exfalso. apply Hnot. left. reflexivity.
Defined.

Lemma putif_takes_the_key_witness :
  Permutation (owned store_deleted) (Addr 3 :: owned store1) \/
  (IGNORE <> IGNORE /\ Addr 100 <> IGNORE /\
   Permutation (owned store_deleted) (owned store1)).
Proof.
  assert (E : put 20 (Addr 3) null IGNORE store1 = Ok (Addr 100) store_deleted)
    by (vm_compute; reflexivity).
  exact (putif_takes_the_key same_content content_hash rubbish
           same_content_refl same_content_sym same_content_trans same_content_hash
           [Addr 100] store1 20 (Addr 3) null IGNORE (Addr 100) store_deleted
           reached1 ltac:(discriminate) ltac:(discriminate) ltac:(discriminate) E).
Defined.

Lemma called_deleted :
  called same_content content_hash rubbish
    [mk_call (Addr 3) null IGNORE; mk_call (Addr 2) (Addr 100) IGNORE] store_deleted.
Proof.
  apply (called_putif _ _ _ _ store1 20 (Addr 3) null IGNORE (Addr 100));
    [|done|done|done|vm_compute; reflexivity].
  apply (called_putif _ _ _ _ store0 20 (Addr 2) (Addr 100) IGNORE null);
    [apply called_new|done|done|done|vm_compute; reflexivity].
Qed.

Lemma every_key_is_destroyed_once_witness :
  exists s',
    hashmap_free store_deleted = Ok tt s' /\
    NoDup (freed s') /\
    Permutation (freed s') [Addr 3; Addr 2].
Proof.
  destruct (every_key_is_destroyed_once same_content content_hash rubbish
              same_content_refl same_content_sym same_content_trans same_content_hash
              _ store_deleted called_deleted) as (s' & E & _ & Hnd & Hall).
  exists s'. split; [exact E|]. split.
  - apply Hnd. cbn. constructor.
    + rewrite list_elem_of_In. intros [H|[]]. discriminate H.
    + constructor; [rewrite list_elem_of_In; intros []|constructor].
  - apply Hall. repeat constructor.
Defined.

Lemma map_follows_its_calls_witness :
  gives store_deleted (Addr 2) null /\
  hashmap_size store_deleted = Ok 0 store_deleted /\
  forall fuel r s', put fuel (Addr 2) (Addr 100) null store_deleted = Ok r s' ->
    r = null /\ gives s' (Addr 3) (Addr 100).
Proof.
  destruct (map_follows_its_calls same_content content_hash rubbish
              same_content_refl same_content_sym same_content_trans same_content_hash
              _ store_deleted called_deleted) as (Hget & _ & Hsize & Hput).
  split; [exact (Hget (Addr 2))|]. split; [exact Hsize|].
  intros fuel r s' E.
  destruct (Hput fuel (Addr 2) (Addr 100) null r s' ltac:(discriminate)
              ltac:(discriminate) ltac:(discriminate) E) as [Hr Hafter].
  split; [exact Hr|exact (Hafter (Addr 3))].
Defined.

Lemma table_holds_no_destroyed_key_witness :
  exists a h,
    quiet same_content content_hash store_deleted a h /\
    NoDup (freed store_deleted) /\
    forall i x, kvs h !! i = Some x -> _key x <> null ->
      ~ In (_key x) (freed store_deleted).
Proof.
  assert (Hnd : NoDup [Addr 3; Addr 2]).
  { constructor.
    - rewrite list_elem_of_In. intros [H|[]]. discriminate H.
    - constructor; [rewrite list_elem_of_In; intros []|constructor]. }
  destruct (table_holds_no_destroyed_key same_content content_hash rubbish
              same_content_refl same_content_sym same_content_trans same_content_hash
              _ store_deleted called_deleted Hnd) as (a & h & Hq & Hfr & _ & Hout).
  exists a, h. split; [exact Hq|]. split; [exact Hfr|exact Hout].
Defined.
